(** * lisgo: a Lispy interpreter in Go

    Shallow embedding of the two source variants of the interpreter:
    the full interpreter with chained environments and user procedures
    (module [Lisgo]) and the calculator variant with one flat environment
    (module [Calc]).  Lexer, reader and [atom] are the same text in both
    files and are embedded once.

    Go's [interface{}] values become the inductive [value]; a [panic] or a
    run-time error of the Go program becomes the [Panic] result; [*Env]
    pointers become indices into an explicit store of frames.  Recursive
    Go functions take a [fuel] that bounds the depth of their calls;
    [OutOfFuel] is no result of the program, and more fuel never changes
    a result ([eval_fuel_mono], [read_fuel_mono]). *)

From Stdlib Require Import ZArith Ascii String.
From stdpp Require Import gmap strings list.

Open Scope Z_scope.

(** ** Results of fallible code *)

(** What a Go [panic] carries: the string handed to [panic(...)], or one of
    the two run-time errors the interpreter can run into. *)
Inductive panic : Type :=
| PanicMsg (msg : string)
| IndexOutOfRange
| NilDereference.

Inductive result (A : Type) : Type :=
| Ok (a : A)
| Panic (p : panic)
| OutOfFuel.

Arguments Ok {A} a.
Arguments Panic {A} p.
Arguments OutOfFuel {A}.

Global Instance result_ret : MRet result := λ A a, Ok a.
Global Instance result_bind : MBind result := λ A B k r,
  match r with
  | Ok a => k a
  | Panic p => Panic p
  | OutOfFuel => OutOfFuel
  end.

Definition fails {A : Type} (r : result A) : Prop :=
  ∃ p, r = Panic p.

(** ** Values

    The dynamic types that flow through [interface{}] in the interpreter:
    [nil], [int], [string] (symbols), [bool], [[]interface{}] (lists),
    [func([]interface{}) interface{}] (primitives) and [*Procedure].
    A [Procedure] is never mutated after [newProcedure], so the pointer is
    embedded as the record it points to; its [env] field stays a pointer
    (never [nil]: it is the [env] that [eval] was running in). *)

Abbreviation loc := nat (only parsing).

Inductive prim : Type :=
| PrimAdd.

#[warnings="-register-all"]
Inductive value : Type :=
| VNil
| VInt (n : Z)
| VSym (s : string)
| VBool (b : bool)
| VList (l : list value)
| VPrim (f : prim)
| VProc (parms : list string) (body : value) (env : loc).

(** Go's [int] (64 bits): the result of [n + m] wraps around. *)
Definition int_bits : Z := 64.
Definition int_min : Z := - 2 ^ (int_bits - 1).
Definition int_max : Z := 2 ^ (int_bits - 1) - 1.
Definition wrap_int (z : Z) : Z :=
  (z + 2 ^ (int_bits - 1)) mod 2 ^ int_bits - 2 ^ (int_bits - 1).

(** ** Lexer *)

Module Lexer.

Definition code (c : ascii) : N := N_of_ascii c.

(** [strings.Replace(s, old, new, -1)] for a one-byte [old]. *)
Fixpoint Replace1 (s : string) (old : ascii) (new : string) : string :=
  match s with
  | "" => ""
  | String c s' =>
      if Ascii.eqb c old then new +:+ Replace1 s' old new
      else String c (Replace1 s' old new)
  end.

(** The white space of [unicode.IsSpace], as the length in bytes of the
    UTF-8 encoding of a space at the head of [s] (0 when there is none):
    tab, newline, vertical tab, form feed, carriage return, space,
    U+0085, U+00A0, U+1680, U+2000..U+200A, U+2028, U+2029, U+202F,
    U+205F, U+3000. *)
Definition ascii_space (c : ascii) : bool :=
  ((9 <=? code c) && (code c <=? 13) || (code c =? 32))%N.

Definition space3 (a b c : N) : bool :=
  ((a =? 225) && (b =? 154) && (c =? 128)
   || (a =? 226) && (b =? 128)
      && ((128 <=? c) && (c <=? 138) || (c =? 168) || (c =? 169) || (c =? 175))
   || (a =? 226) && (b =? 129) && (c =? 159)
   || (a =? 227) && (b =? 128) && (c =? 128))%N.

Definition space2 (a b : N) : bool :=
  ((a =? 194) && ((b =? 133) || (b =? 160)))%N.

Definition space_head (s : string) : nat :=
  match s with
  | "" => 0%nat
  | String a s1 =>
      if ascii_space a then 1%nat
      else match s1 with
           | "" => 0%nat
           | String b s2 =>
               if space2 (code a) (code b) then 2%nat
               else match s2 with
                    | "" => 0%nat
                    | String c _ =>
                        if space3 (code a) (code b) (code c) then 3%nat
                        else 0%nat
                    end
           end
  end.

(** The same for a space at the end of a string, given reversed. *)
Definition space_last (r : string) : nat :=
  match r with
  | "" => 0%nat
  | String a r1 =>
      if ascii_space a then 1%nat
      else match r1 with
           | "" => 0%nat
           | String b r2 =>
               if space2 (code b) (code a) then 2%nat
               else match r2 with
                    | "" => 0%nat
                    | String c _ =>
                        if space3 (code c) (code b) (code a) then 3%nat
                        else 0%nat
                    end
           end
  end.

(** Drop spaces from the head; [skip] counts the bytes of the current
    space still to be dropped. *)
Fixpoint trim_head (head : string → nat) (skip : nat) (s : string) : string :=
  match s with
  | "" => ""
  | String _ s' =>
      match skip with
      | S k => trim_head head k s'
      | O => match head s with
             | O => s
             | S k => trim_head head k s'
             end
      end
  end.

(** [strings.TrimSpace] *)
Definition TrimSpace (s : string) : string :=
  String.rev (trim_head space_last 0 (String.rev (trim_head space_head 0 s))).

(** The class [\s] of Go's regexp syntax: tab, newline, form feed,
    carriage return, space (no vertical tab). *)
Definition re_space (c : ascii) : bool :=
  ((code c =? 9) || (code c =? 10) || (code c =? 12) || (code c =? 13)
   || (code c =? 32))%N.

(** The loop of [Regexp.Split] for the expression [\s+]: every maximal
    run of [\s] is a match; the piece before each match is emitted
    (the empty piece too, when the text starts with a match), and the
    piece after the last match is emitted at the end.  [cur] is the piece
    being collected, reversed; [in_match] tells that the previous byte
    belonged to a match. *)
Fixpoint split_go (in_match : bool) (cur : string) (s : string) : list string :=
  match s with
  | "" => [String.rev cur]
  | String c s' =>
      if re_space c then
        if in_match then split_go true "" s'
        else String.rev cur :: split_go true "" s'
      else split_go false (String c cur) s'
  end.

(** [regexp.MustCompile("\\s+").Split(s, -1)]: the empty text gives one
    empty string. *)
Definition Split (s : string) : list string :=
  match s with
  | "" => [""]
  | _ => split_go false "" s
  end.

(** <<
    func tokenize(chars string) []string {
        s := strings.Replace(chars, "(", " ( ", -1)
        s = strings.Replace(s, ")", " ) ", -1)
        s = strings.TrimSpace(s)
        return regexp.MustCompile("\\s+").Split(s, -1)
    }
    >> *)
Definition tokenize (chars : string) : list string :=
  let s := Replace1 chars "(" " ( " in
  let s := Replace1 s ")" " ) " in
  let s := TrimSpace s in
  Split s.

End Lexer.

(** ** Scanning an integer: [fmt.Sscan(token, &n)] with [n] an [int]

    The scanner of Go's standard library (package [fmt], Go 1.13 and
    later, with the prefixes [0b], [0o], [0x] and the underscores of the
    number literals), as far as [atom] uses it: skip leading space, accept
    one sign, recognise a base prefix, accept the digits of that base, hand
    the accepted text to [strconv.ParseInt(tok, 0, 64)].  What follows the
    accepted text is not looked at: [Sscan] does not ask for the end of the
    input. *)

Module Fmt.
Import Lexer.

Definition lower (c : N) : N := N.lor c 32.

Definition is_sign (c : ascii) : bool := ((code c =? 43) || (code c =? 45))%N.
Definition is_underscore (c : ascii) : bool := (code c =? 95)%N.
Definition is_decimal (c : ascii) : bool := ((48 <=? code c) && (code c <=? 57))%N.
Definition is_octal (c : ascii) : bool := ((48 <=? code c) && (code c <=? 55))%N.
Definition is_binary (c : ascii) : bool := ((48 <=? code c) && (code c <=? 49))%N.
Definition is_hex (c : ascii) : bool :=
  (is_decimal c || (97 <=? lower (code c)) && (lower (code c) <=? 102))%N.

(** The digit sets [scanBasePrefix] returns; each includes ["_"]. *)
Inductive digits : Type := Binary | Octal | Decimal | Hexadecimal.

Definition in_digits (d : digits) (c : ascii) : bool :=
  is_underscore c ||
  match d with
  | Binary => is_binary c
  | Octal => is_octal c
  | Decimal => is_decimal c
  | Hexadecimal => is_hex c
  end.

(** [for s.accept(digits) {}]: the accepted bytes and what is left. *)
Fixpoint accept_all (d : digits) (s : string) : string * string :=
  match s with
  | "" => ("", "")
  | String c s' =>
      if in_digits d c then
        let '(tok, rest) := accept_all d s' in (String c tok, rest)
      else ("", s)
  end.

(** [scanBasePrefix]: the digit set, the accepted prefix, whether a digit
    was already accepted, and the rest of the input. *)
Definition scanBasePrefix (s : string) : digits * string * bool * string :=
  match s with
  | String c0 s1 =>
      if (code c0 =? 48)%N then
        match s1 with
        | String c1 s2 =>
            if (lower (code c1) =? 98)%N then (Binary, String c0 (String c1 ""), true, s2)
            else if (lower (code c1) =? 111)%N then (Octal, String c0 (String c1 ""), true, s2)
            else if (lower (code c1) =? 120)%N then (Hexadecimal, String c0 (String c1 ""), true, s2)
            else (Octal, String c0 "", true, s1)
        | "" => (Octal, String c0 "", true, s1)
        end
      else (Decimal, "", false, s)
  | "" => (Decimal, "", false, s)
  end.

(** [scanNumber]: fails at the end of the input or on a byte that is no
    digit when no digit was accepted before. *)
Definition scanNumber (d : digits) (haveDigits : bool) (s : string) : option string :=
  if haveDigits then Some (fst (accept_all d s))
  else match s with
       | "" => None
       | String c _ => if in_digits d c then Some (fst (accept_all d s)) else None
       end.

(** The text [scanInt] hands to [strconv.ParseInt]. *)
Definition scanInt_token (s : string) : option string :=
  match trim_head space_head 0 s with
  | "" => None
  | String c s' as s0 =>
      let '(sign, s1) := if is_sign c then (String c "", s') else ("", s0) in
      let '(d, prefix, haveDigits, s2) := scanBasePrefix s1 in
      tok ← scanNumber d haveDigits s2;
      Some (sign +:+ prefix +:+ tok)
  end.

(** The digit loop of [strconv.ParseUint] with [base0] set: underscores
    are skipped, a byte that is no digit of the base is a syntax error. *)
Definition digit_val (c : N) : option N :=
  if ((48 <=? c) && (c <=? 57))%N then Some (c - 48)%N
  else if ((97 <=? lower c) && (lower c <=? 122))%N then Some (lower c - 97 + 10)%N
  else None.

Fixpoint parse_digits (base : N) (acc : N) (s : string) : option N :=
  match s with
  | "" => Some acc
  | String c s' =>
      if is_underscore c then parse_digits base acc s'
      else
        d ← digit_val (code c);
        if (base <=? d)%N then None
        else parse_digits base (acc * base + d)%N s'
  end.

Fixpoint has_underscore (s : string) : bool :=
  match s with
  | "" => false
  | String c s' => is_underscore c || has_underscore s'
  end.

(** [strconv.underscoreOK]; [saw] is what the previous byte was. *)
Inductive seen : Type := SawStart | SawDigit | SawUnderscore | SawOther.

Fixpoint underscore_loop (hex : bool) (saw : seen) (s : string) : bool :=
  match s with
  | "" => match saw with SawUnderscore => false | _ => true end
  | String c s' =>
      if is_decimal c
         || hex && (97 <=? lower (code c))%N && (lower (code c) <=? 102)%N
      then underscore_loop hex SawDigit s'
      else if is_underscore c then
        match saw with
        | SawDigit => underscore_loop hex SawUnderscore s'
        | _ => false
        end
      else
        match saw with
        | SawUnderscore => false
        | _ => underscore_loop hex SawOther s'
        end
  end.

Definition underscoreOK (s : string) : bool :=
  let s := match s with
           | String c s' => if is_sign c then s' else s
           | "" => s
           end in
  match s with
  | String c0 (String c1 s') =>
      if (code c0 =? 48)%N
         && ((lower (code c1) =? 98) || (lower (code c1) =? 111)
             || (lower (code c1) =? 120))%N
      then underscore_loop (lower (code c1) =? 120)%N SawDigit s'
      else underscore_loop false SawStart s
  | _ => underscore_loop false SawStart s
  end.

(** [strconv.ParseUint(s, 0, 64)], any error as [None]. *)
Definition ParseUint (s : string) : option N :=
  match s with
  | "" => None
  | String c0 s1 =>
      let '(base, body) :=
        if (code c0 =? 48)%N then
          match s1 with
          | String c1 (String c2 s3) =>
              if (lower (code c1) =? 98)%N then (2%N, String c2 s3)
              else if (lower (code c1) =? 111)%N then (8%N, String c2 s3)
              else if (lower (code c1) =? 120)%N then (16%N, String c2 s3)
              else (8%N, s1)
          | _ => (8%N, s1)
          end
        else (10%N, s) in
      n ← parse_digits base 0%N body;
      if (2 ^ 64 <=? n)%N then None
      else if has_underscore body && negb (underscoreOK s) then None
      else Some n
  end.

(** [strconv.ParseInt(s, 0, 64)], any error as [None]. *)
Definition ParseInt (s : string) : option Z :=
  match s with
  | "" => None
  | String c s' =>
      let '(neg, digits) :=
        if (code c =? 43)%N then (false, s')
        else if (code c =? 45)%N then (true, s')
        else (false, s) in
      un ← ParseUint digits;
      if negb neg && (2 ^ 63 <=? un)%N then None
      else if neg && (2 ^ 63 <? un)%N then None
      else Some (if neg then - Z.of_N un else Z.of_N un)
  end.

(** [_, err := fmt.Sscan(token, &n)]: [Some n] when [err == nil]. *)
Definition Sscan (token : string) : option Z :=
  tok ← scanInt_token token;
  ParseInt tok.

End Fmt.

(** ** Reader *)

(** [l[i]] on a slice: a run-time panic when [i] is out of range. *)
Definition index {A : Type} (l : list A) (i : nat) : result A :=
  match l !! i with
  | Some a => Ok a
  | None => Panic IndexOutOfRange
  end.

Definition isSymbol (x : value) : option string :=
  match x with
  | VSym s => Some s
  | _ => None
  end.

Definition isList (x : value) : option (list value) :=
  match x with
  | VList l => Some l
  | _ => None
  end.

Module Reader.

(** <<
    func pop(ts []string) (string, []string) {
        if len(ts) == 0 { return "", make([]string, 0) }
        else { return ts[0], ts[1:] }
    }
    >> *)
Definition pop (ts : list string) : string * list string :=
  match ts with
  | [] => ("", [])
  | t :: ts' => (t, ts')
  end.

(** Numbers become numbers; every other token is a symbol. *)
Definition atom (token : string) : value :=
  match Fmt.Sscan token with
  | Some n => VInt n
  | None => VSym token
  end.

(** [readFromTokens], with [fuel] bounding the depth of the recursion;
    [readList] is its loop [for tokens[0] != ")"], which indexes
    [tokens[0]] without looking at the length. *)
Fixpoint readFromTokens_fuel (fuel : nat) (tokens : list string)
  : result (value * list string) :=
  match fuel with
  | O => OutOfFuel
  | S fuel =>
      match tokens with
      | [] => Panic (PanicMsg "unexpected EOF while reading")
      | _ =>
          let '(token, tokens) := pop tokens in
          if decide ("(" = token) then readList fuel [] tokens
          else if decide (")" = token) then Panic (PanicMsg "unexpected )")
          else Ok (atom token, tokens)
      end
  end
with readList (fuel : nat) (l : list value) (tokens : list string)
  : result (value * list string) :=
  match fuel with
  | O => OutOfFuel
  | S fuel =>
      t0 ← index tokens 0;
      if decide (t0 ≠ ")") then
        '(s, tokens) ← readFromTokens_fuel fuel tokens;
        readList fuel (l ++ [s]) tokens
      else
        let '(_, tokens) := pop tokens in
        Ok (VList l, tokens)
  end.

(** Every call consumes a token, so this much fuel is never used up
    (lemma [readFromTokens_total]). *)
Definition readFromTokens (tokens : list string) : result (value * list string) :=
  readFromTokens_fuel (2 * length tokens + 1) tokens.

(** <<
    func parse(program string) interface{} {
        tokens := tokenize(program)
        s, _ := readFromTokens(tokens)
        return s
    }
    >> *)
Definition parse (program : string) : result value :=
  let tokens := Lexer.tokenize program in
  '(s, _) ← readFromTokens tokens;
  Ok s.

End Reader.

(** ** Primitives *)

(** The function bound to ["+"]:
    <<
      func(args []interface{}) interface{} {
          n, ok1 := args[0].(int)
          m, ok2 := args[1].(int)
          if !ok1 || !ok2 { panic("+ needs numbers") }
          return n + m
      }
    >> *)
Definition isInt (x : value) : Z * bool :=
  match x with
  | VInt n => (n, true)
  | _ => (0, false)
  end.

Definition prim_add (args : list value) : result value :=
  a0 ← index args 0;
  let '(n, ok1) := isInt a0 in
  a1 ← index args 1;
  let '(m, ok2) := isInt a1 in
  if negb ok1 || negb ok2 then Panic (PanicMsg "+ needs numbers")
  else Ok (VInt (wrap_int (n + m))).

Definition call_prim (f : prim) (args : list value) : result value :=
  match f with
  | PrimAdd => prim_add args
  end.

Definition isPrim (x : value) : option prim :=
  match x with
  | VPrim f => Some f
  | _ => None
  end.

(** [m[k]] on a Go map of [interface{}]: [nil] for a missing key. *)
Definition map_get (m : gmap string value) (k : string) : value :=
  default VNil (m !! k).

(** [x != nil] on an [interface{}] *)
Definition not_nil (x : value) : bool :=
  match x with
  | VNil => false
  | _ => true
  end.

(** ** The interpreter with environments and procedures *)

Module Lisgo.

(** <<
    type Env struct {
        inner map[string]interface{}
        outer *Env
    }
    >>
    Frames live in a store; a [*Env] is an index into it, the [nil]
    pointer of [outer] is [None]. *)
Record Env : Type := mkEnv {
  inner : gmap string value;
  outer : option loc
}.

Abbreviation store := (list Env).

(** Following a pointer. Pointers of the Go program always point to a
    frame; the panic stands for an index outside the store. *)
Definition deref (h : store) (e : loc) : result Env :=
  match h !! e with
  | Some fr => Ok fr
  | None => Panic NilDereference
  end.

(** [e.inner[k] = v] *)
Definition assign (h : store) (e : loc) (k : string) (v : value) : result store :=
  fr ← deref h e;
  Ok (<[e := mkEnv (<[k := v]> (inner fr)) (outer fr)]> h).

(** [&Env{make(map[string]interface{}, 0), nil}] *)
Definition newEmptyEnv (h : store) : loc * store :=
  (length h, h ++ [mkEnv ∅ None]).

(** <<
    func newEnv(parms []string, args []interface{}, outer *Env) *Env{
        env := newEmptyEnv()
        for i := 0; i < len(parms); i++ {
            env.inner[parms[i]] = args[i]
        }
        env.outer = outer
        return env
    }
    >> *)
Fixpoint newEnv_loop (parms : list string) (i : nat) (args : list value)
    (m : gmap string value) : result (gmap string value) :=
  match parms with
  | [] => Ok m
  | p :: parms' =>
      a ← index args i;
      newEnv_loop parms' (S i) args (<[p := a]> m)
  end.

Definition newEnv (parms : list string) (args : list value) (out : loc)
    (h : store) : result (loc * store) :=
  let '(env, h) := newEmptyEnv h in
  fr ← deref h env;
  m ← newEnv_loop parms 0 args (inner fr);
  Ok (env, <[env := mkEnv m (Some out)]> h).

(** <<
    func (env *Env) Find(v string) *Env {
        if env.inner[v] != nil || env.outer == nil { return env }
        return env.outer.Find(v)
    }
    >> *)
Fixpoint Find (fuel : nat) (h : store) (env : loc) (v : string) : result loc :=
  match fuel with
  | O => OutOfFuel
  | S fuel =>
      fr ← deref h env;
      if not_nil (map_get (inner fr) v) then Ok env
      else match outer fr with
           | None => Ok env
           | Some out => Find fuel h out v
           end
  end.

(** <<
    func toStrings(parms interface{}) []string
    >> *)
Fixpoint toStrings_loop (l : list value) (strs : list string) : result (list string) :=
  match l with
  | [] => Ok strs
  | x :: l' =>
      match isSymbol x with
      | Some str => toStrings_loop l' (strs ++ [str])
      | None => Panic (PanicMsg "parms needs symbols")
      end
  end.

Definition toStrings (parms : value) : result (list string) :=
  match isList parms with
  | Some l => toStrings_loop l []
  | None => Panic (PanicMsg "parms must be a list")
  end.

Definition newProcedure (parms body : value) (env : loc) : result value :=
  strs ← toStrings parms;
  Ok (VProc strs body env).

(** <<
    func isFalse(x interface{}) (bool, bool) {
        b, ok := x.(bool)
        return !b, ok
    }
    >> *)
Definition isFalse (x : value) : bool * bool :=
  match x with
  | VBool b => (negb b, true)
  | _ => (negb false, false)
  end.

Section Eval.
(** The recursive calls of [eval], one level down. *)
Variable eval : value → loc → store → result (value * store).

(** <<
    func makeArgs(l []interface{}, env *Env) []interface{} {
        args := make([]interface{}, 0)
        for i := 0; i < len(l); i++ {
            args = append(args, eval(l[i], env))
        }
        return args
    }
    >> *)
Fixpoint makeArgs_loop (l : list value) (env : loc) (args : list value)
    (h : store) : result (list value * store) :=
  match l with
  | [] => Ok (args, h)
  | x :: l' =>
      '(v, h) ← eval x env h;
      makeArgs_loop l' env (args ++ [v]) h
  end.

Definition makeArgs (l : list value) (env : loc) (h : store)
  : result (list value * store) :=
  makeArgs_loop l env [] h.

(** <<
    func (proc *Procedure) Call(args []interface{}) interface{} {
        return eval(proc.body, newEnv(proc.parms, args, proc.env))
    }
    >> *)
Definition Call (parms : list string) (body : value) (penv : loc)
    (args : list value) (h : store) : result (value * store) :=
  '(e, h) ← newEnv parms args penv h;
  eval body e h.

(** The tail of [eval]: [(proc arg...)]. *)
Definition apply (l : list value) (env : loc) (h : store)
  : result (value * store) :=
  l0 ← index l 0;
  '(car, h) ← eval l0 env h;
  '(args, h) ← makeArgs (tail l) env h;
  match car with
  | VPrim prim => r ← call_prim prim args; Ok (r, h)
  | VProc parms body penv => Call parms body penv args h
  | _ => Ok (VNil, h)
  end.

(** The body of [eval] for a list [l] whose head is the symbol [str]:
    the [switch], [None] when no [case] is taken. *)
Definition special (find : store → loc → string → result loc)
    (str : string) (l : list value) (env : loc) (h : store)
  : option (result (value * store)) :=
  if decide (str = "quote") then Some (
    q ← index l 1;
    Ok (q, h))
  else if decide (str = "if") then Some (
    test ← index l 1;
    conseq ← index l 2;
    alt ← index l 3;
    '(r, h) ← eval test env h;
    let '(b, ok) := isFalse r in
    if ok && b then eval alt env h else eval conseq env h)
  else if decide (str = "define") then Some (
    car ← index l 1;
    cdr ← index l 2;
    match isSymbol car with
    | Some str =>
        '(v, h) ← eval cdr env h;
        h ← assign h env str v;
        fr ← deref h env;
        Ok (map_get (inner fr) str, h)
    | None => Panic (PanicMsg "define needs a symbol")
    end)
  else if decide (str = "set!") then Some (
    v ← index l 1;
    exp ← index l 2;
    match isSymbol v with
    | Some str =>
        e ← find h env str;
        '(val, h) ← eval exp env h;
        h ← assign h e str val;
        fr ← deref h e;
        Ok (map_get (inner fr) str, h)
    | None => Panic (PanicMsg "set! needs a symbol")
    end)
  else if decide (str = "lambda") then Some (
    parms ← index l 1;
    body ← index l 2;
    p ← newProcedure parms body env;
    Ok (p, h))
  else None.

Definition eval_body (find : store → loc → string → result loc)
    (x : value) (env : loc) (h : store) : result (value * store) :=
  match isSymbol x with
  | Some str =>
      e ← find h env str;
      fr ← deref h e;
      Ok (map_get (inner fr) str, h)
  | None =>
      match isList x with
      | None => Ok (x, h)
      | Some l =>
          if decide (length l = 0%nat) then Panic (PanicMsg "empty list")
          else
            match l0 ← l !! 0%nat; str ← isSymbol l0; special find str l env h with
            | Some r => r
            | None => apply l env h
            end
      end
  end.
End Eval.

(** [eval], with [fuel] bounding the depth of the calls of [eval] and of
    [Find]. *)
Fixpoint eval (fuel : nat) (x : value) (env : loc) (h : store)
  : result (value * store) :=
  match fuel with
  | O => OutOfFuel
  | S fuel => eval_body (eval fuel) (Find fuel) x env h
  end.

(** <<
    func standardEnv() *Env
    var globalEnv = standardEnv()
    >> *)
Definition standardEnv (h : store) : result (loc * store) :=
  let '(env, h) := newEmptyEnv h in
  h ← assign h env "false" (VBool false);
  h ← assign h env "true" (VBool true);
  h ← assign h env "+" (VPrim PrimAdd);
  Ok (env, h).

Definition globalEnv : loc := 0%nat.
Definition globalStore : store :=
  [mkEnv (<["+" := VPrim PrimAdd]>
           (<["true" := VBool true]> (<["false" := VBool false]> ∅))) None].

(** [eval(parse(s), globalEnv)], as in [e] and in the loop of [repl]. *)
Definition run (fuel : nat) (s : string) (h : store) : result (value * store) :=
  x ← Reader.parse s;
  eval fuel x globalEnv h.

(** The loop of [repl] on the given lines, without input and output: the
    lines are evaluated one after the other in the global environment;
    the values are collected. *)
Fixpoint repl (fuel : nat) (lines : list string) (h : store)
  : result (list value * store) :=
  match lines with
  | [] => Ok ([], h)
  | line :: lines =>
      '(val, h) ← run fuel line h;
      '(vals, h) ← repl fuel lines h;
      Ok (val :: vals, h)
  end.

End Lisgo.

(** ** The calculator variant: one flat environment, no procedures *)

Module Calc.

(** The environment is one Go map, shared and updated in place. *)
Abbreviation env_t := (gmap string value).

(** <<
    func isFalse(x interface{}) (bool, bool) {
        b, ok := x.(bool)
        return b, ok
    }
    >> *)
Definition isFalse (x : value) : bool * bool :=
  match x with
  | VBool b => (b, true)
  | _ => (false, false)
  end.

Section Eval.
Variable eval : value → env_t → result (value * env_t).

Fixpoint makeArgs_loop (l : list value) (args : list value) (env : env_t)
  : result (list value * env_t) :=
  match l with
  | [] => Ok (args, env)
  | x :: l' =>
      '(v, env) ← eval x env;
      makeArgs_loop l' (args ++ [v]) env
  end.

Definition makeArgs (l : list value) (env : env_t) : result (list value * env_t) :=
  makeArgs_loop l [] env.

(** The [switch] on the head symbol, with its [default]. *)
Definition switch (str : string) (l : list value) (env : env_t)
  : result (value * env_t) :=
  if decide (str = "quote") then
    q ← index l 1;
    Ok (q, env)
  else if decide (str = "if") then
    test ← index l 1;
    conseq ← index l 2;
    alt ← index l 3;
    '(r, env) ← eval test env;
    let '(b, ok) := isFalse r in
    if ok && negb b then eval alt env else eval conseq env
  else if decide (str = "define") then
    car ← index l 1;
    cdr ← index l 2;
    match isSymbol car with
    | Some str =>
        '(v, env) ← eval cdr env;
        let env := <[str := v]> env in
        Ok (map_get env str, env)
    | None => Panic (PanicMsg "define needs a symbol")
    end
  else
    l0 ← index l 0;
    '(car, env) ← eval l0 env;
    match isPrim car with
    | None => Panic (PanicMsg "not a procedure")
    | Some proc =>
        '(args, env) ← makeArgs (tail l) env;
        r ← call_prim proc args;
        Ok (r, env)
    end.

Definition eval_body (x : value) (env : env_t) : result (value * env_t) :=
  match isSymbol x with
  | Some str => Ok (map_get env str, env)
  | None =>
      match isList x with
      | None => Ok (x, env)
      | Some l =>
          if decide (length l = 0%nat) then Panic (PanicMsg "empty list")
          else
            match l !! 0%nat ≫= isSymbol with
            | Some str => switch str l env
            | None => Ok (VNil, env)
            end
      end
  end.
End Eval.

Fixpoint eval (fuel : nat) (x : value) (env : env_t) : result (value * env_t) :=
  match fuel with
  | O => OutOfFuel
  | S fuel => eval_body (eval fuel) x env
  end.

(** <<
    func standardEnv() map[string]interface{}
    var globalEnv = standardEnv()
    >> *)
Definition standardEnv : env_t :=
  <["+" := VPrim PrimAdd]> (<["true" := VBool true]> (<["false" := VBool false]> ∅)).

Definition globalEnv : env_t := standardEnv.

Definition run (fuel : nat) (s : string) (env : env_t) : result (value * env_t) :=
  x ← Reader.parse s;
  eval fuel x env.

Fixpoint repl (fuel : nat) (lines : list string) (env : env_t)
  : result (list value * env_t) :=
  match lines with
  | [] => Ok ([], env)
  | line :: lines =>
      '(val, env) ← run fuel line env;
      '(vals, env) ← repl fuel lines env;
      Ok (val :: vals, env)
  end.

End Calc.

(** ** The printer *)

(** [schemestr] is the same in both programs.  It prints a list with
    parentheses and everything else with the verb [%d] of [fmt.Sprintf]. *)

Module Printer.

(** The digits of [fmt]'s integer formatting for base 10, written from
    the right:
    <<
      for u >= 10 { i--; next := u / 10; buf[i] = byte('0' + u - next*10); u = next }
      i--; buf[i] = digits[u]
    >>
    [fuel] bounds the number of digits; twenty are enough below 2^64. *)
Definition digit_char (d : N) : ascii := ascii_of_N (48 + d).

Fixpoint fmt_digits (fuel : nat) (u : N) (buf : string) : string :=
  match fuel with
  | O => buf
  | S fuel =>
      if (10 <=? u)%N
      then fmt_digits fuel (u / 10) (String (digit_char (u mod 10)) buf)
      else String (digit_char u) buf
  end.

(** [fmt.Sprintf("%d", n)] for an [int]: a minus sign for a negative
    number, then the digits of its magnitude. *)
Definition Sprintf_d (n : Z) : string :=
  if n <? 0 then String "-" (fmt_digits 20 (Z.to_N (- n)) "")
  else fmt_digits 20 (Z.to_N n) "".

(** [strings.Join(elems, sep)] *)
Fixpoint Join (elems : list string) (sep : string) : string :=
  match elems with
  | [] => ""
  | [s] => s
  | s :: rest => s +:+ sep +:+ Join rest sep
  end.

Section Schemestr.
(** What [fmt.Sprintf("%d", exp)] writes for a function and for a pointer
    to a [Procedure]: text made of machine addresses, left open. *)
Variable pointer_text : value → string.

(** [fmt.Sprintf("%d", exp)] for what is no list: the number for an
    [int], the report of a wrong verb for the other types. *)
Definition Sprintf_d_value (exp : value) : string :=
  match exp with
  | VInt n => Sprintf_d n
  | VSym s => "%!d(string=" +:+ s +:+ ")"
  | VBool b => "%!d(bool=" +:+ (if b then "true" else "false") +:+ ")"
  | VNil => "%!d(<nil>)"
  | _ => pointer_text exp
  end.

(** <<
    func schemestr(exp interface{}) string {
        if l, ok := isList(exp); ok {
            s := make([]string, 0)
            for i := 0; i < len(l); i++ { s = append(s, schemestr(l[i])) }
            return "(" + strings.Join(s, " ") + ")"
        } else {
            return fmt.Sprintf("%d", exp)
        }
    }
    >> *)
Fixpoint schemestr (exp : value) : string :=
  match exp with
  | VList l => "(" +:+ Join (map schemestr l) " " +:+ ")"
  | _ => Sprintf_d_value exp
  end.
End Schemestr.

End Printer.

(** ** Vocabulary of the properties *)

(** The evaluated test of an [if] is the Boolean false. *)
Definition is_false (r : value) : bool :=
  match r with
  | VBool false => true
  | _ => false
  end.

(** The value is an [int]. *)
Definition is_int (x : value) : bool :=
  match x with
  | VInt _ => true
  | _ => false
  end.

(** The value can be called: a primitive or a procedure. *)
Definition callable (x : value) : bool :=
  match x with
  | VPrim _ | VProc _ _ _ => true
  | _ => false
  end.

(** The head of the list is one of the symbols of the [switch] of the
    full interpreter. *)
Definition special_head (x : value) : bool :=
  match x with
  | VSym s => bool_decide (s ∈ ["quote"; "if"; "define"; "set!"; "lambda"])
  | _ => false
  end.

(** The value of a result, without the state. *)
Definition value_of {A S : Type} (r : result (A * S)) : result A :=
  '(v, _) ← r; Ok v.

(** The text consists of ASCII white space only. *)
Fixpoint blank (s : string) : bool :=
  match s with
  | "" => true
  | String c s' => Lexer.ascii_space c && blank s'
  end.

(** The text consists of decimal digits only. *)
Fixpoint all_decimal (s : string) : bool :=
  match s with
  | "" => true
  | String c s' => Fmt.is_decimal c && all_decimal s'
  end.

(** The text is a decimal literal without sign: decimal digits only, at
    least one, the first not ["0"]. *)
Definition decimal_literal (s : string) : bool :=
  match s with
  | "" => false
  | String c _ => negb (Lexer.code c =? 48)%N && all_decimal s
  end.

(** First and last byte of a text. *)
Definition first_char (s : string) : option ascii :=
  match s with
  | "" => None
  | String c _ => Some c
  end.

Fixpoint last_char (s : string) : option ascii :=
  match s with
  | "" => None
  | String c "" => Some c
  | String _ s' => last_char s'
  end.

Module Scope.
Import Lisgo.

(** The frames from [env] outwards to the root, when [fuel] is at least
    their number. *)
Fixpoint chain (fuel : nat) (h : store) (env : loc) : option (list loc) :=
  match fuel with
  | O => None
  | S fuel =>
      fr ← h !! env;
      match outer fr with
      | None => Some [env]
      | Some out => (env ::.) <$> chain fuel h out
      end
  end.

(** [name] is a key of the map of frame [e]. *)
Definition bound_in (h : store) (name : string) (e : loc) : bool :=
  match h !! e with
  | Some fr => bool_decide (is_Some (inner fr !! name))
  | None => false
  end.

(** [name] is a key in none of the frames [ls]. *)
Definition unbound (h : store) (name : string) (ls : list loc) : bool :=
  forallb (λ e, negb (bound_in h name e)) ls.

(** The binding of [name] in frame [e], if any. *)
Definition binding (h : store) (e : loc) (name : string) : option value :=
  fr ← h !! e; inner fr !! name.

End Scope.

(** [r'] is [r], unless [r] ran out of fuel. *)
Definition refines {A : Type} (r r' : result A) : Prop :=
  r = OutOfFuel ∨ r' = r.

(** ** Vocabulary of the further properties *)

(** The integer is in the range of Go's [int]. *)
Definition in_int_range (n : Z) : bool := (int_min <=? n) && (n <=? int_max).

(** What the reader builds: integers in the range of [int], symbols, and
    lists of these. *)
Fixpoint data_ok (v : value) : bool :=
  match v with
  | VInt n => in_int_range n
  | VSym _ => true
  | VList l => forallb data_ok l
  | _ => false
  end.

(** Some byte of the text satisfies [p]. *)
Fixpoint has_char (p : ascii → bool) (s : string) : bool :=
  match s with
  | "" => false
  | String c s' => p c || has_char p s'
  end.

Definition is_paren (c : ascii) : bool :=
  ((Lexer.code c =? 40) || (Lexer.code c =? 41))%N.

(** A token as the lexer is meant to make it: without white space, and a
    parenthesis only as a token of its own. *)
Definition token_ok (t : string) : bool :=
  negb (has_char Lexer.re_space t)
  && (bool_decide (t = "(") || bool_decide (t = ")")
      || negb (has_char is_paren t)).

(** Every parenthesis of the text stands between white space (or at an
    end of the text); [prev] tells that the byte before the text is white
    space or that there is none. *)
Definition next_ok (s : string) : bool :=
  match s with
  | "" => true
  | String c _ => Lexer.re_space c
  end.

Fixpoint isolated (prev : bool) (s : string) : bool :=
  match s with
  | "" => true
  | String c s' =>
      if is_paren c then prev && next_ok s' && isolated false s'
      else isolated (Lexer.re_space c) s'
  end.

Module Binding.
Import Lisgo.

(** Frame [e] holds a value for [name] that is not [nil]: the test of
    [Find]. *)
Definition holds (h : store) (name : string) (e : loc) : bool :=
  match h !! e with
  | Some fr => not_nil (map_get (inner fr) name)
  | None => false
  end.

(** What frame [e] gives for [name]. *)
Definition value_in (h : store) (e : loc) (name : string) : value :=
  match h !! e with
  | Some fr => map_get (inner fr) name
  | None => VNil
  end.

(** The frame a lookup of [name] along the frames [ls] ends in: the first
    that holds a value, else the last. *)
Definition owner (h : store) (name : string) (ls : list loc) : option loc :=
  match List.find (holds h name) ls with
  | Some e => Some e
  | None => last ls
  end.

(** [h'] has every frame of [h], with the same outer link and at least
    the same names. *)
Definition extends (h h' : store) : Prop :=
  ∀ e fr, h !! e = Some fr →
    ∃ fr', h' !! e = Some fr'
           ∧ outer fr' = outer fr
           ∧ ∀ name, is_Some (inner fr !! name) → is_Some (inner fr' !! name).

(** A store for the examples: the global frame and two frames of calls
    that bind [a]. *)
Definition sample_store : store :=
  globalStore ++
  [mkEnv (<["a" := VInt 10]> ∅) (Some 0%nat);
   mkEnv (<["a" := VInt 5]> ∅) (Some 1%nat)].

End Binding.

Module Wf.
Import Lisgo.

(** A value as evaluation makes it, in a store of [n] frames: data of the
    reader, [nil], a Boolean, a primitive, or a procedure whose body is
    data and whose captured frame is one of the [n]. *)
Definition val_ok (n : nat) (v : value) : bool :=
  match v with
  | VNil | VBool _ | VPrim _ => true
  | VProc _ body penv => bool_decide (penv < n)%nat && data_ok body
  | _ => data_ok v
  end.

(** Frame [e] of a store of [n] frames: its outer link points to an
    older frame, its values are as above. *)
Definition frame_ok (n e : nat) (fr : Env) : Prop :=
  (∀ o, outer fr = Some o → (o < e)%nat)
  ∧ map_Forall (λ _ v, val_ok n v = true) (inner fr).

Definition store_ok (h : store) : Prop :=
  ∀ e fr, h !! e = Some fr → frame_ok (length h) e fr.

(** A result that did not follow a pointer out of the store; when it is a
    value, the store is well formed, has at least [n] frames, and the
    value is as above. *)
Definition safe (n : nat) (r : result (value * store)) : Prop :=
  match r with
  | Ok (v, h') =>
      store_ok h' ∧ val_ok (length h') v = true ∧ (n ≤ length h')%nat
  | Panic NilDereference => False
  | _ => True
  end.

End Wf.

(** The number of operands the special form [str] reads. *)
Definition operands (str : string) : option nat :=
  if decide (str = "quote") then Some 1%nat
  else if decide (str = "if") then Some 3%nat
  else if decide (str = "define") then Some 2%nat
  else if decide (str = "set!") then Some 2%nat
  else if decide (str = "lambda") then Some 2%nat
  else None.

(** The printer and the reader. *)

(** A list structure of integers in the range of [int]. *)
Fixpoint num_tree (v : value) : bool :=
  match v with
  | VInt n => in_int_range n
  | VList l => forallb num_tree l
  | _ => false
  end.

(** The tokens of the printed form of such a structure. *)
Fixpoint toks (v : value) : list string :=
  match v with
  | VInt n => [Printer.Sprintf_d n]
  | VList l => "(" :: flat_map toks l ++ [")"]
  | _ => []
  end.

(** The pieces of a text between white space, none of them empty. *)
Fixpoint words_go (cur : string) (s : string) : list string :=
  match s with
  | "" => if bool_decide (cur = "") then [] else [String.rev cur]
  | String c s' =>
      if Lexer.re_space c then
        if bool_decide (cur = "") then words_go "" s'
        else String.rev cur :: words_go "" s'
      else words_go (String c cur) s'
  end.

Definition words (s : string) : list string := words_go "" s.

(** What is no number and no list, and is printed all the same: the
    verb [%d] does not fit it. *)
Definition wrong_verb (exp : value) : bool :=
  match exp with
  | VNil | VSym _ | VBool _ => true
  | _ => false
  end.

(** The calculator and the interpreter. *)

(** The expressions of the calculator: every list that is evaluated has
    a symbol as its head, and that symbol is neither [set!] nor
    [lambda]; what [quote] holds is not looked at. *)
Fixpoint calc_expr (x : value) : bool :=
  match x with
  | VList l =>
      match l with
      | VSym s :: _ =>
          bool_decide (s = "quote")
          || bool_decide (s ≠ "set!") && bool_decide (s ≠ "lambda")
             && forallb calc_expr l
      | _ => false
      end
  | _ => true
  end.

(** The map of the calculator as the one frame of a store. *)
Definition flat (env : Calc.env_t) : Lisgo.store := [Lisgo.mkEnv env None].

(** * Properties *)

(** ** Sanity checks of the lexer and the scanner *)

Example tokenize_nested :
  Lexer.tokenize "(+ 1 (f  2))" = ["("; "+"; "1"; "("; "f"; "2"; ")"; ")"].
Proof. reflexivity. Qed.

Example tokenize_trims : Lexer.tokenize "  a
 b " = ["a"; "b"].
Proof. reflexivity. Qed.

Example Sscan_decimal : Fmt.Sscan "42" = Some 42.
Proof. reflexivity. Qed.
Example Sscan_negative : Fmt.Sscan "-7" = Some (-7).
Proof. reflexivity. Qed.
Example Sscan_sign_only : Fmt.Sscan "+" = None.
Proof. reflexivity. Qed.
Example Sscan_word : Fmt.Sscan "abc" = None.
Proof. reflexivity. Qed.
Example Sscan_overflow : Fmt.Sscan "9223372036854775808" = None.
Proof. vm_compute. reflexivity. Qed.
Example Sscan_int_min : Fmt.Sscan "-9223372036854775808" = Some int_min.
Proof. vm_compute. reflexivity. Qed.
Example Sscan_hex : Fmt.Sscan "0x1F" = Some 31.
Proof. reflexivity. Qed.
Example Sscan_empty : Fmt.Sscan "" = None.
Proof. reflexivity. Qed.

(** ** Results *)

Lemma bind_Ok {A B : Type} (r : result A) (k : A → result B) (b : B) :
  r ≫= k = Ok b → ∃ a, r = Ok a ∧ k a = Ok b.
Proof. destruct r; simpl; intros; try discriminate. eauto. Qed.

Lemma Ok_not_fails {A : Type} (r : result A) a : r = Ok a → ¬ fails r.
Proof. intros -> [p Hp]. discriminate. Qed.

Ltac inv_bind H :=
  repeat match type of H with
    | (_ ≫= _) = Ok _ =>
        let a := fresh "a" in
        let Ha := fresh "Ha" in
        apply bind_Ok in H as (a & Ha & H);
        lazymatch type of a with
        | (_ * _)%type => destruct a as [? ?]
        | _ => idtac
        end;
        simpl in H
    end.

Lemma index_Ok {A : Type} (l : list A) i a : index l i = Ok a ↔ l !! i = Some a.
Proof. unfold index. destruct (l !! i); split; congruence. Qed.

Lemma index_lt {A : Type} (l : list A) i :
  (i < length l)%nat → ∃ a, l !! i = Some a ∧ index l i = Ok a.
Proof.
  intros [a Ha]%lookup_lt_is_Some_2. exists a. by rewrite index_Ok.
Qed.

Lemma index_ge {A : Type} (l : list A) i :
  (length l ≤ i)%nat → index l i = Panic IndexOutOfRange.
Proof. intros H%lookup_ge_None_2. unfold index. by rewrite H. Qed.

(** ** The lexer: blank input and empty tokens *)

Module LexerFacts.
Import Lexer.

Lemma append_nil_l s : "" +:+ s = s.
Proof. reflexivity. Qed.

Lemma append_cons a s1 s2 : String a s1 +:+ s2 = String a (s1 +:+ s2).
Proof. reflexivity. Qed.

Lemma append_nil_r s : s +:+ "" = s.
Proof. induction s as [|a s IH]; [done|]. by rewrite append_cons, IH. Qed.

Lemma append_assoc s1 s2 s3 : (s1 +:+ s2) +:+ s3 = s1 +:+ (s2 +:+ s3).
Proof.
  induction s1 as [|a s1 IH]; [done|]. by rewrite !append_cons, IH.
Qed.

Lemma rev_app_app s1 s2 : String.rev_app s1 s2 = String.rev s1 +:+ s2.
Proof.
  unfold String.rev. revert s2. induction s1 as [|a s1 IH]; intros s2; simpl.
  - done.
  - by rewrite IH, (IH (String a "")), append_assoc.
Qed.

Lemma rev_cons a s : String.rev (String a s) = String.rev s +:+ String a "".
Proof. unfold String.rev at 1. simpl. apply rev_app_app. Qed.

Lemma rev_append s1 s2 : String.rev (s1 +:+ s2) = String.rev s2 +:+ String.rev s1.
Proof.
  induction s1 as [|a s1 IH].
  - by rewrite append_nil_l, append_nil_r.
  - by rewrite append_cons, !rev_cons, IH, append_assoc.
Qed.

Lemma rev_involutive s : String.rev (String.rev s) = s.
Proof.
  induction s as [|a s IH]; [done|].
  by rewrite rev_cons, rev_append, IH.
Qed.

Lemma first_char_append s1 s2 :
  s1 ≠ "" → first_char (s1 +:+ s2) = first_char s1.
Proof. by destruct s1. Qed.

Lemma last_char_snoc s a : last_char (s +:+ String a "") = Some a.
Proof.
  induction s as [|b s IH]; [done|]. rewrite append_cons. simpl.
  destruct (s +:+ String a "") eqn:E; [by destruct s|done].
Qed.

Lemma last_char_rev s : last_char (String.rev s) = first_char s.
Proof. destruct s as [|a s]; [done|]. rewrite rev_cons. apply last_char_snoc. Qed.

Lemma rev_empty s : String.rev s = "" → s = "".
Proof. intros H. by rewrite <- (rev_involutive s), H. Qed.

(** What [trim_head] returns is empty or does not begin with a space, and
    it is the end of the text it was given. *)
Lemma trim_head_done head s :
  ∀ skip, trim_head head skip s = "" ∨ head (trim_head head skip s) = 0%nat.
Proof.
  induction s as [|c s IH]; intros skip; simpl; [by left|].
  destruct skip as [|k]; [|apply IH].
  destruct (head (String c s)) as [|k] eqn:Hh; [|apply IH].
  right. done.
Qed.

Lemma trim_head_suffix head s :
  ∀ skip, ∃ p, s = p +:+ trim_head head skip s.
Proof.
  induction s as [|c s IH]; intros skip; simpl; [by exists ""|].
  destruct skip as [|k].
  - destruct (head (String c s)) as [|k]; [by exists ""|].
    destruct (IH k) as [p Hp]. exists (String c p).
    rewrite append_cons. by f_equal.
  - destruct (IH k) as [p Hp]. exists (String c p).
    rewrite append_cons. by f_equal.
Qed.

Lemma re_space_ascii_space c : re_space c = true → ascii_space c = true.
Proof.
  unfold re_space, ascii_space.
  rewrite !orb_true_iff, andb_true_iff, !N.eqb_eq, !N.leb_le. lia.
Qed.

Lemma space_head_0 s c :
  space_head s = 0%nat → first_char s = Some c → re_space c = false.
Proof.
  destruct s as [|a s]; [done|]. simpl. intros H [= ->].
  destruct (re_space c) eqn:Hc; [|done].
  by rewrite (re_space_ascii_space _ Hc) in H.
Qed.

Lemma space_last_0 s c :
  space_last s = 0%nat → first_char s = Some c → re_space c = false.
Proof.
  destruct s as [|a s]; [done|]. simpl. intros H [= ->].
  destruct (re_space c) eqn:Hc; [|done].
  by rewrite (re_space_ascii_space _ Hc) in H.
Qed.

(** A trimmed text is empty, or begins and ends with a byte that is no
    [\s]. *)
Lemma TrimSpace_ends s :
  TrimSpace s = ""
  ∨ ∃ a b, first_char (TrimSpace s) = Some a ∧ re_space a = false
           ∧ last_char (TrimSpace s) = Some b ∧ re_space b = false.
Proof.
  unfold TrimSpace.
  set (y := trim_head space_head 0 s).
  set (r := trim_head space_last 0 (String.rev y)).
  destruct r as [|b r'] eqn:Hr; [by left|]. right.
  assert (space_last (String b r') = 0%nat) as Hlast.
  { destruct (trim_head_done space_last (String.rev y) 0) as [H|H];
      fold r in H; rewrite Hr in H; [discriminate|done]. }
  destruct (trim_head_suffix space_last (String.rev y) 0) as [p Hp].
  fold r in Hp. rewrite Hr in Hp.
  assert (y = String.rev (String b r') +:+ String.rev p) as Hy.
  { by rewrite <- rev_append, <- Hp, rev_involutive. }
  assert (String.rev (String b r') ≠ "") as Hne.
  { intros H%rev_empty. discriminate. }
  destruct (String.rev (String b r')) as [|a t] eqn:Ht; [done|].
  exists a, b. split_and!.
  - done.
  - assert (space_head y = 0%nat) as Hhead.
    { destruct (trim_head_done space_head s 0) as [H|H]; fold y in H; [|done].
      rewrite H in Hy. discriminate. }
    apply (space_head_0 y); [done|]. by rewrite Hy.
  - by rewrite <- Ht, last_char_rev.
  - by apply (space_last_0 (String b r')).
Qed.

Lemma rev_not_empty c cur : String.rev (String c cur) ≠ "".
Proof. intros H%rev_empty. discriminate. Qed.

Lemma last_char_tail c s b :
  s ≠ "" → last_char (String c s) = Some b → last_char s = Some b.
Proof. by destruct s. Qed.

(** [split_go] emits no empty piece when the text does not end with a
    match and the piece in progress is not empty at a match. *)
Lemma split_go_no_empty s :
  ∀ in_match cur b,
    last_char s = Some b → re_space b = false →
    (in_match = false → cur ≠ "" ∨ ∃ a, first_char s = Some a ∧ re_space a = false) →
    "" ∉ split_go in_match cur s.
Proof.
  induction s as [|c s IH]; intros in_match cur b Hlast Hb Hcur; [done|].
  simpl. destruct (re_space c) eqn:Hc.
  - assert (s ≠ "") as Hs.
    { intros ->. simpl in Hlast. congruence. }
    assert ("" ∉ split_go true "" s) as Hrest.
    { apply (IH true "" b); [by eapply last_char_tail|done|done]. }
    destruct in_match; [done|].
    apply not_elem_of_cons. split; [|done].
    destruct Hcur as [Hcur|(a & [= <-] & Ha)]; [done| |congruence].
    destruct cur; [done|]. intros H. by eapply rev_not_empty.
  - destruct s as [|c' s'] eqn:Hs.
    + simpl. apply not_elem_of_cons. split; [|apply not_elem_of_nil].
      intros H. by eapply rev_not_empty.
    + rewrite <- Hs in *. apply (IH false (String c cur) b).
      * eapply last_char_tail; [|done]. by rewrite Hs.
      * done.
      * intros _. by left.
Qed.

(** The lexer yields an empty token only for blank input, and then it is
    the only token. *)
Lemma tokenize_empty_token chars :
  tokenize chars = [""] ∨ "" ∉ tokenize chars.
Proof.
  unfold tokenize, Split.
  destruct (TrimSpace_ends (Replace1 (Replace1 chars "(" " ( ") ")" " ) "))
    as [->|(a & b & Ha & Hna & Hb & Hnb)]; [by left|].
  destruct (TrimSpace _) as [|c t] eqn:Ht; [by left|]. right.
  apply (split_go_no_empty _ false "" b); [done|done|].
  intros _. right. eauto.
Qed.

Lemma Replace1_blank s old new :
  blank s = true → ascii_space old = false → Replace1 s old new = s.
Proof.
  intros Hs Hold. induction s as [|c s IH]; [done|].
  simpl in *. apply andb_prop in Hs as [Hc Hs].
  destruct (Ascii.eqb_spec c old) as [->|_]; [congruence|].
  by rewrite IH.
Qed.

Lemma trim_head_blank s : blank s = true → trim_head space_head 0 s = "".
Proof.
  induction s as [|c s IH]; [done|]. simpl.
  intros [Hc Hs]%andb_prop. rewrite Hc. by apply IH.
Qed.

Lemma tokenize_blank chars : blank chars = true → tokenize chars = [""].
Proof.
  intros Hb. unfold tokenize, TrimSpace.
  rewrite (Replace1_blank chars "(" " ( " Hb eq_refl).
  rewrite (Replace1_blank chars ")" " ) " Hb eq_refl).
  by rewrite (trim_head_blank chars Hb).
Qed.

End LexerFacts.

Lemma split_go_not_nil in_match cur s : Lexer.split_go in_match cur s ≠ [].
Proof.
  revert in_match cur. induction s as [|c s IH]; intros in_match cur; simpl.
  - done.
  - destruct (Lexer.re_space c); [destruct in_match|]; auto.
Qed.

Lemma tokenize_not_nil chars : Lexer.tokenize chars ≠ [].
Proof.
  unfold Lexer.tokenize, Lexer.Split.
  destruct (Lexer.TrimSpace _); [done|]. apply split_go_not_nil.
Qed.

(** C6, what the code does: [Regexp.Split] gives one empty string for the
    empty text, so the lexer yields the one-token sequence [[""]] for
    empty and for blank input, and there is no input for which it yields
    the empty sequence; the reader then makes the symbol with the empty
    name of it, which evaluates to [nil] without any failure.  For every
    other input the lexer does yield no empty token. *)
Theorem C6_tokenize_blank_input :
  Lexer.tokenize "" = [""]
  ∧ (∀ chars, blank chars = true →
       Lexer.tokenize chars = [""]
       ∧ Reader.parse chars = Ok (VSym "")
       ∧ Lisgo.run 2 chars Lisgo.globalStore = Ok (VNil, Lisgo.globalStore)
       ∧ Calc.run 1 chars Calc.globalEnv = Ok (VNil, Calc.globalEnv))
  ∧ (∀ chars, Lexer.tokenize chars ≠ [])
  ∧ (∀ chars, Lexer.tokenize chars = [""] ∨ "" ∉ Lexer.tokenize chars).
Proof.
  split_and!.
  - reflexivity.
  - intros chars Hb. apply LexerFacts.tokenize_blank in Hb.
    assert (Reader.parse chars = Ok (VSym "")) as Hparse.
    { unfold Reader.parse. by rewrite Hb. }
    unfold Lisgo.run, Calc.run. rewrite Hparse. done.
  - apply tokenize_not_nil.
  - apply LexerFacts.tokenize_empty_token.
Qed.

(** An instance: a line of three spaces. *)
Lemma C6_tokenize_blank_input_witness :
  blank "   " = true
  ∧ Lexer.tokenize "   " = [""]
  ∧ Reader.parse "   " = Ok (VSym "")
  ∧ Lisgo.run 2 "   " Lisgo.globalStore = Ok (VNil, Lisgo.globalStore)
  ∧ Calc.run 1 "   " Calc.globalEnv = Ok (VNil, Calc.globalEnv).
Proof.
  split; [reflexivity|].
  apply (proj1 (proj2 C6_tokenize_blank_input) "   "). reflexivity.
Defined.

(** ** The scanner stops at the first byte that is no digit *)

Module FmtFacts.
Import Lexer Fmt.

Lemma decimal_not_space c s : is_decimal c = true → space_head (String c s) = 0%nat.
Proof.
  unfold is_decimal. intros [H1 H2]%andb_prop.
  apply N.leb_le in H1, H2.
  assert (ascii_space c = false) as Hsp.
  { unfold ascii_space. apply orb_false_iff. split.
    - apply andb_false_iff. right. apply N.leb_gt. lia.
    - apply N.eqb_neq. lia. }
  assert (∀ b, space2 (code c) b = false) as H2b.
  { intros b. unfold space2. apply andb_false_iff. left. apply N.eqb_neq. lia. }
  assert (∀ b d, space3 (code c) b d = false) as H3b.
  { intros b d. unfold space3.
    assert ((code c =? 225)%N = false) as -> by (apply N.eqb_neq; lia).
    assert ((code c =? 226)%N = false) as -> by (apply N.eqb_neq; lia).
    assert ((code c =? 227)%N = false) as -> by (apply N.eqb_neq; lia).
    done. }
  simpl. rewrite Hsp. destruct s as [|b [|d s]]; [done| |].
  - by rewrite H2b.
  - by rewrite H2b, H3b.
Qed.

Lemma trim_head_0 head s : head s = 0%nat → trim_head head 0 s = s.
Proof. destruct s; simpl; [done|]. by intros ->. Qed.

Lemma decimal_not_sign c : is_decimal c = true → is_sign c = false.
Proof.
  unfold is_decimal, is_sign. intros [H1 H2]%andb_prop.
  apply N.leb_le in H1, H2.
  apply orb_false_iff. split; apply N.eqb_neq; lia.
Qed.

Lemma accept_all_decimal t rest :
  all_decimal t = true →
  match rest with
  | "" => True
  | String c _ => in_digits Decimal c = false
  end →
  accept_all Decimal (t +:+ rest) = (t, rest).
Proof.
  intros Ht Hrest. induction t as [|d t IH].
  - rewrite LexerFacts.append_nil_l. destruct rest as [|c rest]; [done|].
    simpl. by rewrite Hrest.
  - simpl in Ht. apply andb_prop in Ht as [Hd Ht].
    rewrite LexerFacts.append_cons. simpl.
    unfold in_digits at 1. rewrite Hd, orb_true_r. by rewrite IH.
Qed.

Lemma scanInt_token_decimal t rest :
  decimal_literal t = true →
  match rest with
  | "" => True
  | String c _ => in_digits Decimal c = false
  end →
  scanInt_token (t +:+ rest) = Some t.
Proof.
  destruct t as [|d t]; [done|]. simpl.
  intros [Hnz [Hd Ht]%andb_prop]%andb_prop Hrest.
  apply negb_true_iff in Hnz.
  unfold scanInt_token. rewrite LexerFacts.append_cons.
  assert (trim_head space_head 0 (String d (t +:+ rest)) = String d (t +:+ rest))
    as ->.
  { apply trim_head_0. by apply decimal_not_space. }
  rewrite (decimal_not_sign _ Hd).
  unfold scanBasePrefix. rewrite Hnz.
  unfold scanNumber. unfold in_digits at 1. rewrite Hd, orb_true_r.
  rewrite <- LexerFacts.append_cons.
  rewrite accept_all_decimal; [done| |done].
  simpl. by rewrite Hd, Ht.
Qed.

(** After a decimal literal the scanner reads no further: whatever
    follows a byte that is neither a digit nor an underscore leaves the
    result of [Sscan] as it is for the literal alone. *)
Lemma Sscan_ignores_rest t c rest :
  decimal_literal t = true →
  in_digits Decimal c = false →
  Sscan (t +:+ String c rest) = Sscan t.
Proof.
  intros Ht Hc. unfold Sscan.
  rewrite (scanInt_token_decimal t (String c rest)) by done.
  rewrite <- (LexerFacts.append_nil_r t) at 2.
  by rewrite (scanInt_token_decimal t "").
Qed.

End FmtFacts.

(** A token that begins with a decimal literal in the range of [int] is
    read as that integer, whatever follows the literal. *)
Lemma atom_ignores_rest t c rest n :
  decimal_literal t = true →
  Fmt.in_digits Fmt.Decimal c = false →
  Reader.atom t = VInt n →
  Reader.atom (t +:+ String c rest) = VInt n.
Proof.
  intros Ht Hc. unfold Reader.atom.
  rewrite FmtFacts.Sscan_ignores_rest by done.
  by destruct (Fmt.Sscan t).
Qed.

(** When [atom] makes a symbol, it carries the token unchanged. *)
Lemma atom_symbol_raw token s : Reader.atom token = VSym s → s = token.
Proof. unfold Reader.atom. destruct (Fmt.Sscan token); congruence. Qed.

Lemma atom_int_or_symbol token :
  (∃ n, Fmt.Sscan token = Some n ∧ Reader.atom token = VInt n)
  ∨ (Fmt.Sscan token = None ∧ Reader.atom token = VSym token).
Proof. unfold Reader.atom. destruct (Fmt.Sscan token); eauto. Qed.

(** C7, what the code does: [fmt.Sscan] scans the digits at the head of
    the token and does not look at what follows, so a token that only
    begins with digits becomes an integer. *)
Theorem C7_atom_digit_prefix :
  Reader.atom "12abc" = VInt 12
  ∧ Reader.parse "12abc" = Ok (VInt 12)
  ∧ Reader.atom "1+" = VInt 1
  ∧ Reader.atom "0x10" = VInt 16.
Proof. repeat split; reflexivity. Qed.

(** Tokens that are decimal literals or plain names read as expected. *)
Example atom_examples :
  Reader.atom "10" = VInt 10 ∧ Reader.atom "-3" = VInt (-3)
  ∧ Reader.atom "+" = VSym "+" ∧ Reader.atom "x2" = VSym "x2"
  ∧ Reader.atom "set!" = VSym "set!".
Proof. repeat split; reflexivity. Qed.

(** ** The reader: fuel *)

Section ReaderFuel.
Import Reader.

(** A successful read consumes at least one token. *)
Lemma read_consumes fuel :
  (∀ tokens v rest,
      readFromTokens_fuel fuel tokens = Ok (v, rest) →
      (length rest < length tokens)%nat) ∧
  (∀ l tokens v rest,
      readList fuel l tokens = Ok (v, rest) →
      (length rest < length tokens)%nat).
Proof.
  induction fuel as [|fuel [IHr IHl]]; [split; intros; discriminate|].
  split.
  - intros tokens v rest. simpl.
    destruct tokens as [|token tokens]; [discriminate|]. simpl.
    repeat case_decide.
    + intros Hl%IHl. simpl. lia.
    + discriminate.
    + intros [= <- <-]. simpl. lia.
  - intros l tokens v rest. simpl.
    destruct tokens as [|t0 tokens]; [discriminate|]. simpl.
    case_decide.
    + intros ([s ts] & Hs & Hl)%bind_Ok.
      apply IHr in Hs. apply IHl in Hl. simpl in *. lia.
    + intros [= <- <-]. simpl. lia.
Qed.

(** More fuel does not change a result. *)
Lemma read_fuel_mono fuel :
  (∀ fuel' tokens r,
      readFromTokens_fuel fuel tokens = r → r ≠ OutOfFuel → (fuel ≤ fuel')%nat →
      readFromTokens_fuel fuel' tokens = r) ∧
  (∀ fuel' l tokens r,
      readList fuel l tokens = r → r ≠ OutOfFuel → (fuel ≤ fuel')%nat →
      readList fuel' l tokens = r).
Proof.
  induction fuel as [|fuel [IHr IHl]].
  { split; intros; simpl in *; congruence. }
  split.
  - intros [|fuel'] tokens r Hr Hne Hle; [lia|].
    simpl in *. destruct tokens as [|token tokens]; [done|]. simpl in *.
    repeat case_decide; try done.
    apply IHl; [done..|lia].
  - intros [|fuel'] l tokens r Hr Hne Hle; [lia|].
    simpl in *. destruct tokens as [|t0 tokens]; [done|]. simpl in *.
    case_decide; [|done].
    destruct (readFromTokens_fuel fuel (t0 :: tokens)) as [[s ts]| |] eqn:Hs;
      simpl in Hr.
    + rewrite (IHr fuel' _ _ Hs) by (done || lia). simpl.
      apply IHl; [done..|lia].
    + rewrite (IHr fuel' _ _ Hs) by (done || lia). done.
    + congruence.
Qed.

(** With two units of fuel per token (and one more for the loop) the
    reader never runs out. *)
Lemma read_enough_fuel fuel :
  (∀ tokens, (2 * length tokens ≤ fuel)%nat → (1 ≤ fuel)%nat →
      readFromTokens_fuel fuel tokens ≠ OutOfFuel) ∧
  (∀ l tokens, (2 * length tokens + 1 ≤ fuel)%nat →
      readList fuel l tokens ≠ OutOfFuel).
Proof.
  induction fuel as [fuel IH] using lt_wf_ind.
  destruct fuel as [|fuel]; [split; intros; lia|].
  split.
  - intros tokens Hlen _. simpl.
    destruct tokens as [|token tokens]; [done|]. simpl in *.
    repeat case_decide; try done.
    apply (IH fuel); lia.
  - intros l tokens Hlen. simpl.
    destruct tokens as [|t0 tokens]; [done|]. simpl in *.
    case_decide; [|done].
    destruct (readFromTokens_fuel fuel (t0 :: tokens)) as [[s ts]| |] eqn:Hs;
      simpl; [|done|].
    + apply read_consumes in Hs. simpl in Hs.
      apply (IH fuel); lia.
    + exfalso. revert Hs. apply (IH fuel); simpl; lia.
Qed.

Lemma readFromTokens_total tokens : readFromTokens tokens ≠ OutOfFuel.
Proof. apply read_enough_fuel; lia. Qed.

(** Tokens after a complete expression are handed back untouched. *)
Lemma read_app fuel extra :
  (∀ tokens v rest,
      readFromTokens_fuel fuel tokens = Ok (v, rest) →
      readFromTokens_fuel fuel (tokens ++ extra) = Ok (v, rest ++ extra)) ∧
  (∀ l tokens v rest,
      readList fuel l tokens = Ok (v, rest) →
      readList fuel l (tokens ++ extra) = Ok (v, rest ++ extra)).
Proof.
  induction fuel as [|fuel [IHr IHl]]; [split; intros; discriminate|].
  split.
  - intros tokens v rest. simpl.
    destruct tokens as [|token tokens]; [discriminate|]. simpl.
    repeat case_decide; try done.
    + apply IHl.
    + by intros [= <- <-].
  - intros l tokens v rest. simpl.
    destruct tokens as [|t0 tokens]; [discriminate|]. simpl.
    case_decide.
    + intros ([s ts] & Hs & Hl)%bind_Ok.
      apply IHr in Hs. simpl in Hs. rewrite Hs. simpl. by apply IHl.
    + by intros [= <- <-].
Qed.

End ReaderFuel.

(** ** Lists that are not closed *)

Section Unclosed.
Import Reader.

(** Without a [")"] among the tokens the loop of the reader ends by
    indexing an empty slice. *)
Lemma read_unclosed fuel :
  (∀ tokens, ")" ∉ tokens → tokens ≠ [] →
     readFromTokens_fuel fuel tokens = OutOfFuel
     ∨ readFromTokens_fuel fuel tokens = Panic IndexOutOfRange
     ∨ ∃ v rest, readFromTokens_fuel fuel tokens = Ok (v, rest) ∧ ")" ∉ rest)
  ∧ (∀ l tokens, ")" ∉ tokens →
     readList fuel l tokens = OutOfFuel
     ∨ readList fuel l tokens = Panic IndexOutOfRange).
Proof.
  induction fuel as [|fuel [IHr IHl]]; [split; intros; by left|].
  split.
  - intros tokens Hno Hne. simpl.
    destruct tokens as [|token tokens]; [done|]. simpl.
    apply not_elem_of_cons in Hno as [Hne' Hno].
    repeat case_decide; try done.
    + destruct (IHl [] tokens Hno) as [->| ->]; auto.
    + right. right. eauto.
  - intros l tokens Hno. simpl.
    destruct tokens as [|t0 tokens]; [by right|]. simpl.
    pose proof Hno as [Hne' _]%not_elem_of_cons.
    case_decide; [|done].
    destruct (IHr (t0 :: tokens) Hno) as [->| [->|(v & rest & -> & Hrest)]];
      [done|by left|by right|].
    simpl. apply IHl. done.
Qed.

Lemma unclosed_list_fails tokens :
  ")" ∉ tokens → readFromTokens ("(" :: tokens) = Panic IndexOutOfRange.
Proof.
  intros Hno. pose proof (readFromTokens_total ("(" :: tokens)) as Htot.
  unfold readFromTokens in *. simpl length in *.
  destruct (2 * S (length tokens) + 1)%nat as [|fuel] eqn:Hf; [lia|].
  simpl in *. destruct (proj2 (read_unclosed fuel) [] tokens Hno) as [H|H].
  - by rewrite H in Htot.
  - done.
Qed.

Lemma unmatched_close_fails rest :
  readFromTokens (")" :: rest) = Panic (PanicMsg "unexpected )").
Proof.
  unfold readFromTokens. simpl length.
  by destruct (2 * S (length rest) + 1)%nat as [|fuel] eqn:Hf; [lia|].
Qed.

End Unclosed.

(** The guard of the reader for an empty token sequence. *)
Lemma readFromTokens_no_tokens :
  Reader.readFromTokens [] = Panic (PanicMsg "unexpected EOF while reading").
Proof. reflexivity. Qed.

(** C5: malformed input is rejected.  Reading ["(1"], and any list
    that is not closed, runs out of tokens inside the list: the loop
    indexes [tokens[0]] of an empty slice and the Go run time panics;
    reading [")"], alone or followed by anything, panics with
    "unexpected )"; ["()"] reads as the empty list, and evaluating the
    empty list panics with "empty list" in both variants, whatever the
    environment. *)
Theorem C5_malformed_input_fails :
  Reader.parse "(1" = Panic IndexOutOfRange
  ∧ (∀ tokens, ")" ∉ tokens →
       Reader.readFromTokens ("(" :: tokens) = Panic IndexOutOfRange)
  ∧ Reader.parse ")" = Panic (PanicMsg "unexpected )")
  ∧ (∀ rest, Reader.readFromTokens (")" :: rest) = Panic (PanicMsg "unexpected )"))
  ∧ Reader.parse "()" = Ok (VList [])
  ∧ (∀ fuel env h,
       Lisgo.eval (S fuel) (VList []) env h = Panic (PanicMsg "empty list"))
  ∧ (∀ fuel h, Lisgo.run (S fuel) "()" h = Panic (PanicMsg "empty list"))
  ∧ (∀ fuel env,
       Calc.eval (S fuel) (VList []) env = Panic (PanicMsg "empty list"))
  ∧ (∀ fuel env, Calc.run (S fuel) "()" env = Panic (PanicMsg "empty list"))
  ∧ fails (Reader.parse "(1")
  ∧ fails (Reader.parse ")")
  ∧ (∀ fuel h, fails (Lisgo.run (S fuel) "()" h))
  ∧ (∀ fuel env, fails (Calc.run (S fuel) "()" env)).
Proof.
  unfold fails. split_and!; intros; eauto.
  by apply unclosed_list_fails.
Qed.

(** An instance: the tokens of ["(1"]. *)
Lemma C5_malformed_input_fails_witness :
  (")" ∉ ["1"])
  ∧ Reader.readFromTokens ["("; "1"] = Panic IndexOutOfRange.
Proof.
  assert (")" ∉ ["1"]) as Hno.
  { intros H%list_elem_of_singleton. discriminate H. }
  split; [exact Hno|].
  exact (proj1 (proj2 C5_malformed_input_fails) ["1"] Hno).
Defined.

(** C10: when the tokens of the input go on after one complete
    expression, [parse] returns that first expression and drops the rest:
    what follows is neither read nor evaluated nor reported, in either
    variant. *)
Theorem C10_parse_discards_trailing_tokens program tokens extra v :
  Lexer.tokenize program = tokens ++ extra →
  Reader.readFromTokens tokens = Ok (v, []) →
  Reader.readFromTokens (Lexer.tokenize program) = Ok (v, extra)
  ∧ Reader.parse program = Ok v
  ∧ (∀ fuel h, Lisgo.run fuel program h = Lisgo.eval fuel v Lisgo.globalEnv h)
  ∧ (∀ fuel env, Calc.run fuel program env = Calc.eval fuel v env).
Proof.
  intros Htok Hread.
  assert (Reader.readFromTokens (Lexer.tokenize program) = Ok (v, extra)) as Hall.
  { rewrite Htok. unfold Reader.readFromTokens in *.
    apply (proj1 (read_app _ extra)) in Hread. simpl in Hread.
    eapply read_fuel_mono; [exact Hread|done|].
    rewrite length_app. lia. }
  assert (Reader.parse program = Ok v) as Hparse.
  { unfold Reader.parse. by rewrite Hall. }
  split; [done|]. split; [done|].
  split; intros; unfold Lisgo.run, Calc.run; by rewrite Hparse.
Qed.

(** An instance: two forms on one line. *)
Lemma C10_parse_discards_trailing_tokens_witness :
  Lexer.tokenize "(+ 1 2) (+ 3 4)"
  = ["("; "+"; "1"; "2"; ")"] ++ ["("; "+"; "3"; "4"; ")"]
  ∧ Reader.readFromTokens ["("; "+"; "1"; "2"; ")"]
    = Ok (VList [VSym "+"; VInt 1; VInt 2], [])
  ∧ Reader.parse "(+ 1 2) (+ 3 4)" = Ok (VList [VSym "+"; VInt 1; VInt 2]).
Proof.
  split; [reflexivity|]. split; [reflexivity|].
  apply (C10_parse_discards_trailing_tokens "(+ 1 2) (+ 3 4)"
           ["("; "+"; "1"; "2"; ")"] ["("; "+"; "3"; "4"; ")"]);
    reflexivity.
Defined.

(** ** The store only grows *)

Module LisgoFacts.
Import Lisgo.

Lemma deref_Ok h e fr : deref h e = Ok fr ↔ h !! e = Some fr.
Proof. unfold deref. destruct (h !! e); split; congruence. Qed.

Lemma assign_Ok h e k v h' :
  assign h e k v = Ok h' →
  ∃ fr, h !! e = Some fr ∧ h' = <[e := mkEnv (<[k := v]> (inner fr)) (outer fr)]> h.
Proof.
  unfold assign. intros H. inv_bind H. apply deref_Ok in Ha.
  injection H as <-. eauto.
Qed.

Lemma assign_length h e k v h' : assign h e k v = Ok h' → length h' = length h.
Proof. intros (fr & _ & ->)%assign_Ok. apply length_insert. Qed.

Lemma newEnv_length parms args out h e h' :
  newEnv parms args out h = Ok (e, h') → e = length h ∧ length h' = S (length h).
Proof.
  unfold newEnv. simpl. intros H. inv_bind H. injection H as <- <-.
  split; [done|]. rewrite length_insert, length_app. simpl. lia.
Qed.

Section Grow.
Variable ev : value → loc → store → result (value * store).
Hypothesis ev_grow : ∀ x env h v h',
    ev x env h = Ok (v, h') → (length h ≤ length h')%nat.

Lemma makeArgs_loop_grow l env args h vs h' :
  makeArgs_loop ev l env args h = Ok (vs, h') → (length h ≤ length h')%nat.
Proof.
  revert args h. induction l as [|x l IH]; intros args h H; simpl in H.
  - by injection H as <- <-.
  - inv_bind H. apply ev_grow in Ha. apply IH in H. lia.
Qed.

Lemma Call_grow parms body penv args h v h' :
  Call ev parms body penv args h = Ok (v, h') → (length h ≤ length h')%nat.
Proof.
  unfold Call. intros H. inv_bind H.
  apply newEnv_length in Ha as [_ Hlen]. apply ev_grow in H. lia.
Qed.

Lemma apply_grow l env h v h' :
  apply ev l env h = Ok (v, h') → (length h ≤ length h')%nat.
Proof.
  unfold apply, makeArgs. intros H. inv_bind H.
  apply ev_grow in Ha0. apply makeArgs_loop_grow in Ha1.
  destruct v0; try (injection H as <- <-; lia).
  - inv_bind H. injection H as <- <-. lia.
  - apply Call_grow in H. lia.
Qed.

Lemma special_grow find str l env h r v h' :
  special ev find str l env h = Some r → r = Ok (v, h') →
  (length h ≤ length h')%nat.
Proof.
  unfold special. intros Hsp H. subst r.
  repeat case_decide; try discriminate; injection Hsp as Hsp.
  - inv_bind Hsp. by injection Hsp as <- <-.
  - inv_bind Hsp. apply ev_grow in Ha2.
    destruct (isFalse v0) as [b ok].
    destruct (ok && b); apply ev_grow in Hsp; lia.
  - inv_bind Hsp. destruct (isSymbol a); [|discriminate].
    inv_bind Hsp. injection Hsp as <- <-.
    apply ev_grow in Ha1. apply assign_length in Ha2. lia.
  - inv_bind Hsp. destruct (isSymbol a); [|discriminate].
    inv_bind Hsp. injection Hsp as <- <-.
    apply ev_grow in Ha2. apply assign_length in Ha3. lia.
  - inv_bind Hsp. by injection Hsp as <- <-.
Qed.

Lemma eval_body_grow find x env h v h' :
  eval_body ev find x env h = Ok (v, h') → (length h ≤ length h')%nat.
Proof.
  unfold eval_body. intros H.
  destruct (isSymbol x).
  { inv_bind H. by injection H as <- <-. }
  destruct (isList x) as [l|]; [|by injection H as <- <-].
  case_decide; [discriminate|].
  destruct (_ ≫= _) as [r|] eqn:Hsp.
  - destruct (l !! 0%nat) as [l0|]; [|discriminate]. simpl in Hsp.
    destruct (isSymbol l0) as [str|]; [|discriminate]. simpl in Hsp.
    eapply special_grow; eauto.
  - by eapply apply_grow.
Qed.
End Grow.

Lemma eval_grow fuel x env h v h' :
  eval fuel x env h = Ok (v, h') → (length h ≤ length h')%nat.
Proof.
  revert x env h v h'. induction fuel as [|fuel IH]; intros x env h v h' H.
  - discriminate.
  - simpl in H. eapply eval_body_grow; eauto.
Qed.

Lemma eval_keeps_valid fuel x env h v h' e :
  eval fuel x env h = Ok (v, h') → is_Some (h !! e) → is_Some (h' !! e).
Proof.
  intros Hle%eval_grow He%lookup_lt_is_Some_1.
  apply lookup_lt_is_Some_2. lia.
Qed.

End LisgoFacts.

(** ** More fuel does not change a result *)

Lemma refines_refl {A : Type} (r : result A) : refines r r.
Proof. by right. Qed.

Lemma refines_bind {A B : Type} (r r' : result A) (k k' : A → result B) :
  refines r r' → (∀ a, refines (k a) (k' a)) → refines (r ≫= k) (r' ≫= k').
Proof.
  intros [->| ->] Hk; [by left|].
  destruct r as [a| |]; simpl; [apply Hk|by right|by left].
Qed.

Lemma refines_Ok {A : Type} (r r' : result A) a :
  refines r r' → r = Ok a → r' = Ok a.
Proof. intros [->| ->]; [discriminate|done]. Qed.

Ltac refines_step :=
  first
    [ apply refines_refl
    | assumption
    | match goal with H : ∀ _ _ _, refines _ _ |- _ => apply H end
    | apply refines_bind; [|intros ?]
    | match goal with
      | |- refines (let '(_, _) := ?a in _) _ => destruct a
      | |- refines (match ?x with _ => _ end) _ => destruct x
      | |- refines (if ?b then _ else _) _ => destruct b
      end ].

Module LisgoFuel.
Import Lisgo.

Lemma Find_refines fuel fuel' h env v :
  (fuel ≤ fuel')%nat → refines (Find fuel h env v) (Find fuel' h env v).
Proof.
  revert fuel' env. induction fuel as [|fuel IH]; intros fuel' env Hle.
  - by left.
  - destruct fuel' as [|fuel']; [lia|]. simpl.
    apply refines_bind; [apply refines_refl|]. intros fr.
    destruct (not_nil _); [apply refines_refl|].
    destruct (outer fr); [|apply refines_refl].
    apply IH. lia.
Qed.

Section Refine.
Variables ev ev' : value → loc → store → result (value * store).
Variables find find' : store → loc → string → result loc.
Hypothesis Hev : ∀ x env h, refines (ev x env h) (ev' x env h).
Hypothesis Hfind : ∀ h env v, refines (find h env v) (find' h env v).

Lemma makeArgs_loop_refines l env args h :
  refines (makeArgs_loop ev l env args h) (makeArgs_loop ev' l env args h).
Proof.
  revert args h. induction l as [|x l IH]; intros args h; simpl.
  - apply refines_refl.
  - apply refines_bind; [apply Hev|]. intros [v h']. apply IH.
Qed.

Lemma Call_refines parms body penv args h :
  refines (Call ev parms body penv args h) (Call ev' parms body penv args h).
Proof. unfold Call. repeat refines_step. Qed.

Lemma apply_refines l env h :
  refines (apply ev l env h) (apply ev' l env h).
Proof.
  unfold apply, makeArgs.
  apply refines_bind; [apply refines_refl|]. intros l0.
  apply refines_bind; [apply Hev|]. intros [car h1].
  apply refines_bind; [apply makeArgs_loop_refines|]. intros [args h2].
  destruct car; try apply refines_refl. apply Call_refines.
Qed.

Lemma special_refines str l env h :
  match special ev find str l env h, special ev' find' str l env h with
  | Some r, Some r' => refines r r'
  | None, None => True
  | _, _ => False
  end.
Proof.
  unfold special. repeat case_decide; try done; repeat refines_step.
Qed.

Lemma eval_body_refines x env h :
  refines (eval_body ev find x env h) (eval_body ev' find' x env h).
Proof.
  unfold eval_body.
  destruct (isSymbol x); [repeat refines_step|].
  destruct (isList x) as [l|]; [|apply refines_refl].
  case_decide; [apply refines_refl|].
  destruct (l !! 0%nat) as [l0|]; simpl; [|apply apply_refines].
  destruct (isSymbol l0) as [str|]; simpl; [|apply apply_refines].
  pose proof (special_refines str l env h) as Hsp.
  destruct (special ev find str l env h), (special ev' find' str l env h);
    try done.
  apply apply_refines.
Qed.
End Refine.

Lemma eval_refines fuel fuel' x env h :
  (fuel ≤ fuel')%nat → refines (eval fuel x env h) (eval fuel' x env h).
Proof.
  revert fuel' x env h. induction fuel as [|fuel IH]; intros fuel' x env h Hle.
  - by left.
  - destruct fuel' as [|fuel']; [lia|]. simpl.
    apply eval_body_refines.
    + intros. apply IH. lia.
    + intros. apply Find_refines. lia.
Qed.

(** A value obtained with some fuel is obtained with any larger fuel. *)
Lemma eval_fuel_mono fuel fuel' x env h v h' :
  (fuel ≤ fuel')%nat →
  eval fuel x env h = Ok (v, h') → eval fuel' x env h = Ok (v, h').
Proof. intros Hle. apply refines_Ok. by apply eval_refines. Qed.

End LisgoFuel.

Module CalcFuel.
Import Calc.

Section Refine.
Variables ev ev' : value → env_t → result (value * env_t).
Hypothesis Hev : ∀ x env, refines (ev x env) (ev' x env).

Lemma calc_makeArgs_loop_refines l args env :
  refines (makeArgs_loop ev l args env) (makeArgs_loop ev' l args env).
Proof.
  revert args env. induction l as [|x l IH]; intros args env; simpl.
  - apply refines_refl.
  - apply refines_bind; [apply Hev|]. intros [v env']. apply IH.
Qed.

Lemma calc_switch_refines str l env :
  refines (switch ev str l env) (switch ev' str l env).
Proof.
  unfold switch, makeArgs. repeat case_decide.
  - repeat refines_step.
  - apply refines_bind; [apply refines_refl|]. intros test.
    apply refines_bind; [apply refines_refl|]. intros conseq.
    apply refines_bind; [apply refines_refl|]. intros alt.
    apply refines_bind; [apply Hev|]. intros [r env1].
    destruct (isFalse r) as [b ok]. destruct (ok && negb b); apply Hev.
  - apply refines_bind; [apply refines_refl|]. intros car.
    apply refines_bind; [apply refines_refl|]. intros cdr.
    destruct (isSymbol car); [|apply refines_refl].
    apply refines_bind; [apply Hev|]. intros [v env1]. apply refines_refl.
  - apply refines_bind; [apply refines_refl|]. intros l0.
    apply refines_bind; [apply Hev|]. intros [car env1].
    destruct (isPrim car); [|apply refines_refl].
    apply refines_bind; [apply calc_makeArgs_loop_refines|]. intros [args env2].
    apply refines_refl.
Qed.

Lemma calc_eval_body_refines x env :
  refines (eval_body ev x env) (eval_body ev' x env).
Proof.
  unfold eval_body.
  destruct (isSymbol x); [apply refines_refl|].
  destruct (isList x) as [l|]; [|apply refines_refl].
  case_decide; [apply refines_refl|].
  destruct (l !! 0%nat ≫= isSymbol); [apply calc_switch_refines|apply refines_refl].
Qed.
End Refine.

Lemma calc_eval_refines fuel fuel' x env :
  (fuel ≤ fuel')%nat → refines (eval fuel x env) (eval fuel' x env).
Proof.
  revert fuel' x env. induction fuel as [|fuel IH]; intros fuel' x env Hle.
  - by left.
  - destruct fuel' as [|fuel']; [lia|]. simpl.
    apply calc_eval_body_refines. intros. apply IH. lia.
Qed.

Lemma calc_eval_fuel_mono fuel fuel' x env v env' :
  (fuel ≤ fuel')%nat →
  eval fuel x env = Ok (v, env') → eval fuel' x env = Ok (v, env').
Proof. intros Hle. apply refines_Ok. by apply calc_eval_refines. Qed.

End CalcFuel.

(** ** The conditional *)

Lemma Lisgo_isFalse_policy r :
  (let '(b, ok) := Lisgo.isFalse r in ok && b) = is_false r.
Proof. by destruct r as [| | |[]| | |]. Qed.

Lemma Calc_isFalse_policy r :
  (let '(b, ok) := Calc.isFalse r in ok && negb b) = is_false r.
Proof. by destruct r as [| | |[]| | |]. Qed.

Lemma Lisgo_eval_if fuel test conseq alt env h :
  Lisgo.eval (S fuel) (VList [VSym "if"; test; conseq; alt]) env h =
    '(r, h1) ← Lisgo.eval fuel test env h;
    if is_false r then Lisgo.eval fuel alt env h1
    else Lisgo.eval fuel conseq env h1.
Proof.
  simpl. unfold Lisgo.eval_body. simpl. unfold Lisgo.special. simpl.
  destruct (Lisgo.eval fuel test env h) as [[r h1]| |]; simpl; [|done..].
  by destruct r as [| | |[]| | |].
Qed.

Lemma Calc_eval_if fuel test conseq alt env :
  Calc.eval (S fuel) (VList [VSym "if"; test; conseq; alt]) env =
    '(r, env1) ← Calc.eval fuel test env;
    if is_false r then Calc.eval fuel alt env1
    else Calc.eval fuel conseq env1.
Proof.
  simpl. unfold Calc.eval_body. simpl. unfold Calc.switch. simpl.
  destruct (Calc.eval fuel test env) as [[r env1]| |]; simpl; [|done..].
  by destruct r as [| | |[]| | |].
Qed.

Example if_examples :
  value_of (Lisgo.repl 4
    ["(if true 1 2)"; "(if false 1 2)"; "(if 0 1 2)"; "(if (quote ()) 1 2)";
     "(if nothing 1 2)"; "(if + 1 2)"] Lisgo.globalStore)
  = Ok [VInt 1; VInt 2; VInt 1; VInt 1; VInt 1; VInt 1]
  ∧ value_of (Calc.repl 3
    ["(if true 1 2)"; "(if false 1 2)"; "(if 0 1 2)"; "(if (quote ()) 1 2)";
     "(if nothing 1 2)"; "(if + 1 2)"] Calc.globalEnv)
  = Ok [VInt 1; VInt 2; VInt 1; VInt 1; VInt 1; VInt 1].
Proof. split; vm_compute; reflexivity. Qed.

(** C3: in both variants [(if test conseq alt)] evaluates [test] first;
    when it yields the Boolean false the result is the evaluation of [alt],
    for every other value (true, an integer, a list, a symbol, [nil], a
    procedure) it is the evaluation of [conseq]; the other branch is not
    evaluated, and a failure of [test] is the failure of the whole. *)
Theorem C3_if_policy :
  (∀ fuel test conseq alt env h,
      Lisgo.eval (S fuel) (VList [VSym "if"; test; conseq; alt]) env h =
        '(r, h1) ← Lisgo.eval fuel test env h;
        if is_false r then Lisgo.eval fuel alt env h1
        else Lisgo.eval fuel conseq env h1)
  ∧ (∀ fuel test conseq alt env,
      Calc.eval (S fuel) (VList [VSym "if"; test; conseq; alt]) env =
        '(r, env1) ← Calc.eval fuel test env;
        if is_false r then Calc.eval fuel alt env1
        else Calc.eval fuel conseq env1)
  ∧ (∀ r, is_false r = true ↔ r = VBool false).
Proof.
  split; [apply Lisgo_eval_if|]. split; [apply Calc_eval_if|].
  intros r. split; [|by intros ->].
  by destruct r as [| | |[]| | |].
Qed.

(** ** Names that are bound nowhere *)

Module UnboundFacts.
Import Lisgo Scope LisgoFacts.

Lemma unbound_cons h name e ls :
  unbound h name (e :: ls) = true →
  bound_in h name e = false ∧ unbound h name ls = true.
Proof.
  unfold unbound. simpl. intros [H1 H2]%andb_prop.
  split; [|done]. by apply negb_true_iff.
Qed.

Lemma bound_in_false h name e fr :
  h !! e = Some fr → bound_in h name e = false → inner fr !! name = None.
Proof.
  unfold bound_in. intros -> H%bool_decide_eq_false.
  by apply eq_None_not_Some.
Qed.

Lemma map_get_None (m : gmap string value) k : m !! k = None → map_get m k = VNil.
Proof. unfold map_get. by intros ->. Qed.

(** On a name bound nowhere, [Find] walks to the root and returns it. *)
Lemma Find_unbound h name fuel :
  ∀ env ls,
    chain fuel h env = Some ls → unbound h name ls = true →
    ∃ root fr, last ls = Some root ∧ h !! root = Some fr
               ∧ inner fr !! name = None ∧ outer fr = None
               ∧ Find fuel h env name = Ok root.
Proof.
  induction fuel as [|fuel IH]; intros env ls Hch Hun; [discriminate|].
  simpl in Hch. destruct (h !! env) as [fr|] eqn:Hfr; [|discriminate].
  simpl in Hch. destruct (outer fr) as [out|] eqn:Hout.
  - destruct (chain fuel h out) as [ls'|] eqn:Hch'; [|discriminate].
    injection Hch as <-. apply unbound_cons in Hun as [Hb Hun].
    destruct (IH _ _ Hch' Hun) as (root & fr' & Hlast & Hroot & Hnone & Hrt & Hfind).
    exists root, fr'. split_and!; try done.
    + destruct ls'; [discriminate|]. done.
    + simpl. unfold deref. rewrite Hfr. simpl.
      rewrite (map_get_None _ _ (bound_in_false _ _ _ _ Hfr Hb)). simpl.
      by rewrite Hout.
  - injection Hch as <-. apply unbound_cons in Hun as [Hb _].
    exists env, fr. split_and!; try done.
    + by eapply bound_in_false.
    + simpl. unfold deref. rewrite Hfr. simpl.
      rewrite (map_get_None _ _ (bound_in_false _ _ _ _ Hfr Hb)). simpl.
      by rewrite Hout.
Qed.

Lemma eval_symbol fuel name env h :
  eval (S fuel) (VSym name) env h =
    e ← Find fuel h env name;
    fr ← deref h e;
    Ok (map_get (inner fr) name, h).
Proof. reflexivity. Qed.

Lemma eval_set fuel name expr env h :
  eval (S fuel) (VList [VSym "set!"; VSym name; expr]) env h =
    e ← Find fuel h env name;
    '(val, h1) ← eval fuel expr env h;
    h2 ← assign h1 e name val;
    fr ← deref h2 e;
    Ok (map_get (inner fr) name, h2).
Proof. reflexivity. Qed.

Lemma assign_read h e k v fr :
  h !! e = Some fr →
  (h2 ← assign h e k v; fr2 ← deref h2 e; Ok (map_get (inner fr2) k, h2)) =
    Ok (v, <[e := mkEnv (<[k := v]> (inner fr)) (outer fr)]> h).
Proof.
  intros Hfr. unfold assign, deref. rewrite Hfr. simpl.
  rewrite list_lookup_insert_eq by by eapply lookup_lt_Some.
  simpl. unfold map_get. by rewrite lookup_insert_eq.
Qed.

End UnboundFacts.

(** C1 as the code has it: for a name that is a key in no frame of the
    chain, the variable reference yields [nil] and leaves the store as it
    is, and [(set! name expr)] stores the value of [expr] under [name] in
    the root frame of the chain and returns it.  Neither fails. *)
Theorem C1_unbound_name_yields_nil_and_set_binds_in_root
    fuel h env ls name :
  Scope.chain fuel h env = Some ls →
  Scope.unbound h name ls = true →
  Lisgo.eval (S fuel) (VSym name) env h = Ok (VNil, h)
  ∧ ∃ root, last ls = Some root
    ∧ ∀ expr v h1,
        Lisgo.eval fuel expr env h = Ok (v, h1) →
        ∃ fr1 h2,
          h1 !! root = Some fr1
          ∧ Lisgo.eval (S fuel) (VList [VSym "set!"; VSym name; expr]) env h
            = Ok (v, h2)
          ∧ h2 = <[root := Lisgo.mkEnv (<[name := v]> (Lisgo.inner fr1))
                                       (Lisgo.outer fr1)]> h1
          ∧ Scope.binding h2 root name = Some v.
Proof.
  intros Hch Hun.
  destruct (UnboundFacts.Find_unbound _ _ _ _ _ Hch Hun)
    as (root & fr & Hlast & Hroot & Hnone & _ & Hfind).
  split.
  - rewrite UnboundFacts.eval_symbol, Hfind. simpl.
    unfold Lisgo.deref. rewrite Hroot. simpl.
    by rewrite (UnboundFacts.map_get_None _ _ Hnone).
  - exists root. split; [done|]. intros expr v h1 Hev.
    destruct (LisgoFacts.eval_keeps_valid _ _ _ _ _ _ root Hev) as [fr1 Hfr1]; [eauto|].
    exists fr1, (<[root := Lisgo.mkEnv (<[name := v]> (Lisgo.inner fr1))
                                       (Lisgo.outer fr1)]> h1).
    split_and!; try done.
    + rewrite UnboundFacts.eval_set, Hfind. simpl. rewrite Hev. simpl.
      by apply UnboundFacts.assign_read.
    + unfold Scope.binding.
      rewrite list_lookup_insert_eq by by eapply lookup_lt_Some.
      simpl. by rewrite lookup_insert_eq.
Qed.

(** An instance: [z] in the initial environment. *)
Lemma C1_unbound_name_yields_nil_and_set_binds_in_root_witness :
  Scope.chain 1 Lisgo.globalStore Lisgo.globalEnv = Some [0%nat]
  ∧ Scope.unbound Lisgo.globalStore "z" [0%nat] = true
  ∧ Lisgo.eval 2 (VSym "z") Lisgo.globalEnv Lisgo.globalStore
    = Ok (VNil, Lisgo.globalStore).
Proof.
  split; [reflexivity|]. split; [reflexivity|].
  apply (C1_unbound_name_yields_nil_and_set_binds_in_root
           1 Lisgo.globalStore Lisgo.globalEnv [0%nat] "z"); reflexivity.
Defined.

(** C1 fails on the code: in the initial environment [z] is bound nowhere,
    yet neither ["z"] nor ["(set! z 1)"] fails; the latter returns 1 and
    leaves [z] bound to 1 in the global frame, where a later ["z"] finds
    it. *)
Lemma C1_counterexample :
  Scope.chain 1 Lisgo.globalStore Lisgo.globalEnv = Some [0%nat]
  ∧ Scope.unbound Lisgo.globalStore "z" [0%nat] = true
  ∧ Lisgo.run 2 "z" Lisgo.globalStore = Ok (VNil, Lisgo.globalStore)
  ∧ ¬ fails (Lisgo.run 2 "z" Lisgo.globalStore)
  ∧ value_of (Lisgo.run 2 "(set! z 1)" Lisgo.globalStore) = Ok (VInt 1)
  ∧ ¬ fails (Lisgo.run 2 "(set! z 1)" Lisgo.globalStore)
  ∧ value_of (Lisgo.repl 2 ["(set! z 1)"; "z"] Lisgo.globalStore)
    = Ok [VInt 1; VInt 1].
Proof.
  split_and!; try (vm_compute; reflexivity).
  - by eapply Ok_not_fails.
  - destruct (Lisgo.run 2 "(set! z 1)" Lisgo.globalStore) eqn:E;
      [by eapply Ok_not_fails|discriminate E..].
Qed.

(** ** The addition primitive *)

Lemma wrap_int_in_range z : int_min ≤ z ≤ int_max → wrap_int z = z.
Proof.
  unfold int_min, int_max, wrap_int, int_bits. intros Hz.
  rewrite Z.mod_small; lia.
Qed.

Lemma wrap_int_range z : int_min ≤ wrap_int z ≤ int_max.
Proof.
  unfold int_min, int_max, wrap_int, int_bits.
  pose proof (Z.mod_pos_bound (z + 2 ^ (64 - 1)) (2 ^ 64)). lia.
Qed.

Lemma prim_add_cases args :
  prim_add args =
    match args with
    | VInt n :: VInt m :: _ => Ok (VInt (wrap_int (n + m)))
    | _ :: _ :: _ => Panic (PanicMsg "+ needs numbers")
    | _ => Panic IndexOutOfRange
    end.
Proof.
  destruct args as [|a [|b rest]]; [done| |].
  - by destruct a.
  - by destruct a, b.
Qed.

(** C2 as the code has it: [+] looks at its first two arguments only.
    When both are integers it returns their sum in Go's [int] (the sum
    itself when that lies in the range of [int]) and ignores any further
    argument; when one of the two is no integer it panics with
    "+ needs numbers"; with fewer than two arguments the index into
    [args] panics.  ["(+ 1 2)"] yields 3 in both variants. *)
Theorem C2_add_looks_at_two_arguments :
  (∀ n m rest,
      call_prim PrimAdd (VInt n :: VInt m :: rest) = Ok (VInt (wrap_int (n + m))))
  ∧ (∀ n m rest, int_min ≤ n + m ≤ int_max →
      call_prim PrimAdd (VInt n :: VInt m :: rest) = Ok (VInt (n + m)))
  ∧ (∀ a b rest, is_int a && is_int b = false →
      call_prim PrimAdd (a :: b :: rest) = Panic (PanicMsg "+ needs numbers"))
  ∧ (∀ args, (length args < 2)%nat →
      call_prim PrimAdd args = Panic IndexOutOfRange)
  ∧ Lisgo.run 3 "(+ 1 2)" Lisgo.globalStore = Ok (VInt 3, Lisgo.globalStore)
  ∧ Calc.run 2 "(+ 1 2)" Calc.globalEnv = Ok (VInt 3, Calc.globalEnv).
Proof.
  split_and!.
  - intros n m rest. simpl. by rewrite prim_add_cases.
  - intros n m rest Hr. simpl. rewrite prim_add_cases.
    by rewrite wrap_int_in_range.
  - intros a b rest Hab. simpl. rewrite prim_add_cases.
    by destruct a, b.
  - intros args Hlen. simpl. rewrite prim_add_cases.
    destruct args as [|a [|b rest]]; simpl in Hlen; [done| |lia].
    by destruct a.
  - vm_compute. reflexivity.
  - vm_compute. reflexivity.
Qed.

(** Instances: two integers, a symbol and an integer, one argument. *)
Lemma C2_add_looks_at_two_arguments_witness :
  int_min ≤ 1 + 2 ≤ int_max
  ∧ call_prim PrimAdd [VInt 1; VInt 2] = Ok (VInt (1 + 2))
  ∧ is_int (VSym "a") && is_int (VInt 2) = false
  ∧ call_prim PrimAdd [VSym "a"; VInt 2] = Panic (PanicMsg "+ needs numbers")
  ∧ (length [VInt 1] < 2)%nat
  ∧ call_prim PrimAdd [VInt 1] = Panic IndexOutOfRange.
Proof.
  destruct C2_add_looks_at_two_arguments as (_ & Hsum & Htype & Hcount & _).
  assert (int_min ≤ 1 + 2 ≤ int_max) as Hr
    by (unfold int_min, int_max, int_bits; simpl; lia).
  split; [exact Hr|].
  split; [exact (Hsum 1 2 [] Hr)|].
  split; [reflexivity|].
  split; [exact (Htype (VSym "a") (VInt 2) [] eq_refl)|].
  split; [simpl; lia|].
  apply (Hcount [VInt 1]). simpl. lia.
Defined.

(** C2 fails on the code: three integer arguments are no failure; the
    third is ignored. *)
Lemma C2_counterexample :
  length [VInt 1; VInt 2; VInt 3] ≠ 2%nat
  ∧ call_prim PrimAdd [VInt 1; VInt 2; VInt 3] = Ok (VInt 3)
  ∧ ¬ fails (call_prim PrimAdd [VInt 1; VInt 2; VInt 3])
  ∧ Lisgo.run 3 "(+ 1 2 3)" Lisgo.globalStore = Ok (VInt 3, Lisgo.globalStore)
  ∧ ¬ fails (Lisgo.run 3 "(+ 1 2 3)" Lisgo.globalStore)
  ∧ Calc.run 2 "(+ 1 2 3)" Calc.globalEnv = Ok (VInt 3, Calc.globalEnv)
  ∧ ¬ fails (Calc.run 2 "(+ 1 2 3)" Calc.globalEnv).
Proof.
  split_and!; try (vm_compute; reflexivity); try (by eapply Ok_not_fails).
  simpl. lia.
Qed.

(** ** Calling a procedure *)

Module CallFacts.
Import Lisgo LisgoFacts.

(** The loop of [newEnv] when there are enough arguments: parameter
    number [j] is bound to argument number [i + j], the later of two
    equal parameters wins, other names are left as they are. *)
Lemma newEnv_loop_enough parms :
  ∀ i args m0,
    (length parms + i ≤ length args)%nat →
    ∃ m, newEnv_loop parms i args m0 = Ok m
         ∧ (∀ p, p ∉ parms → m !! p = m0 !! p)
         ∧ (∀ j p, parms !! j = Some p →
                   (∀ k, (j < k)%nat → parms !! k ≠ Some p) →
                   m !! p = args !! (i + j)%nat).
Proof.
  induction parms as [|p0 parms IH]; intros i args m0 Hlen.
  - exists m0. split_and!; [done|done|]. intros j p Hj. by destruct j.
  - simpl in *.
    destruct (index_lt args i) as (a & Ha & ->); [lia|]. simpl.
    destruct (IH (S i) args (<[p0 := a]> m0)) as (m & -> & Hout & Hin); [lia|].
    exists m. split_and!; [done| |].
    + intros p [Hne Hnot]%not_elem_of_cons.
      rewrite Hout by done. by rewrite lookup_insert_ne.
    + intros [|j] p Hj Hlast; simpl in Hj.
      * injection Hj as <-.
        rewrite Hout, lookup_insert_eq, Nat.add_0_r; [done|].
        intros (k & Hk)%list_elem_of_lookup_1.
        by apply (Hlast (S k)); [lia|].
      * rewrite (Hin j p Hj).
        -- f_equal. lia.
        -- intros k Hk. apply (Hlast (S k)). lia.
Qed.

(** With too few arguments the loop indexes [args] out of range. *)
Lemma newEnv_loop_short parms :
  ∀ i args m0,
    (i ≤ length args)%nat →
    (length args < length parms + i)%nat →
    newEnv_loop parms i args m0 = Panic IndexOutOfRange.
Proof.
  induction parms as [|p0 parms IH]; intros i args m0 Hi Hlen; simpl in *.
  - lia.
  - destruct (decide (i < length args)%nat) as [Hlt|Hge].
    + destruct (index_lt args i) as (a & _ & ->); [done|]. simpl.
      apply IH; lia.
    + rewrite index_ge by lia. done.
Qed.

Lemma newEnv_enough parms args out h :
  (length parms ≤ length args)%nat →
  ∃ m, newEnv parms args out h = Ok (length h, h ++ [mkEnv m (Some out)])
       ∧ (∀ p, p ∉ parms → m !! p = None)
       ∧ (∀ j p, parms !! j = Some p →
                 (∀ k, (j < k)%nat → parms !! k ≠ Some p) →
                 m !! p = args !! j).
Proof.
  intros Hlen. unfold newEnv, newEmptyEnv, deref.
  rewrite lookup_app_r, Nat.sub_diag by done. simpl.
  destruct (newEnv_loop_enough parms 0 args ∅) as (m & -> & Hout & Hin); [lia|].
  exists m. simpl. split_and!.
  - do 2 f_equal.
    rewrite <- (Nat.add_0_r (length h)), insert_app_r. done.
  - intros p Hp. by rewrite Hout.
  - done.
Qed.

Lemma newEnv_short parms args out h :
  (length args < length parms)%nat →
  newEnv parms args out h = Panic IndexOutOfRange.
Proof.
  intros Hlen. unfold newEnv, newEmptyEnv, deref.
  rewrite lookup_app_r, Nat.sub_diag by done. simpl.
  rewrite newEnv_loop_short by lia. done.
Qed.

End CallFacts.

(** C4 as the code has it: [Call] does not compare the two counts.  With
    fewer arguments than parameters the loop of [newEnv] indexes [args]
    out of range and the call panics.  With at least as many arguments a
    new frame is allocated, each parameter is bound to the argument at its
    position (the later of two equal parameters wins), arguments beyond
    the parameters are ignored, the outer link is the frame the procedure
    captured, no other frame changes, and the result is the evaluation of
    the body in the new frame. *)
Theorem C4_call_binds_parameters_positionally fuel parms body penv args h :
  ((length args < length parms)%nat →
     Lisgo.Call (Lisgo.eval fuel) parms body penv args h = Panic IndexOutOfRange)
  ∧ ((length parms ≤ length args)%nat →
     ∃ m,
       Lisgo.Call (Lisgo.eval fuel) parms body penv args h
       = Lisgo.eval fuel body (length h) (h ++ [Lisgo.mkEnv m (Some penv)])
       ∧ (∀ j p, parms !! j = Some p →
                 (∀ k, (j < k)%nat → parms !! k ≠ Some p) →
                 m !! p = args !! j)
       ∧ (∀ p, p ∉ parms → m !! p = None)).
Proof.
  split; intros Hlen; unfold Lisgo.Call.
  - by rewrite CallFacts.newEnv_short.
  - destruct (CallFacts.newEnv_enough parms args penv h Hlen) as (m & -> & Hout & Hin).
    exists m. done.
Qed.

(** Instances: one argument for two parameters, two arguments for one. *)
Lemma C4_call_binds_parameters_positionally_witness :
  (length [VInt 1] < length ["a"; "b"])%nat
  ∧ Lisgo.Call (Lisgo.eval 1) ["a"; "b"] (VSym "a") 0%nat [VInt 1] Lisgo.globalStore
    = Panic IndexOutOfRange
  ∧ (length ["a"] ≤ length [VInt 1; VInt 2])%nat
  ∧ ∃ m, Lisgo.Call (Lisgo.eval 1) ["a"] (VSym "a") 0%nat [VInt 1; VInt 2]
           Lisgo.globalStore
         = Lisgo.eval 1 (VSym "a") 1%nat
             (Lisgo.globalStore ++ [Lisgo.mkEnv m (Some 0%nat)])
         ∧ m !! "a" = Some (VInt 1).
Proof.
  assert (length [VInt 1] < length ["a"; "b"])%nat as Hlt by (simpl; lia).
  assert (length ["a"] ≤ length [VInt 1; VInt 2])%nat as Hle by (simpl; lia).
  split; [exact Hlt|]. split.
  { exact (proj1 (C4_call_binds_parameters_positionally
                    1 ["a"; "b"] (VSym "a") 0%nat [VInt 1] Lisgo.globalStore) Hlt). }
  split; [exact Hle|].
  destruct (proj2 (C4_call_binds_parameters_positionally
                     1 ["a"] (VSym "a") 0%nat [VInt 1; VInt 2] Lisgo.globalStore) Hle)
    as (m & Hcall & Hin & _).
  exists m. split; [exact Hcall|].
  apply (Hin 0%nat "a"); [reflexivity|].
  intros k Hk. destruct k as [|k]; [lia|]. simpl. discriminate.
Defined.

(** C4 fails on the code: a procedure of one parameter called with two
    arguments does not fail; the second argument is ignored. *)
Lemma C4_counterexample :
  length [VInt 1; VInt 2] ≠ length ["a"]
  ∧ value_of (Lisgo.Call (Lisgo.eval 2) ["a"] (VSym "a") Lisgo.globalEnv
                [VInt 1; VInt 2] Lisgo.globalStore) = Ok (VInt 1)
  ∧ ¬ fails (Lisgo.Call (Lisgo.eval 2) ["a"] (VSym "a") Lisgo.globalEnv
               [VInt 1; VInt 2] Lisgo.globalStore)
  ∧ value_of (Lisgo.run 4 "((lambda (a) a) 1 2)" Lisgo.globalStore) = Ok (VInt 1)
  ∧ ¬ fails (Lisgo.run 4 "((lambda (a) a) 1 2)" Lisgo.globalStore).
Proof.
  split_and!; try (vm_compute; reflexivity).
  - simpl. lia.
  - destruct (Lisgo.Call _ _ _ _ _ _) eqn:E;
      [by eapply Ok_not_fails|discriminate E..].
  - destruct (Lisgo.run _ _ _) eqn:E;
      [by eapply Ok_not_fails|discriminate E..].
Qed.

(** ** Applications *)

Lemma Lisgo_eval_application fuel l0 rest env h :
  special_head l0 = false →
  Lisgo.eval (S fuel) (VList (l0 :: rest)) env h
  = Lisgo.apply (Lisgo.eval fuel) (l0 :: rest) env h.
Proof.
  intros Hsp. simpl. unfold Lisgo.eval_body. simpl.
  destruct l0 as [| |s| | | |]; simpl; try done.
  simpl in Hsp. apply bool_decide_eq_false in Hsp.
  unfold Lisgo.special.
  repeat case_decide; try done; subst s; exfalso; apply Hsp; set_solver.
Qed.

(** In the full interpreter an application whose head evaluates to
    something that cannot be called evaluates the arguments and then
    yields [nil]. *)
Lemma Lisgo_not_callable_yields_nil fuel l0 rest env h car h1 args h2 :
  special_head l0 = false →
  Lisgo.eval fuel l0 env h = Ok (car, h1) →
  Lisgo.makeArgs (Lisgo.eval fuel) rest env h1 = Ok (args, h2) →
  callable car = false →
  Lisgo.eval (S fuel) (VList (l0 :: rest)) env h = Ok (VNil, h2).
Proof.
  intros Hsp Hcar Hargs Hnot. rewrite Lisgo_eval_application by done.
  unfold Lisgo.apply. simpl. rewrite Hcar. simpl. rewrite Hargs. simpl.
  by destruct car.
Qed.

(** An application whose head evaluates to a procedure is the call of that
    procedure on the evaluated arguments; one whose head evaluates to a
    primitive is the primitive applied to them. *)
Lemma Lisgo_eval_call fuel l0 rest env h parms body penv h1 args h2 :
  special_head l0 = false →
  Lisgo.eval fuel l0 env h = Ok (VProc parms body penv, h1) →
  Lisgo.makeArgs (Lisgo.eval fuel) rest env h1 = Ok (args, h2) →
  Lisgo.eval (S fuel) (VList (l0 :: rest)) env h
  = Lisgo.Call (Lisgo.eval fuel) parms body penv args h2.
Proof.
  intros Hsp Hcar Hargs. rewrite Lisgo_eval_application by done.
  unfold Lisgo.apply. simpl. rewrite Hcar. simpl. by rewrite Hargs.
Qed.

Lemma Lisgo_eval_prim fuel l0 rest env h f h1 args h2 :
  special_head l0 = false →
  Lisgo.eval fuel l0 env h = Ok (VPrim f, h1) →
  Lisgo.makeArgs (Lisgo.eval fuel) rest env h1 = Ok (args, h2) →
  Lisgo.eval (S fuel) (VList (l0 :: rest)) env h
  = (r ← call_prim f args; Ok (r, h2)).
Proof.
  intros Hsp Hcar Hargs. rewrite Lisgo_eval_application by done.
  unfold Lisgo.apply. simpl. rewrite Hcar. simpl. by rewrite Hargs.
Qed.

(** In the calculator a list whose head is a symbol outside the [switch]
    and bound to no function panics, before any argument is evaluated. *)
Lemma Calc_symbol_head_not_procedure fuel str rest env car env1 :
  str ∉ ["quote"; "if"; "define"] →
  Calc.eval fuel (VSym str) env = Ok (car, env1) →
  isPrim car = None →
  Calc.eval (S fuel) (VList (VSym str :: rest)) env
  = Panic (PanicMsg "not a procedure").
Proof.
  intros Hstr Hcar Hnot. simpl. unfold Calc.eval_body. simpl.
  unfold Calc.switch.
  repeat case_decide; try (subst str; exfalso; apply Hstr; set_solver).
  simpl. rewrite Hcar. simpl. by rewrite Hnot.
Qed.

(** In the calculator a list whose head is no symbol is not evaluated at
    all and yields [nil]. *)
Lemma Calc_head_not_symbol_yields_nil fuel l0 rest env :
  isSymbol l0 = None →
  Calc.eval (S fuel) (VList (l0 :: rest)) env = Ok (VNil, env).
Proof.
  intros Hl0. simpl. unfold Calc.eval_body. simpl. by rewrite Hl0.
Qed.

(** C8, what the code does: ["(1 2)"] and ["((quote (1 2)) 3)"], whose
    heads evaluate to an integer and to a list, yield [nil] and no failure
    in the full interpreter; the calculator yields [nil] for ["(1 2)"] too
    and panics with "not a procedure" only when the head is a symbol, as
    in ["(true 1)"], which the full interpreter again answers with
    [nil]. *)
Theorem C8_not_callable_yields_nil :
  Lisgo.run 2 "(1 2)" Lisgo.globalStore = Ok (VNil, Lisgo.globalStore)
  ∧ Lisgo.run 3 "((quote (1 2)) 3)" Lisgo.globalStore = Ok (VNil, Lisgo.globalStore)
  ∧ Lisgo.run 3 "(true 1)" Lisgo.globalStore = Ok (VNil, Lisgo.globalStore)
  ∧ Calc.run 2 "(1 2)" Calc.globalEnv = Ok (VNil, Calc.globalEnv)
  ∧ Calc.run 2 "(true 1)" Calc.globalEnv = Panic (PanicMsg "not a procedure").
Proof. split_and!; vm_compute; reflexivity. Qed.

(** ** Definitions *)

Lemma Lisgo_eval_define fuel name expr env h :
  Lisgo.eval (S fuel) (VList [VSym "define"; VSym name; expr]) env h =
    '(v, h1) ← Lisgo.eval fuel expr env h;
    h2 ← Lisgo.assign h1 env name v;
    fr ← Lisgo.deref h2 env;
    Ok (map_get (Lisgo.inner fr) name, h2).
Proof. reflexivity. Qed.

Lemma Calc_eval_define fuel name expr env :
  Calc.eval (S fuel) (VList [VSym "define"; VSym name; expr]) env =
    '(v, env1) ← Calc.eval fuel expr env;
    Ok (v, <[name := v]> env1).
Proof.
  simpl. unfold Calc.eval_body. simpl. unfold Calc.switch. simpl.
  destruct (Calc.eval fuel expr env) as [[v env1]| |]; simpl; [|done..].
  unfold map_get. by rewrite lookup_insert_eq.
Qed.

(** C9: [(define name expr)] evaluates [expr] and then writes [name] in
    the frame [eval] is running in, and in no other: the frame keeps its
    outer link and its other names, every other frame of the store is as
    the evaluation of [expr] left it, no frame is added, and the value is
    returned.  The calculator has one frame and writes there.  A [define]
    in the body of a procedure therefore writes the frame of the call: the
    global [a] below is still 10 after the call of [f]. *)
Theorem C9_define_writes_current_frame_only :
  (∀ fuel name expr env h v h1,
      is_Some (h !! env) →
      Lisgo.eval fuel expr env h = Ok (v, h1) →
      ∃ fr1 h2,
        h1 !! env = Some fr1
        ∧ Lisgo.eval (S fuel) (VList [VSym "define"; VSym name; expr]) env h
          = Ok (v, h2)
        ∧ h2 !! env = Some (Lisgo.mkEnv (<[name := v]> (Lisgo.inner fr1))
                                        (Lisgo.outer fr1))
        ∧ (∀ e, e ≠ env → h2 !! e = h1 !! e)
        ∧ length h2 = length h1)
  ∧ (∀ fuel name expr env v env1,
      Calc.eval fuel expr env = Ok (v, env1) →
      Calc.eval (S fuel) (VList [VSym "define"; VSym name; expr]) env
      = Ok (v, <[name := v]> env1))
  ∧ value_of (Lisgo.repl 5
                ["(define a 10)"; "(define f (lambda () (define a 5)))";
                 "(f)"; "a"] Lisgo.globalStore)
    = Ok [VInt 10; VProc [] (VList [VSym "define"; VSym "a"; VInt 5]) 0%nat;
          VInt 5; VInt 10].
Proof.
  split_and!.
  - intros fuel name expr env h v h1 Hvalid Hev.
    destruct (LisgoFacts.eval_keeps_valid _ _ _ _ _ _ env Hev Hvalid) as [fr1 Hfr1].
    exists fr1, (<[env := Lisgo.mkEnv (<[name := v]> (Lisgo.inner fr1))
                                      (Lisgo.outer fr1)]> h1).
    split_and!.
    + done.
    + rewrite Lisgo_eval_define, Hev. simpl.
      by apply UnboundFacts.assign_read.
    + apply list_lookup_insert_eq. by eapply lookup_lt_Some.
    + intros e Hne. by apply list_lookup_insert_ne.
    + apply length_insert.
  - intros fuel name expr env v env1 Hev.
    by rewrite Calc_eval_define, Hev.
  - vm_compute. reflexivity.
Qed.

(** An instance: [(define a 10)] in the initial environment of either
    variant. *)
Lemma C9_define_writes_current_frame_only_witness :
  is_Some (Lisgo.globalStore !! Lisgo.globalEnv)
  ∧ Lisgo.eval 1 (VInt 10) Lisgo.globalEnv Lisgo.globalStore
    = Ok (VInt 10, Lisgo.globalStore)
  ∧ (∃ fr1 h2,
        Lisgo.globalStore !! Lisgo.globalEnv = Some fr1
        ∧ Lisgo.eval 2 (VList [VSym "define"; VSym "a"; VInt 10])
            Lisgo.globalEnv Lisgo.globalStore = Ok (VInt 10, h2)
        ∧ h2 !! Lisgo.globalEnv
          = Some (Lisgo.mkEnv (<["a" := VInt 10]> (Lisgo.inner fr1))
                              (Lisgo.outer fr1))
        ∧ (∀ e, e ≠ Lisgo.globalEnv → h2 !! e = Lisgo.globalStore !! e)
        ∧ length h2 = length Lisgo.globalStore)
  ∧ Calc.eval 1 (VInt 10) Calc.globalEnv = Ok (VInt 10, Calc.globalEnv)
  ∧ Calc.eval 2 (VList [VSym "define"; VSym "a"; VInt 10]) Calc.globalEnv
    = Ok (VInt 10, <["a" := VInt 10]> Calc.globalEnv).
Proof.
  assert (is_Some (Lisgo.globalStore !! Lisgo.globalEnv)) as Hvalid
    by (eexists; reflexivity).
  destruct C9_define_writes_current_frame_only as (Hlisgo & Hcalc & _).
  split; [exact Hvalid|]. split; [reflexivity|]. split.
  { exact (Hlisgo 1%nat "a" (VInt 10) Lisgo.globalEnv Lisgo.globalStore
             (VInt 10) Lisgo.globalStore Hvalid eq_refl). }
  split; [reflexivity|].
  exact (Hcalc 1%nat "a" (VInt 10) Calc.globalEnv (VInt 10) Calc.globalEnv eq_refl).
Defined.

(** ** The initial environment and the session of the source's [t] *)

Lemma standardEnv_globalStore :
  Lisgo.standardEnv [] = Ok (Lisgo.globalEnv, Lisgo.globalStore).
Proof. reflexivity. Qed.

Example session_of_t :
  value_of (Lisgo.repl 6
    ["(quote (b))"; "(if false 1 2)"; "(if true 1 2)"; "(define a 10)"; "a";
     "(+ 1 2)"; "(set! a 20)"; "a"; "(define x2 (lambda (a) (+ a a)))";
     "(x2 100)"] Lisgo.globalStore)
  = Ok [VList [VSym "b"]; VInt 2; VInt 1; VInt 10; VInt 10; VInt 3; VInt 20;
        VInt 20; VProc ["a"] (VList [VSym "+"; VSym "a"; VSym "a"]) 0%nat;
        VInt 200].
Proof. vm_compute. reflexivity. Qed.

Example session_of_t_calc :
  value_of (Calc.repl 3
    ["(quote ())"; "(if false 1 2)"; "(if true 1 2)"; "(define a 10)"; "a";
     "(+ 1 2)"] Calc.globalEnv)
  = Ok [VList []; VInt 2; VInt 1; VInt 10; VInt 10; VInt 3].
Proof. vm_compute. reflexivity. Qed.

(** [set!] in the body of a procedure writes the frame that binds the
    name, here the global one; [define] (above) writes the frame of the
    call. *)
Example set_in_body_mutates_outer :
  value_of (Lisgo.repl 6
    ["(define a 10)"; "(define g (lambda () (set! a 5)))"; "(g)"; "a"]
    Lisgo.globalStore)
  = Ok [VInt 10; VProc [] (VList [VSym "set!"; VSym "a"; VInt 5]) 0%nat;
        VInt 5; VInt 5].
Proof. vm_compute. reflexivity. Qed.

(** * Further properties *)

(** ** The reader works on a prefix of the tokens *)

Section ReaderPrefix.
Import Reader.

(** What a successful read leaves is the end of its input, and the tokens
    before it read to the same value on their own. *)
Lemma read_prefix fuel :
  (∀ tokens v rest,
      readFromTokens_fuel fuel tokens = Ok (v, rest) →
      ∃ used, tokens = used ++ rest ∧ used ≠ []
              ∧ readFromTokens_fuel fuel used = Ok (v, [])) ∧
  (∀ l tokens v rest,
      readList fuel l tokens = Ok (v, rest) →
      ∃ used, tokens = used ++ rest ∧ used ≠ []
              ∧ readList fuel l used = Ok (v, [])).
Proof.
  induction fuel as [|fuel [IHr IHl]]; [split; intros; discriminate|].
  split.
  - intros tokens v rest. simpl.
    destruct tokens as [|token tokens]; [discriminate|]. simpl.
    repeat case_decide.
    + intros (used & -> & _ & Hused)%IHl.
      exists (token :: used). split_and!; [done|done|].
      simpl. case_decide; [|done]. done.
    + discriminate.
    + intros [= <- <-]. exists [token]. split_and!; [done|done|].
      simpl. repeat case_decide; done.
  - intros l tokens v rest. simpl.
    destruct tokens as [|t0 tokens]; [discriminate|]. simpl.
    case_decide as Ht0.
    + intros ([s ts] & Hs & Hl)%bind_Ok.
      apply IHr in Hs as (u1 & Hu1 & Hne1 & Hs).
      apply IHl in Hl as (u2 & -> & _ & Hl).
      exists (u1 ++ u2). split_and!.
      * by rewrite <- app_assoc, <- Hu1.
      * by destruct u1.
      * destruct u1 as [|t0' u1]; [done|]. injection Hu1 as <- _.
        simpl. case_decide; [|done].
        apply (proj1 (read_app fuel u2)) in Hs. simpl in Hs.
        rewrite Hs. simpl. done.
    + intros [= <- <-]. exists [t0]. split_and!; [done|done|].
      simpl. case_decide; done.
Qed.

Lemma readFromTokens_fuel_enough fuel tokens r :
  readFromTokens_fuel fuel tokens = r → r ≠ OutOfFuel →
  readFromTokens tokens = r.
Proof.
  intros Hr Hne.
  pose proof (readFromTokens_total tokens) as Htot.
  unfold readFromTokens in *.
  destruct (Nat.le_ge_cases fuel (2 * length tokens + 1)) as [Hle|Hge].
  - by apply (proj1 (read_fuel_mono fuel) _ _ _ Hr).
  - symmetry. rewrite <- Hr.
    by apply (proj1 (read_fuel_mono _) fuel tokens _ eq_refl).
Qed.

End ReaderPrefix.

(** X1: a successful read consumes a prefix of the tokens, at least one,
    and hands back the rest as it is; the value depends on the consumed
    tokens only: read alone they give the same value and nothing left,
    and followed by any other tokens they give the same value and those
    tokens. *)
Theorem X1_reader_consumes_a_prefix tokens v rest :
  Reader.readFromTokens tokens = Ok (v, rest) →
  ∃ used,
    tokens = used ++ rest
    ∧ used ≠ []
    ∧ Reader.readFromTokens used = Ok (v, [])
    ∧ ∀ other, Reader.readFromTokens (used ++ other) = Ok (v, other).
Proof.
  intros Hread. unfold Reader.readFromTokens in Hread.
  destruct (proj1 (read_prefix _) _ _ _ Hread) as (used & -> & Hne & Hused).
  exists used. split_and!; [done|done| |].
  - by eapply readFromTokens_fuel_enough.
  - intros other.
    apply (proj1 (read_app _ other)) in Hused. simpl in Hused.
    by eapply readFromTokens_fuel_enough.
Qed.

(** An instance: a list followed by a stray closing parenthesis. *)
Lemma X1_reader_consumes_a_prefix_witness :
  Reader.readFromTokens ["("; "a"; "1"; ")"; ")"; "b"]
  = Ok (VList [VSym "a"; VInt 1], [")"; "b"])
  ∧ ∃ used,
      ["("; "a"; "1"; ")"; ")"; "b"] = used ++ [")"; "b"]
      ∧ used ≠ []
      ∧ Reader.readFromTokens used = Ok (VList [VSym "a"; VInt 1], [])
      ∧ ∀ other, Reader.readFromTokens (used ++ other)
                 = Ok (VList [VSym "a"; VInt 1], other).
Proof.
  split; [reflexivity|].
  apply (X1_reader_consumes_a_prefix ["("; "a"; "1"; ")"; ")"; "b"]).
  reflexivity.
Defined.

(** ** What the reader builds *)

Module DataFacts.
Import Lexer Fmt Reader.

Lemma ParseInt_range s n : ParseInt s = Some n → in_int_range n = true.
Proof.
  unfold ParseInt. destruct s as [|c s]; [discriminate|].
  assert (∀ neg digits,
    (un ← ParseUint digits;
     if negb neg && (2 ^ 63 <=? un)%N then None
     else if neg && (2 ^ 63 <? un)%N then None
     else Some (if neg then - Z.of_N un else Z.of_N un)) = Some n →
    in_int_range n = true) as Hcase.
  { intros neg digits H. destruct (ParseUint digits) as [un|]; [|discriminate].
    simpl in H. unfold in_int_range, int_min, int_max, int_bits.
    change (2 ^ (64 - 1)) with 9223372036854775808.
    change (2 ^ 63)%N with 9223372036854775808%N in H.
    destruct neg; simpl in H.
    - destruct (N.ltb_spec 9223372036854775808 un); [discriminate|].
      injection H as <-. apply andb_true_iff. split; apply Z.leb_le; lia.
    - destruct (N.leb_spec 9223372036854775808 un); [discriminate|].
      injection H as <-. apply andb_true_iff. split; apply Z.leb_le; lia. }
  destruct (code c =? 43)%N; [apply Hcase|].
  destruct (code c =? 45)%N; apply Hcase.
Qed.

Lemma atom_data_ok token : data_ok (atom token) = true.
Proof.
  unfold atom, Sscan. destruct (scanInt_token token) as [tok|]; [|done].
  simpl. destruct (ParseInt tok) as [n|] eqn:Hn; [|done].
  simpl. by eapply ParseInt_range.
Qed.

Lemma forallb_snoc {A : Type} (f : A → bool) l a :
  forallb f (l ++ [a]) = forallb f l && f a.
Proof. rewrite forallb_app. simpl. by rewrite andb_true_r. Qed.

Lemma read_data_ok fuel :
  (∀ tokens v rest,
      readFromTokens_fuel fuel tokens = Ok (v, rest) → data_ok v = true) ∧
  (∀ l tokens v rest,
      forallb data_ok l = true →
      readList fuel l tokens = Ok (v, rest) → data_ok v = true).
Proof.
  induction fuel as [|fuel [IHr IHl]]; [split; intros; discriminate|].
  split.
  - intros tokens v rest. simpl.
    destruct tokens as [|token tokens]; [discriminate|]. simpl.
    repeat case_decide.
    + by apply IHl.
    + discriminate.
    + intros [= <- <-]. apply atom_data_ok.
  - intros l tokens v rest Hl. simpl.
    destruct tokens as [|t0 tokens]; [discriminate|]. simpl.
    case_decide.
    + intros ([s ts] & Hs & Hrest)%bind_Ok.
      apply IHr in Hs. eapply IHl; [|exact Hrest].
      by rewrite forallb_snoc, Hl, Hs.
    + by intros [= <- <-].
Qed.

Lemma parse_data_ok program v : parse program = Ok v → data_ok v = true.
Proof.
  unfold parse. intros ([v' rest] & Hread & [= <-])%bind_Ok.
  exact (proj1 (read_data_ok _) _ _ _ Hread).
Qed.

End DataFacts.

(** X2: whatever the reader returns is built from integers in the range
    of [int], symbols and lists of these; it never yields [nil], a
    Boolean, a primitive or a procedure.  In particular ["true"] and
    ["false"] read as symbols. *)
Theorem X2_reader_yields_data :
  (∀ tokens v rest,
      Reader.readFromTokens tokens = Ok (v, rest) → data_ok v = true)
  ∧ (∀ program v, Reader.parse program = Ok v → data_ok v = true)
  ∧ (∀ token n, Reader.atom token = VInt n → int_min ≤ n ≤ int_max).
Proof.
  split_and!.
  - intros tokens v rest. apply (proj1 (DataFacts.read_data_ok _)).
  - apply DataFacts.parse_data_ok.
  - intros token n Hn.
    pose proof (DataFacts.atom_data_ok token) as Hok. rewrite Hn in Hok.
    simpl in Hok. unfold in_int_range in Hok.
    apply andb_true_iff in Hok as [H1%Z.leb_le H2%Z.leb_le]. done.
Qed.

(** An instance: a nested list with a number too large for [int], which
    reads as a symbol. *)
Lemma X2_reader_yields_data_witness :
  Reader.parse "(define big (99999999999999999999 true))"
  = Ok (VList [VSym "define"; VSym "big";
               VList [VSym "99999999999999999999"; VSym "true"]])
  ∧ data_ok (VList [VSym "define"; VSym "big";
                    VList [VSym "99999999999999999999"; VSym "true"]]) = true.
Proof.
  assert (Reader.parse "(define big (99999999999999999999 true))"
          = Ok (VList [VSym "define"; VSym "big";
                       VList [VSym "99999999999999999999"; VSym "true"]]))
    as Hparse by (vm_compute; reflexivity).
  split; [exact Hparse|].
  exact (proj1 (proj2 X2_reader_yields_data) _ _ Hparse).
Defined.

(** ** The shape of the tokens *)

Module TokenFacts.
Import Lexer LexerFacts.

Lemma Replace1_app a b old new :
  Replace1 (a +:+ b) old new = Replace1 a old new +:+ Replace1 b old new.
Proof.
  induction a as [|c a IH]; [done|].
  rewrite append_cons. simpl. rewrite IH.
  destruct (Ascii.eqb c old); [by rewrite append_assoc|done].
Qed.

(** The two replacements of [tokenize], byte by byte. *)
Definition spaced (chars : string) : string :=
  Replace1 (Replace1 chars "(" " ( ") ")" " ) ".

Lemma spaced_cons c cs :
  spaced (String c cs) =
    (if Ascii.eqb c "(" then " ( "
     else if Ascii.eqb c ")" then " ) " else String c "") +:+ spaced cs.
Proof.
  unfold spaced. simpl.
  destruct (Ascii.eqb_spec c "(") as [->|Hopen].
  - by rewrite Replace1_app.
  - simpl. by destruct (Ascii.eqb c ")").
Qed.

Lemma is_paren_spec c :
  is_paren c = true ↔ c = "("%char ∨ c = ")"%char.
Proof.
  unfold is_paren, code. rewrite orb_true_iff, !N.eqb_eq. split.
  - intros [H|H]; [left|right]; apply (f_equal ascii_of_N) in H;
      by rewrite ascii_N_embedding in H.
  - by intros [->| ->]; [left|right].
Qed.

Lemma isolated_spaced cs : ∀ prev, isolated prev (spaced cs) = true.
Proof.
  induction cs as [|c cs IH]; intros prev; [done|].
  rewrite spaced_cons.
  destruct (Ascii.eqb_spec c "(") as [->|Hopen]; [by simpl; rewrite IH|].
  destruct (Ascii.eqb_spec c ")") as [->|Hclose]; [by simpl; rewrite IH|].
  rewrite append_cons, append_nil_l. simpl.
  destruct (is_paren c) eqn:Hp; [|apply IH].
  apply is_paren_spec in Hp as [->| ->]; done.
Qed.

Lemma isolated_mono prev s : isolated prev s = true → isolated true s = true.
Proof.
  destruct s as [|c s]; [done|]. simpl.
  destruct (is_paren c); [|done].
  intros [[_ H1]%andb_prop H2]%andb_prop. by rewrite H1, H2.
Qed.

Lemma isolated_suffix p s prev :
  isolated prev (p +:+ s) = true → isolated true s = true.
Proof.
  revert prev. induction p as [|c p IH]; intros prev.
  - rewrite append_nil_l. apply isolated_mono.
  - rewrite append_cons. simpl. destruct (is_paren c).
    + intros [_ H]%andb_prop. by eapply IH.
    + apply IH.
Qed.

Lemma next_ok_prefix s q : next_ok (s +:+ q) = true → next_ok s = true.
Proof. by destruct s. Qed.

Lemma isolated_prefix s q prev :
  isolated prev (s +:+ q) = true → isolated prev s = true.
Proof.
  revert prev. induction s as [|c s IH]; intros prev; [done|].
  rewrite append_cons. simpl. destruct (is_paren c).
  - intros [[H0 H1%next_ok_prefix]%andb_prop H2%IH]%andb_prop.
    by rewrite H0, H1, H2.
  - apply IH.
Qed.

(** A trimmed text is a piece out of the middle of the text. *)
Lemma TrimSpace_infix s : ∃ p q, s = p +:+ TrimSpace s +:+ q.
Proof.
  unfold TrimSpace.
  destruct (trim_head_suffix space_head s 0) as [p Hp].
  destruct (trim_head_suffix space_last
              (String.rev (trim_head space_head 0 s)) 0) as [p' Hp'].
  exists p, (String.rev p').
  rewrite <- rev_append, <- Hp', rev_involutive. done.
Qed.

Lemma has_char_app p s1 s2 :
  has_char p (s1 +:+ s2) = has_char p s1 || has_char p s2.
Proof.
  induction s1 as [|c s1 IH]; [done|].
  rewrite append_cons. simpl. by rewrite IH, orb_assoc.
Qed.

Lemma has_char_rev p s : has_char p (String.rev s) = has_char p s.
Proof.
  induction s as [|c s IH]; [done|].
  rewrite rev_cons, has_char_app, IH. simpl.
  rewrite orb_false_r. apply orb_comm.
Qed.

Lemma paren_not_space c : is_paren c = true → re_space c = false.
Proof. by intros [->| ->]%is_paren_spec. Qed.

(** The piece in progress [cur] (reversed) is free of white space, and it
    is free of parentheses or a parenthesis alone that ends here. *)
Definition piece_ok (cur s : string) : Prop :=
  has_char re_space cur = false
  ∧ (has_char is_paren cur = false
     ∨ ((cur = "(" ∨ cur = ")") ∧ next_ok s = true)).

Lemma piece_ok_token cur s : piece_ok cur s → token_ok (String.rev cur) = true.
Proof.
  intros [Hsp Hpar]. unfold token_ok. rewrite !has_char_rev, Hsp. simpl.
  destruct Hpar as [->|[[->| ->] _]]; [|done..].
  by rewrite orb_true_r.
Qed.

Lemma is_empty_cons c cur : bool_decide (String c cur = "") = false.
Proof. by apply bool_decide_eq_false. Qed.

Lemma split_go_tokens s :
  ∀ in_match cur,
    isolated (bool_decide (cur = "")) s = true →
    piece_ok cur s →
    Forall (λ t, token_ok t = true) (split_go in_match cur s).
Proof.
  induction s as [|c s IH]; intros in_match cur Hiso Hcur.
  - simpl. constructor; [|constructor]. by eapply piece_ok_token.
  - simpl. destruct (re_space c) eqn:Hc.
    + assert (is_paren c = false) as Hnp.
      { destruct (is_paren c) eqn:Hp; [|done].
        apply paren_not_space in Hp. congruence. }
      simpl in Hiso. rewrite Hnp, Hc in Hiso.
      assert (Forall (λ t, token_ok t = true) (split_go true "" s)) as Hrest.
      { apply IH; [done|]. split; [done|by left]. }
      destruct in_match; [done|].
      constructor; [|done]. by eapply piece_ok_token.
    + destruct Hcur as [Hsp Hpar].
      destruct Hpar as [Hpar|[_ Hnext]]; [|simpl in Hnext; congruence].
      simpl in Hiso. apply IH.
      * rewrite is_empty_cons. destruct (is_paren c); [|by rewrite Hc in Hiso].
        by apply andb_prop in Hiso as [_ ?].
      * split; [by simpl; rewrite Hc, Hsp|].
        destruct (is_paren c) eqn:Hp.
        -- right. apply andb_prop in Hiso as [[Hprev Hnext]%andb_prop _].
           apply bool_decide_eq_true in Hprev as ->.
           split; [|done]. by apply is_paren_spec in Hp as [->| ->]; [left|right].
        -- left. simpl. by rewrite Hp, Hpar.
Qed.

Lemma tokenize_tokens chars : Forall (λ t, token_ok t = true) (tokenize chars).
Proof.
  unfold tokenize. fold (spaced chars).
  destruct (TrimSpace_infix (spaced chars)) as (p & q & Hpq).
  pose proof (isolated_spaced chars true) as Hiso.
  rewrite Hpq in Hiso.
  apply isolated_suffix, isolated_prefix in Hiso.
  unfold Split. destruct (TrimSpace (spaced chars)) as [|c t] eqn:Ht.
  { by repeat constructor. }
  apply split_go_tokens; [done|]. split; [done|by left].
Qed.

End TokenFacts.

(** X3: no token of the lexer contains white space (a byte of [\s]), and
    a parenthesis occurs in a token only as the whole token: every token
    is ["("], [")"] or free of parentheses. *)
Theorem X3_tokens_are_well_formed chars t :
  t ∈ Lexer.tokenize chars →
  has_char Lexer.re_space t = false
  ∧ (t = "(" ∨ t = ")" ∨ has_char is_paren t = false).
Proof.
  intros Ht.
  pose proof (TokenFacts.tokenize_tokens chars) as Hall.
  rewrite Forall_forall in Hall. apply Hall in Ht.
  unfold token_ok in Ht.
  apply andb_prop in Ht as [Hsp%negb_true_iff Hpar]. split; [done|].
  apply orb_prop in Hpar as [Hpar|Hpar%negb_true_iff]; [|by right; right].
  apply orb_prop in Hpar as [Hpar%bool_decide_eq_true|Hpar%bool_decide_eq_true];
    auto.
Qed.

(** An instance: the token [ab] of a text without any space. *)
Lemma X3_tokens_are_well_formed_witness :
  "ab" ∈ Lexer.tokenize "(f(ab)c)"
  ∧ has_char Lexer.re_space "ab" = false
  ∧ ("ab" = "(" ∨ "ab" = ")" ∨ has_char is_paren "ab" = false).
Proof.
  assert ("ab" ∈ Lexer.tokenize "(f(ab)c)") as Hin.
  { apply list_elem_of_lookup. exists 3%nat. reflexivity. }
  split; [exact Hin|].
  exact (X3_tokens_are_well_formed "(f(ab)c)" "ab" Hin).
Defined.

(** ** Lookup along the chain *)

Module BindingFacts.
Import Lisgo Scope Binding LisgoFacts.

Lemma chain_not_nil fuel h env ls : chain fuel h env = Some ls → ls ≠ [].
Proof.
  destruct fuel as [|fuel]; [discriminate|]. simpl.
  destruct (h !! env) as [fr|]; [|discriminate]. simpl.
  destruct (outer fr); [|by intros [= <-]].
  destruct (chain fuel h n); [|discriminate]. by intros [= <-].
Qed.

(** [Find] returns the owner of the name. *)
Lemma Find_owner h name fuel :
  ∀ env ls,
    chain fuel h env = Some ls →
    ∃ e, owner h name ls = Some e ∧ Find fuel h env name = Ok e
         ∧ is_Some (h !! e).
Proof.
  induction fuel as [|fuel IH]; intros env ls Hch; [discriminate|].
  simpl in Hch. destruct (h !! env) as [fr|] eqn:Hfr; [|discriminate].
  simpl in Hch. unfold owner. simpl Find. unfold deref. rewrite Hfr. simpl.
  destruct (outer fr) as [out|] eqn:Hout.
  - destruct (chain fuel h out) as [ls'|] eqn:Hch'; [|discriminate].
    injection Hch as <-. simpl. unfold holds at 1. rewrite Hfr.
    destruct (not_nil _); [by exists env; eauto|].
    destruct (IH _ _ Hch') as (e & Hown & Hfind & Hval).
    exists e. split_and!; [|done..].
    unfold owner in Hown. destruct (List.find _ ls'); [done|].
    apply chain_not_nil in Hch'. by destruct ls'.
  - injection Hch as <-. simpl. unfold holds. rewrite Hfr.
    destruct (not_nil _); exists env; eauto.
Qed.

Lemma eval_symbol_owner h name fuel env ls e :
  chain fuel h env = Some ls → owner h name ls = Some e →
  eval (S fuel) (VSym name) env h = Ok (value_in h e name, h).
Proof.
  intros Hch Hown.
  destruct (Find_owner h name fuel env ls Hch) as (e' & Hown' & Hfind & [fr Hfr]).
  assert (e' = e) as -> by congruence.
  rewrite UnboundFacts.eval_symbol, Hfind. simpl.
  unfold deref, value_in. by rewrite Hfr.
Qed.

(** Frames beyond the store of [h] do not matter to a chain of [h]. *)
Lemma Find_app h h' name fuel :
  ∀ env ls, chain fuel h env = Some ls →
    Find fuel (h ++ h') env name = Find fuel h env name.
Proof.
  induction fuel as [|fuel IH]; intros env ls Hch; [done|].
  simpl in *. unfold deref.
  destruct (h !! env) as [fr|] eqn:Hfr; [|discriminate].
  rewrite (lookup_app_l_Some _ _ _ _ Hfr). simpl in *.
  destruct (not_nil _); [done|].
  destruct (outer fr) as [out|]; [|done].
  destruct (chain fuel h out) as [ls'|] eqn:Hch'; [|discriminate].
  by eapply IH.
Qed.

Lemma Find_here h env fr name fuel :
  h !! env = Some fr → not_nil (map_get (inner fr) name) = true →
  Find (S fuel) h env name = Ok env.
Proof. intros Hfr Hnn. simpl. unfold deref. rewrite Hfr. simpl. by rewrite Hnn. Qed.

Lemma eval_symbol_here h env fr name fuel :
  h !! env = Some fr → not_nil (map_get (inner fr) name) = true →
  eval (S (S fuel)) (VSym name) env h = Ok (map_get (inner fr) name, h).
Proof.
  intros Hfr Hnn. rewrite UnboundFacts.eval_symbol.
  rewrite (Find_here _ _ _ _ _ Hfr Hnn). simpl. unfold deref. by rewrite Hfr.
Qed.

End BindingFacts.

(** X4: a variable reference finds the innermost frame of the chain that
    holds a value other than [nil] for the name and yields that value;
    when no frame does, it ends in the root frame and yields [nil].  A
    frame that has the name bound to [nil] is passed over like a frame
    without the name.  The store is left as it is. *)
Theorem X4_lookup_finds_innermost_holder fuel h env ls name :
  Scope.chain fuel h env = Some ls →
  ∃ e,
    Lisgo.Find fuel h env name = Ok e
    ∧ Lisgo.eval (S fuel) (VSym name) env h = Ok (Binding.value_in h e name, h)
    ∧ match List.find (Binding.holds h name) ls with
      | Some e' => e = e' ∧ Binding.value_in h e name ≠ VNil
      | None => last ls = Some e ∧ Binding.value_in h e name = VNil
      end.
Proof.
  intros Hch.
  destruct (BindingFacts.Find_owner h name fuel env ls Hch)
    as (e & Hown & Hfind & Hval).
  exists e. split; [done|]. split.
  { by eapply BindingFacts.eval_symbol_owner. }
  unfold Binding.owner in Hown.
  destruct (List.find _ ls) as [e'|] eqn:Hf.
  - injection Hown as <-. split; [done|].
    apply find_some in Hf as [_ Hholds].
    unfold Binding.holds, Binding.value_in in *.
    destruct (h !! e'); [|done]. by destruct (map_get _ _).
  - split; [done|].
    assert (e ∈ ls) as Hin%list_elem_of_In.
    { destruct ls as [|a ls] using rev_ind; [done|].
      rewrite last_snoc in Hown. injection Hown as <-. set_solver. }
    pose proof (find_none _ _ Hf _ Hin) as Hno.
    unfold Binding.holds, Binding.value_in in *.
    destruct (h !! e); [|done]. by destruct (map_get _ _).
Qed.

(** An instance: [a] is found in the innermost frame, [true] two frames
    further out. *)
Lemma X4_lookup_finds_innermost_holder_witness :
  Scope.chain 3 Binding.sample_store 2%nat = Some [2%nat; 1%nat; 0%nat]
  ∧ Lisgo.eval 4 (VSym "a") 2%nat Binding.sample_store
    = Ok (VInt 5, Binding.sample_store)
  ∧ Lisgo.eval 4 (VSym "true") 2%nat Binding.sample_store
    = Ok (VBool true, Binding.sample_store).
Proof.
  assert (Scope.chain 3 Binding.sample_store 2%nat = Some [2%nat; 1%nat; 0%nat])
    as Hch by reflexivity.
  split; [exact Hch|]. split.
  - destruct (X4_lookup_finds_innermost_holder 3 _ 2%nat _ "a" Hch)
      as (e & _ & Hev & He).
    simpl in He. destruct He as [-> _]. exact Hev.
  - destruct (X4_lookup_finds_innermost_holder 3 _ 2%nat _ "true" Hch)
      as (e & _ & Hev & He).
    simpl in He. destruct He as [-> _]. exact Hev.
Defined.

(** ** Assignment to a bound name *)

(** X5: [(set! name expr)] on a name that some frame of the chain holds
    evaluates [expr] and then writes the value into the innermost frame
    that held the name before [expr] was evaluated: that frame keeps its
    outer link and its other names, every other frame is as the
    evaluation of [expr] left it, and the value is returned. *)
Theorem X5_set_writes_innermost_holder fuel h env ls name e expr v h1 :
  Scope.chain fuel h env = Some ls →
  List.find (Binding.holds h name) ls = Some e →
  Lisgo.eval fuel expr env h = Ok (v, h1) →
  ∃ fr1 h2,
    h1 !! e = Some fr1
    ∧ Lisgo.eval (S fuel) (VList [VSym "set!"; VSym name; expr]) env h
      = Ok (v, h2)
    ∧ h2 !! e = Some (Lisgo.mkEnv (<[name := v]> (Lisgo.inner fr1))
                                  (Lisgo.outer fr1))
    ∧ (∀ e', e' ≠ e → h2 !! e' = h1 !! e')
    ∧ length h2 = length h1.
Proof.
  intros Hch Hfind Hev.
  destruct (BindingFacts.Find_owner h name fuel env ls Hch)
    as (e' & Hown & HFind & Hval).
  unfold Binding.owner in Hown. rewrite Hfind in Hown. injection Hown as <-.
  destruct (LisgoFacts.eval_keeps_valid _ _ _ _ _ _ e Hev Hval) as [fr1 Hfr1].
  exists fr1, (<[e := Lisgo.mkEnv (<[name := v]> (Lisgo.inner fr1))
                                  (Lisgo.outer fr1)]> h1).
  split_and!.
  - done.
  - rewrite UnboundFacts.eval_set, HFind. simpl. rewrite Hev. simpl.
    by apply UnboundFacts.assign_read.
  - apply list_lookup_insert_eq. by eapply lookup_lt_Some.
  - intros e' Hne. by apply list_lookup_insert_ne.
  - apply length_insert.
Qed.

(** An instance: [(set! true 7)] from the innermost frame of the sample
    store writes the global frame. *)
Lemma X5_set_writes_innermost_holder_witness :
  Scope.chain 3 Binding.sample_store 2%nat = Some [2%nat; 1%nat; 0%nat]
  ∧ List.find (Binding.holds Binding.sample_store "true") [2%nat; 1%nat; 0%nat]
    = Some 0%nat
  ∧ Lisgo.eval 3 (VInt 7) 2%nat Binding.sample_store
    = Ok (VInt 7, Binding.sample_store)
  ∧ ∃ fr1 h2,
      Binding.sample_store !! 0%nat = Some fr1
      ∧ Lisgo.eval 4 (VList [VSym "set!"; VSym "true"; VInt 7]) 2%nat
          Binding.sample_store = Ok (VInt 7, h2)
      ∧ h2 !! 0%nat = Some (Lisgo.mkEnv (<["true" := VInt 7]> (Lisgo.inner fr1))
                                        (Lisgo.outer fr1))
      ∧ (∀ e', e' ≠ 0%nat → h2 !! e' = Binding.sample_store !! e')
      ∧ length h2 = length Binding.sample_store.
Proof.
  split; [reflexivity|]. split; [reflexivity|]. split; [reflexivity|].
  apply (X5_set_writes_innermost_holder 3 Binding.sample_store 2%nat
           [2%nat; 1%nat; 0%nat] "true" 0%nat (VInt 7) (VInt 7)
           Binding.sample_store); reflexivity.
Defined.

(** ** A definition is seen by the lookup that follows *)

(** X6: after [(define name expr)] with a value other than [nil], a
    reference to [name] in the same frame yields that value, whatever the
    outer frames bind.  (A value [nil] is stored too, but the lookup
    passes over it.) *)
Theorem X6_define_then_lookup fuel fuel' name expr env h v h1 :
  is_Some (h !! env) →
  Lisgo.eval fuel expr env h = Ok (v, h1) →
  v ≠ VNil →
  ∃ h2,
    Lisgo.eval (S fuel) (VList [VSym "define"; VSym name; expr]) env h
    = Ok (v, h2)
    ∧ Lisgo.eval (S (S fuel')) (VSym name) env h2 = Ok (v, h2).
Proof.
  intros Hvalid Hev Hnil.
  destruct (LisgoFacts.eval_keeps_valid _ _ _ _ _ _ env Hev Hvalid) as [fr1 Hfr1].
  exists (<[env := Lisgo.mkEnv (<[name := v]> (Lisgo.inner fr1))
                               (Lisgo.outer fr1)]> h1).
  split.
  - rewrite Lisgo_eval_define, Hev. simpl. by apply UnboundFacts.assign_read.
  - assert (not_nil v = true) as Hnn by by destruct v.
    assert (map_get (<[name := v]> (Lisgo.inner fr1)) name = v) as Hget.
    { unfold map_get. by rewrite lookup_insert_eq. }
    rewrite (BindingFacts.eval_symbol_here _ env
               (Lisgo.mkEnv (<[name := v]> (Lisgo.inner fr1)) (Lisgo.outer fr1))).
    + cbn [Lisgo.inner]. by rewrite Hget.
    + apply list_lookup_insert_eq. by eapply lookup_lt_Some.
    + cbn [Lisgo.inner]. by rewrite Hget.
Qed.

(** An instance: [(define true 0)] in the innermost frame of the sample
    store hides the global [true] there. *)
Lemma X6_define_then_lookup_witness :
  is_Some (Binding.sample_store !! 2%nat)
  ∧ Lisgo.eval 1 (VInt 0) 2%nat Binding.sample_store
    = Ok (VInt 0, Binding.sample_store)
  ∧ VInt 0 ≠ VNil
  ∧ ∃ h2,
      Lisgo.eval 2 (VList [VSym "define"; VSym "true"; VInt 0]) 2%nat
        Binding.sample_store = Ok (VInt 0, h2)
      ∧ Lisgo.eval 2 (VSym "true") 2%nat h2 = Ok (VInt 0, h2).
Proof.
  assert (is_Some (Binding.sample_store !! 2%nat)) as Hvalid
    by (eexists; reflexivity).
  assert (VInt 0 ≠ VNil) as Hnil by discriminate.
  split; [exact Hvalid|]. split; [reflexivity|]. split; [exact Hnil|].
  exact (X6_define_then_lookup 1 0 "true" (VInt 0) 2%nat Binding.sample_store
           (VInt 0) Binding.sample_store Hvalid eq_refl Hnil).
Defined.

(** A name defined as [nil] in the frame of a call does not hide the
    outer binding: [a] is 10 inside [f]. *)
Example define_nil_does_not_shadow :
  value_of (Lisgo.repl 6
    ["(define a 10)";
     "(define f (lambda () (if (define a nothing) a 0)))"; "(f)"]
    Lisgo.globalStore)
  = Ok [VInt 10;
        VProc [] (VList [VSym "if";
                         VList [VSym "define"; VSym "a"; VSym "nothing"];
                         VSym "a"; VInt 0]) 0%nat;
        VInt 10].
Proof. vm_compute. reflexivity. Qed.

(** ** A procedure reads its free variables when it is called *)

(** X7: a procedure whose body is a variable that is none of its
    parameters yields, when called with enough arguments, the value that
    the chain of its captured frame holds for that variable in the store
    of the call, not the one it held when the procedure was made: the
    frame is captured by reference. *)
Theorem X7_procedure_reads_current_value fuel h parms args penv ls x e :
  (length parms ≤ length args)%nat →
  x ∉ parms →
  Scope.chain fuel h penv = Some ls →
  List.find (Binding.holds h x) ls = Some e →
  ∃ m,
    Lisgo.Call (Lisgo.eval (S (S fuel))) parms (VSym x) penv args h
    = Ok (Binding.value_in h e x, h ++ [Lisgo.mkEnv m (Some penv)]).
Proof.
  intros Hlen Hx Hch Hfind.
  destruct (CallFacts.newEnv_enough parms args penv h Hlen) as (m & Hnew & Hout & _).
  exists m. unfold Lisgo.Call. rewrite Hnew. cbn [mbind result_bind].
  destruct (BindingFacts.Find_owner h x fuel penv ls Hch)
    as (e' & Hown & HFind & [fr Hfr]).
  unfold Binding.owner in Hown. rewrite Hfind in Hown. injection Hown as <-.
  rewrite UnboundFacts.eval_symbol.
  assert (Lisgo.Find (S fuel) (h ++ [Lisgo.mkEnv m (Some penv)]) (length h) x
          = Ok e) as ->.
  { simpl. unfold Lisgo.deref.
    rewrite lookup_app_r, Nat.sub_diag by done. simpl.
    unfold map_get. rewrite (Hout x Hx). simpl.
    by rewrite (BindingFacts.Find_app _ _ _ _ _ _ Hch). }
  simpl. unfold Lisgo.deref, Binding.value_in.
  by rewrite (lookup_app_l_Some _ _ _ _ Hfr), Hfr.
Qed.

(** An instance: a procedure with body [a] that captured frame 1 of the
    sample store. *)
Lemma X7_procedure_reads_current_value_witness :
  (length ["b"] ≤ length [VInt 1])%nat
  ∧ ("a" ∉ ["b"])
  ∧ Scope.chain 2 Binding.sample_store 1%nat = Some [1%nat; 0%nat]
  ∧ List.find (Binding.holds Binding.sample_store "a") [1%nat; 0%nat] = Some 1%nat
  ∧ ∃ m,
      Lisgo.Call (Lisgo.eval 4) ["b"] (VSym "a") 1%nat [VInt 1]
        Binding.sample_store
      = Ok (VInt 10, Binding.sample_store ++ [Lisgo.mkEnv m (Some 1%nat)]).
Proof.
  assert (length ["b"] ≤ length [VInt 1])%nat as Hlen by (simpl; lia).
  assert ("a" ∉ ["b"]) as Hx.
  { intros H%list_elem_of_singleton. discriminate H. }
  split; [exact Hlen|]. split; [exact Hx|].
  split; [reflexivity|]. split; [reflexivity|].
  exact (X7_procedure_reads_current_value 2 Binding.sample_store ["b"]
           [VInt 1] 1%nat [1%nat; 0%nat] "a" 1%nat Hlen Hx eq_refl eq_refl).
Defined.

(** The same procedure yields 10, then 20 after the global [a] was set. *)
Example procedure_sees_later_assignment :
  value_of (Lisgo.repl 6
    ["(define a 10)"; "(define get (lambda () a))"; "(get)"; "(set! a 20)";
     "(get)"] Lisgo.globalStore)
  = Ok [VInt 10; VProc [] (VSym "a") 0%nat; VInt 10; VInt 20; VInt 20].
Proof. vm_compute. reflexivity. Qed.

(** ** Frames are kept *)

Module ExtendFacts.
Import Lisgo Binding LisgoFacts.

Lemma extends_refl h : extends h h.
Proof. intros e fr Hfr. exists fr. eauto. Qed.

Lemma extends_trans h1 h2 h3 : extends h1 h2 → extends h2 h3 → extends h1 h3.
Proof.
  intros H12 H23 e fr Hfr.
  destruct (H12 e fr Hfr) as (fr2 & Hfr2 & Hout2 & Hdom2).
  destruct (H23 e fr2 Hfr2) as (fr3 & Hfr3 & Hout3 & Hdom3).
  exists fr3. split_and!; [done|congruence|]. intros name Hn. auto.
Qed.

Lemma assign_extends h e k v h' : assign h e k v = Ok h' → extends h h'.
Proof.
  intros (fr & Hfr & ->)%assign_Ok e' fr' Hfr'.
  destruct (decide (e' = e)) as [->|Hne].
  - assert (fr' = fr) as -> by congruence.
    eexists. split; [apply list_lookup_insert_eq; by eapply lookup_lt_Some|].
    split; [done|]. simpl. intros name Hn.
    destruct (decide (k = name)) as [->|Hk].
    + rewrite lookup_insert_eq. eauto.
    + by rewrite lookup_insert_ne.
  - exists fr'. rewrite list_lookup_insert_ne by done. eauto.
Qed.

Lemma newEnv_extends parms args out h e h' :
  newEnv parms args out h = Ok (e, h') → extends h h'.
Proof.
  unfold newEnv. simpl. intros H. inv_bind H. injection H as <- <-.
  intros e' fr' Hfr'. exists fr'.
  rewrite list_lookup_insert_ne by (apply lookup_lt_Some in Hfr'; lia).
  rewrite (lookup_app_l_Some _ _ _ _ Hfr'). eauto.
Qed.

Section Extend.
Variable ev : value → nat → store → result (value * store).
Hypothesis ev_extends : ∀ x env h v h',
    ev x env h = Ok (v, h') → extends h h'.

Lemma makeArgs_loop_extends l env args h vs h' :
  makeArgs_loop ev l env args h = Ok (vs, h') → extends h h'.
Proof.
  revert args h. induction l as [|x l IH]; intros args h H; simpl in H.
  - injection H as <- <-. apply extends_refl.
  - inv_bind H. eapply extends_trans; [by eapply ev_extends|by eapply IH].
Qed.

Lemma Call_extends parms body penv args h v h' :
  Call ev parms body penv args h = Ok (v, h') → extends h h'.
Proof.
  unfold Call. intros H. inv_bind H.
  eapply extends_trans; [by eapply newEnv_extends|by eapply ev_extends].
Qed.

Lemma apply_extends l env h v h' :
  apply ev l env h = Ok (v, h') → extends h h'.
Proof.
  unfold apply, makeArgs. intros H. inv_bind H.
  apply ev_extends in Ha0. apply makeArgs_loop_extends in Ha1.
  pose proof (extends_trans _ _ _ Ha0 Ha1) as H01.
  destruct v0; try (injection H as <- <-; done).
  - inv_bind H. by injection H as <- <-.
  - eapply extends_trans; [done|by eapply Call_extends].
Qed.

Lemma special_extends find str l env h v h' :
  special ev find str l env h = Some (Ok (v, h')) → extends h h'.
Proof.
  unfold special. intros Hsp.
  repeat case_decide; try discriminate; injection Hsp as Hsp.
  - inv_bind Hsp. injection Hsp as <- <-. apply extends_refl.
  - inv_bind Hsp. apply ev_extends in Ha2.
    destruct (isFalse v0) as [b ok].
    destruct (ok && b); apply ev_extends in Hsp;
      by eapply extends_trans.
  - inv_bind Hsp. destruct (isSymbol a); [|discriminate].
    inv_bind Hsp. injection Hsp as <- <-.
    eapply extends_trans; [by eapply ev_extends|by eapply assign_extends].
  - inv_bind Hsp. destruct (isSymbol a); [|discriminate].
    inv_bind Hsp. injection Hsp as <- <-.
    eapply extends_trans; [by eapply ev_extends|by eapply assign_extends].
  - inv_bind Hsp. injection Hsp as <- <-. apply extends_refl.
Qed.

Lemma eval_body_extends find x env h v h' :
  eval_body ev find x env h = Ok (v, h') → extends h h'.
Proof.
  unfold eval_body. intros H.
  destruct (isSymbol x).
  { inv_bind H. injection H as <- <-. apply extends_refl. }
  destruct (isList x) as [l|]; [|injection H as <- <-; apply extends_refl].
  case_decide; [discriminate|].
  destruct (_ ≫= _) as [r|] eqn:Hsp.
  - destruct (l !! 0%nat) as [l0|]; [|discriminate]. simpl in Hsp.
    destruct (isSymbol l0) as [str|]; [|discriminate]. simpl in Hsp.
    subst r. by eapply special_extends.
  - by eapply apply_extends.
Qed.
End Extend.

Lemma eval_extends fuel x env h v h' :
  eval fuel x env h = Ok (v, h') → extends h h'.
Proof.
  revert x env h v h'. induction fuel as [|fuel IH]; intros x env h v h' H.
  - discriminate.
  - simpl in H. eapply eval_body_extends; eauto.
Qed.

End ExtendFacts.

(** X8: evaluation never removes a frame, never changes the outer link of
    a frame and never removes a name from a frame: every frame of the
    store before is in the store after, at the same place, with the same
    outer link and with at least the names it had. *)
Theorem X8_eval_keeps_frames fuel x env h v h' e fr :
  Lisgo.eval fuel x env h = Ok (v, h') →
  h !! e = Some fr →
  ∃ fr',
    h' !! e = Some fr'
    ∧ Lisgo.outer fr' = Lisgo.outer fr
    ∧ ∀ name, is_Some (Lisgo.inner fr !! name) → is_Some (Lisgo.inner fr' !! name).
Proof. intros Hev. by apply (ExtendFacts.eval_extends _ _ _ _ _ _ Hev). Qed.

(** An instance: a call that defines a name in its own frame and sets a
    global one. *)
Lemma X8_eval_keeps_frames_witness :
  ∃ v h' fr',
    Lisgo.eval 6
      (VList [VList [VSym "lambda"; VList [VSym "x"];
                     VList [VSym "set!"; VSym "true"; VSym "x"]];
              VInt 3])
      0%nat Lisgo.globalStore = Ok (v, h')
    ∧ h' !! 0%nat = Some fr'
    ∧ Lisgo.outer fr' = None
    ∧ is_Some (Lisgo.inner fr' !! "+").
Proof.
  destruct (Lisgo.eval 6
      (VList [VList [VSym "lambda"; VList [VSym "x"];
                     VList [VSym "set!"; VSym "true"; VSym "x"]];
              VInt 3])
      0%nat Lisgo.globalStore) as [[v h']| |] eqn:Hev;
    [|vm_compute in Hev; discriminate Hev..].
  destruct (Lisgo.globalStore !! 0%nat) as [fr|] eqn:Hfr; [|discriminate Hfr].
  destruct (X8_eval_keeps_frames _ _ _ _ _ _ 0%nat fr Hev Hfr)
    as (fr' & Hfr' & Hout & Hnames).
  exists v, h', fr'. split; [reflexivity|]. split; [exact Hfr'|].
  injection Hfr as <-. split; [exact Hout|].
  apply Hnames. eexists. reflexivity.
Defined.

(** ** Well-formed stores *)

Module WfFacts.
Import Lisgo Wf LisgoFacts.

Lemma val_ok_mono n n' v : (n ≤ n')%nat → val_ok n v = true → val_ok n' v = true.
Proof.
  intros Hle. destruct v; simpl; try done.
  intros [Hp%bool_decide_eq_true Hb]%andb_prop.
  apply andb_true_iff. split; [|done]. apply bool_decide_eq_true. lia.
Qed.

Lemma data_val_ok n v : data_ok v = true → val_ok n v = true.
Proof. by destruct v. Qed.

Lemma frame_ok_mono n n' e fr : (n ≤ n')%nat → frame_ok n e fr → frame_ok n' e fr.
Proof.
  intros Hle [Hout Hvals]. split; [done|].
  eapply map_Forall_impl; [exact Hvals|]. intros k v. by apply val_ok_mono.
Qed.

Lemma store_ok_valid h e fr o :
  store_ok h → h !! e = Some fr → outer fr = Some o → (o < length h)%nat.
Proof.
  intros Hok Hfr Ho. destruct (Hok e fr Hfr) as [Hout _].
  apply Hout in Ho. apply lookup_lt_Some in Hfr. lia.
Qed.

Lemma store_ok_value h e fr k v :
  store_ok h → h !! e = Some fr → inner fr !! k = Some v →
  val_ok (length h) v = true.
Proof.
  intros Hok Hfr Hk. destruct (Hok e fr Hfr) as [_ Hvals].
  by apply (map_Forall_lookup_1 _ _ _ _ Hvals Hk).
Qed.

Lemma store_ok_get h e fr k :
  store_ok h → h !! e = Some fr → val_ok (length h) (map_get (inner fr) k) = true.
Proof.
  intros Hok Hfr. unfold map_get.
  destruct (inner fr !! k) as [v|] eqn:Hk; [|done].
  by eapply store_ok_value.
Qed.

Lemma store_ok_assign h e fr k v :
  store_ok h → h !! e = Some fr → val_ok (length h) v = true →
  store_ok (<[e := mkEnv (<[k := v]> (inner fr)) (outer fr)]> h).
Proof.
  intros Hok Hfr Hv e' fr'. rewrite length_insert.
  destruct (decide (e' = e)) as [->|Hne].
  - rewrite list_lookup_insert_eq by by eapply lookup_lt_Some.
    intros [= <-]. destruct (Hok e fr Hfr) as [Hout Hvals].
    split; [done|]. simpl. by apply map_Forall_insert_2.
  - rewrite list_lookup_insert_ne by done. apply Hok.
Qed.

Lemma newEnv_loop_ok n parms :
  ∀ i args m0 m,
    Forall (λ v, val_ok n v = true) args →
    map_Forall (λ _ v, val_ok n v = true) m0 →
    newEnv_loop parms i args m0 = Ok m →
    map_Forall (λ _ v, val_ok n v = true) m.
Proof.
  induction parms as [|p parms IH]; intros i args m0 m Hargs Hm0 H; simpl in H.
  - by injection H as <-.
  - inv_bind H. apply index_Ok in Ha.
    eapply IH; [done| |done].
    apply map_Forall_insert_2; [|done].
    rewrite Forall_forall in Hargs. apply Hargs.
    by eapply list_elem_of_lookup_2.
Qed.

Lemma store_ok_newEnv parms args out h e h' :
  store_ok h → (out < length h)%nat →
  Forall (λ v, val_ok (length h) v = true) args →
  newEnv parms args out h = Ok (e, h') →
  store_ok h' ∧ e = length h ∧ length h' = S (length h).
Proof.
  intros Hok Hout Hargs Hnew.
  pose proof (newEnv_length _ _ _ _ _ _ Hnew) as [-> Hlen].
  split; [|done].
  unfold newEnv, newEmptyEnv, deref in Hnew.
  rewrite lookup_app_r, Nat.sub_diag in Hnew by done. simpl in Hnew.
  inv_bind Hnew. injection Hnew as <-.
  rewrite <- (Nat.add_0_r (length h)), insert_app_r. simpl.
  intros e fr Hfr. rewrite length_app. simpl.
  destruct (decide (e < length h)%nat) as [Hlt|Hge].
  - rewrite lookup_app_l in Hfr by done.
    eapply frame_ok_mono; [|by apply Hok]. lia.
  - rewrite lookup_app_r in Hfr by lia.
    destruct (e - length h)%nat as [|k] eqn:Hk; [|by destruct k].
    injection Hfr as <-. assert (e = length h) as -> by lia.
    split; [by intros o [= <-]|]. simpl.
    eapply map_Forall_impl.
    + eapply (newEnv_loop_ok (length h)); [done|apply map_Forall_empty|done].
    + intros k v. apply val_ok_mono. lia.
Qed.

(** In a well-formed store [Find] stays inside the store, and the number
    of the frame it starts from is fuel enough. *)
Lemma Find_safe h name fuel :
  store_ok h →
  ∀ env, (env < length h)%nat →
    Find fuel h env name = OutOfFuel
    ∨ ∃ e, Find fuel h env name = Ok e ∧ (e < length h)%nat.
Proof.
  intros Hok. induction fuel as [|fuel IH]; intros env Henv; [by left|].
  simpl. unfold deref.
  destruct (lookup_lt_is_Some_2 h env Henv) as [fr Hfr]. rewrite Hfr. simpl.
  destruct (not_nil _); [by right; eauto|].
  destruct (outer fr) as [out|] eqn:Hout; [|by right; eauto].
  apply IH. by eapply store_ok_valid.
Qed.

Lemma Find_total h name fuel :
  store_ok h →
  ∀ env, (env < length h)%nat → (env < fuel)%nat →
    ∃ e, Find fuel h env name = Ok e ∧ (e < length h)%nat.
Proof.
  intros Hok. induction fuel as [|fuel IH]; intros env Henv Hfuel; [lia|].
  simpl. unfold deref.
  destruct (lookup_lt_is_Some_2 h env Henv) as [fr Hfr]. rewrite Hfr. simpl.
  destruct (not_nil _); [by eauto|].
  destruct (outer fr) as [out|] eqn:Hout; [|by eauto].
  destruct (Hok env fr Hfr) as [Ho _]. apply Ho in Hout.
  apply IH; lia.
Qed.

Lemma chain_total h fuel :
  store_ok h →
  ∀ env, (env < length h)%nat → (env < fuel)%nat →
    ∃ ls, Scope.chain fuel h env = Some ls.
Proof.
  intros Hok. induction fuel as [|fuel IH]; intros env Henv Hfuel; [lia|].
  simpl. destruct (lookup_lt_is_Some_2 h env Henv) as [fr Hfr]. rewrite Hfr.
  simpl. destruct (outer fr) as [out|] eqn:Hout; [|by eauto].
  destruct (Hok env fr Hfr) as [Ho _]. apply Ho in Hout.
  destruct (IH out) as [ls ->]; [lia..|]. simpl. eauto.
Qed.

Lemma safe_mono n n' r : (n ≤ n')%nat → safe n' r → safe n r.
Proof.
  intros Hle. destruct r as [[v h']|[]|]; simpl; try done.
  intros (? & ? & ?). split_and!; [done..|lia].
Qed.

Lemma data_ok_index l i x :
  forallb data_ok l = true → l !! i = Some x → data_ok x = true.
Proof.
  intros Hl Hi. rewrite forallb_forall in Hl. apply Hl.
  apply list_elem_of_In. by eapply list_elem_of_lookup_2.
Qed.

Lemma data_ok_tail l : forallb data_ok l = true → forallb data_ok (tail l) = true.
Proof. destruct l; simpl; [done|]. by intros [_ ?]%andb_prop. Qed.

Section Safe.
Variable ev : value → nat → store → result (value * store).
Variable find : store → nat → string → result nat.
Hypothesis ev_safe : ∀ x env h,
    store_ok h → (env < length h)%nat → data_ok x = true →
    safe (length h) (ev x env h).
Hypothesis find_safe : ∀ h env name,
    store_ok h → (env < length h)%nat →
    find h env name = OutOfFuel
    ∨ ∃ e, find h env name = Ok e ∧ (e < length h)%nat.

(** The arguments evaluated so far and the store, or an early end that is
    no stray pointer. *)
Definition safe_args (n : nat) (r : result (list value * store)) : Prop :=
  match r with
  | Ok (vs, h') =>
      store_ok h' ∧ Forall (λ v, val_ok (length h') v = true) vs
      ∧ (n ≤ length h')%nat
  | Panic NilDereference => False
  | _ => True
  end.

Lemma makeArgs_loop_safe l :
  ∀ env args h,
    store_ok h → (env < length h)%nat → forallb data_ok l = true →
    Forall (λ v, val_ok (length h) v = true) args →
    safe_args (length h) (makeArgs_loop ev l env args h).
Proof.
  induction l as [|x l IH]; intros env args h Hok Henv Hl Hargs; simpl.
  - done.
  - simpl in Hl. apply andb_prop in Hl as [Hx Hl].
    pose proof (ev_safe x env h Hok Henv Hx) as Hs.
    destruct (ev x env h) as [[v h1]|[]|]; simpl in *; try done.
    destruct Hs as (Hok1 & Hv & Hle).
    assert (safe_args (length h1) (makeArgs_loop ev l env (args ++ [v]) h1)) as Hrec.
    { apply IH; [done|lia|done|].
      apply Forall_app. split; [|by constructor].
      eapply Forall_impl; [exact Hargs|]. intros a. by apply val_ok_mono. }
    destruct (makeArgs_loop ev l env (args ++ [v]) h1) as [[vs h2]|[]|];
      simpl in *; try done.
    destruct Hrec as (? & ? & ?). split_and!; [done..|lia].
Qed.

Lemma Call_safe parms body penv args h :
  store_ok h → (penv < length h)%nat → data_ok body = true →
  Forall (λ v, val_ok (length h) v = true) args →
  safe (length h) (Call ev parms body penv args h).
Proof.
  intros Hok Hpenv Hbody Hargs. unfold Call.
  destruct (newEnv parms args penv h) as [[e h1]|p|] eqn:Hnew; simpl.
  - destruct (store_ok_newEnv _ _ _ _ _ _ Hok Hpenv Hargs Hnew)
      as (Hok1 & -> & Hlen).
    eapply safe_mono; [|apply ev_safe; [done|lia|done]]. lia.
  - destruct p; try done.
    unfold newEnv, newEmptyEnv, deref in Hnew.
    rewrite lookup_app_r, Nat.sub_diag in Hnew by done. simpl in Hnew.
    destruct (newEnv_loop parms 0 args ∅) as [m|p|] eqn:Hloop;
      simpl in Hnew; try discriminate.
    injection Hnew as ->. clear -Hloop.
    exfalso. revert Hloop. generalize (∅ : gmap string value) 0%nat.
    induction parms as [|p parms IH]; intros m0 i H; simpl in H; [done|].
    destruct (index args i) as [a|p'|] eqn:Hi; simpl in H.
    + by eapply IH.
    + unfold index in Hi. destruct (args !! i); congruence.
    + done.
  - done.
Qed.

Lemma call_prim_ok n f args r : call_prim f args = Ok r → val_ok n r = true.
Proof.
  destruct f. simpl. rewrite prim_add_cases.
  destruct args as [|[] [|[] ?]]; try discriminate.
  intros [= <-]. simpl. unfold in_int_range.
  pose proof (wrap_int_range (n0 + n1)) as [H1 H2].
  apply andb_true_iff. split; by apply Z.leb_le.
Qed.

Lemma call_prim_no_nil f args : call_prim f args ≠ Panic NilDereference.
Proof.
  destruct f. simpl. rewrite prim_add_cases.
  by destruct args as [|[] [|[] ?]].
Qed.

Lemma apply_safe l env h :
  store_ok h → (env < length h)%nat → forallb data_ok l = true →
  safe (length h) (apply ev l env h).
Proof.
  intros Hok Henv Hl. unfold apply, makeArgs.
  destruct (index l 0) as [l0|p|] eqn:Hl0; simpl.
  2:{ unfold index in Hl0. by destruct (l !! 0%nat); simplify_eq. }
  2:{ unfold index in Hl0. by destruct (l !! 0%nat). }
  apply index_Ok in Hl0.
  pose proof (ev_safe l0 env h Hok Henv (data_ok_index _ _ _ Hl Hl0)) as Hs.
  destruct (ev l0 env h) as [[car h1]|[]|]; simpl in *; try done.
  destruct Hs as (Hok1 & Hcar & Hle).
  pose proof (makeArgs_loop_safe (tail l) env [] h1 Hok1 ltac:(lia)
                (data_ok_tail _ Hl) ltac:(constructor)) as Ha.
  destruct (makeArgs_loop ev (tail l) env [] h1) as [[args h2]|[]|];
    simpl in *; try done.
  destruct Ha as (Hok2 & Hargs & Hle2).
  destruct car; simpl; try (split_and!; [done|done|lia]).
  - pose proof (call_prim_ok (length h2) f args) as Hr.
    pose proof (call_prim_no_nil f args) as Hnn.
    destruct (call_prim f args) as [r|[]|]; simpl; try done.
    split_and!; [done|by apply Hr|lia].
  - simpl in Hcar. apply andb_prop in Hcar as [Hp%bool_decide_eq_true Hb].
    eapply safe_mono; [|apply Call_safe; [done|lia|done|done]]. lia.
Qed.

Lemma assign_safe h e k v n :
  store_ok h → (e < length h)%nat → val_ok (length h) v = true →
  (n ≤ length h)%nat →
  safe n (h2 ← assign h e k v; fr ← deref h2 e; Ok (map_get (inner fr) k, h2)).
Proof.
  intros Hok He Hv Hn.
  destruct (lookup_lt_is_Some_2 h e He) as [fr Hfr].
  rewrite (UnboundFacts.assign_read h e k v fr Hfr). simpl.
  split_and!.
  - by apply store_ok_assign.
  - by rewrite length_insert.
  - by rewrite length_insert.
Qed.

Lemma special_safe str l env h r :
  store_ok h → (env < length h)%nat → forallb data_ok l = true →
  special ev find str l env h = Some r → safe (length h) r.
Proof.
  intros Hok Henv Hl. unfold special.
  assert (∀ i, match index l i with
               | Ok x => data_ok x = true
               | Panic p => p = IndexOutOfRange
               | OutOfFuel => False
               end) as Hidx.
  { intros i. unfold index. destruct (l !! i) eqn:Hi; [|done].
    by eapply data_ok_index. }
  repeat case_decide; try discriminate; intros [= <-].
  - pose proof (Hidx 1%nat) as Hi1.
    destruct (index l 1) as [q|[]|]; simpl; try done.
    split_and!; [done|by apply data_val_ok|done].
  - pose proof (Hidx 1%nat) as Hi1. pose proof (Hidx 2%nat) as Hi2.
    pose proof (Hidx 3%nat) as Hi3.
    destruct (index l 1) as [test|[]|]; simpl; try done.
    destruct (index l 2) as [conseq|[]|]; simpl; try done.
    destruct (index l 3) as [alt|[]|]; simpl; try done.
    pose proof (ev_safe test env h Hok Henv Hi1) as Hs.
    destruct (ev test env h) as [[r h1]|[]|]; simpl in *; try done.
    destruct Hs as (Hok1 & _ & Hle).
    destruct (isFalse r) as [b ok].
    destruct (ok && b);
      (eapply safe_mono; [|apply ev_safe; [done|lia|done]]; lia).
  - pose proof (Hidx 1%nat) as Hi1. pose proof (Hidx 2%nat) as Hi2.
    destruct (index l 1) as [car|[]|]; simpl; try done.
    destruct (index l 2) as [cdr|[]|]; simpl; try done.
    destruct (isSymbol car) as [name|]; [|done].
    pose proof (ev_safe cdr env h Hok Henv Hi2) as Hs.
    destruct (ev cdr env h) as [[v h1]|[]|]; simpl in *; try done.
    destruct Hs as (Hok1 & Hv & Hle).
    apply assign_safe; [done|lia|done|done].
  - pose proof (Hidx 1%nat) as Hi1. pose proof (Hidx 2%nat) as Hi2.
    destruct (index l 1) as [var|[]|]; simpl; try done.
    destruct (index l 2) as [exp|[]|]; simpl; try done.
    destruct (isSymbol var) as [name|]; [|done].
    destruct (find_safe h env name Hok Henv) as [->|(e & -> & He)]; [done|].
    simpl.
    pose proof (ev_safe exp env h Hok Henv Hi2) as Hs.
    destruct (ev exp env h) as [[v h1]|[]|]; simpl in *; try done.
    destruct Hs as (Hok1 & Hv & Hle).
    apply assign_safe; [done|lia|done|done].
  - pose proof (Hidx 1%nat) as Hi1. pose proof (Hidx 2%nat) as Hi2.
    destruct (index l 1) as [parms|[]|]; simpl; try done.
    destruct (index l 2) as [body|[]|]; simpl; try done.
    unfold newProcedure, toStrings.
    destruct (isList parms) as [ps|]; [|done].
    assert (∀ acc, match toStrings_loop ps acc with
                   | Panic NilDereference | OutOfFuel => False
                   | _ => True
                   end) as Hts.
    { clear. induction ps as [|p ps IH]; intros acc; simpl; [done|].
      destruct (isSymbol p); [apply IH|done]. }
    specialize (Hts []).
    destruct (toStrings_loop ps []) as [strs|[]|]; simpl; try done.
    split_and!; [done| |done].
    apply andb_true_iff. split; [by apply bool_decide_eq_true|done].
Qed.

Lemma eval_body_safe x env h :
  store_ok h → (env < length h)%nat → data_ok x = true →
  safe (length h) (eval_body ev find x env h).
Proof.
  intros Hok Henv Hx. unfold eval_body.
  destruct x as [|n|name| |l| |]; simpl in *; try done.
  - destruct (find_safe h env name Hok Henv) as [->|(e & -> & He)]; [done|].
    simpl. unfold deref.
    destruct (lookup_lt_is_Some_2 h e He) as [fr Hfr]. rewrite Hfr. simpl.
    split_and!; [done|by eapply store_ok_get|done].
  - case_decide; [done|].
    destruct (l !! 0%nat) as [l0|] eqn:Hl0; simpl; [|by apply apply_safe].
    destruct (isSymbol l0) as [str|]; simpl; [|by apply apply_safe].
    destruct (special ev find str l env h) as [r|] eqn:Hsp;
      [by eapply special_safe|by apply apply_safe].
Qed.
End Safe.

Lemma eval_safe fuel :
  ∀ x env h,
    store_ok h → (env < length h)%nat → data_ok x = true →
    safe (length h) (eval fuel x env h).
Proof.
  induction fuel as [|fuel IH]; intros x env h Hok Henv Hx; [done|].
  simpl. apply eval_body_safe; [done| |done..].
  intros h0 env0 name Hok0 Henv0. by apply Find_safe.
Qed.

Lemma globalStore_ok : store_ok globalStore.
Proof.
  intros [|e] fr Hfr; [|done]. injection Hfr as <-.
  split; [done|]. simpl.
  repeat (apply map_Forall_insert_2; [done|]). apply map_Forall_empty.
Qed.

Lemma repl_safe fuel lines :
  ∀ h vals h',
    store_ok h → (0 < length h)%nat →
    repl fuel lines h = Ok (vals, h') →
    store_ok h' ∧ (length h ≤ length h')%nat
    ∧ Forall (λ v, val_ok (length h') v = true) vals.
Proof.
  induction lines as [|line lines IH]; intros h vals h' Hok Hlen H; simpl in H.
  - injection H as <- <-. split_and!; [done|done|constructor].
  - inv_bind H. injection H as <- <-.
    unfold run in Ha. apply bind_Ok in Ha as (x & Hparse & Hev).
    pose proof (DataFacts.parse_data_ok _ _ Hparse) as Hx.
    pose proof (eval_safe fuel x globalEnv h Hok Hlen Hx) as Hs.
    rewrite Hev in Hs. destruct Hs as (Hok1 & Hv & Hle).
    destruct (IH _ _ _ Hok1 ltac:(lia) Ha0) as (Hok2 & Hle2 & Hvals).
    split_and!; [done|lia|]. constructor; [|done].
    eapply val_ok_mono; [|done]. done.
Qed.

End WfFacts.

Module ReplFacts.
Import Reader Lisgo Wf.

Lemma read_no_nil fuel :
  (∀ tokens, readFromTokens_fuel fuel tokens ≠ Panic NilDereference) ∧
  (∀ l tokens, readList fuel l tokens ≠ Panic NilDereference).
Proof.
  induction fuel as [|fuel [IHr IHl]]; [split; intros; discriminate|].
  split.
  - intros tokens. simpl. destruct tokens as [|token tokens]; [done|]. simpl.
    repeat case_decide; first [done|apply IHl].
  - intros l tokens. simpl. destruct tokens as [|t0 tokens]; [done|]. simpl.
    case_decide; [|done].
    pose proof (IHr (t0 :: tokens)) as Hr.
    destruct (readFromTokens_fuel fuel (t0 :: tokens)) as [[s ts]|p|]; simpl;
      [apply IHl|congruence|done].
Qed.

Lemma parse_no_nil program : parse program ≠ Panic NilDereference.
Proof.
  unfold parse, readFromTokens.
  pose proof (proj1 (read_no_nil (2 * length (Lexer.tokenize program) + 1))
                (Lexer.tokenize program)) as Hr.
  destruct (readFromTokens_fuel _ _) as [[s ts]|p|]; simpl; congruence.
Qed.

Lemma repl_no_nil fuel lines :
  ∀ h, store_ok h → (0 < length h)%nat →
    repl fuel lines h ≠ Panic NilDereference.
Proof.
  induction lines as [|line lines IH]; intros h Hok Hlen; [done|].
  simpl. unfold run.
  pose proof (parse_no_nil line) as Hp.
  destruct (parse line) as [x|p|] eqn:Hparse; simpl; [|congruence|done].
  pose proof (WfFacts.eval_safe fuel x globalEnv h Hok Hlen
                (DataFacts.parse_data_ok _ _ Hparse)) as Hs.
  destruct (eval fuel x globalEnv h) as [[v h1]|[]|]; simpl in *; try done.
  destruct Hs as (Hok1 & _ & Hle).
  specialize (IH h1 Hok1 ltac:(lia)).
  destruct (repl fuel lines h1) as [[vs h2]|p|]; simpl; [done|congruence|done].
Qed.

End ReplFacts.

(** X9: evaluating what the reader built, in a frame of a well-formed
    store (outer links point to older frames, procedures capture frames
    of the store, integers are in the range of [int]), never follows a
    frame pointer out of the store, and when it yields a value the store
    is well formed again, has no fewer frames, and the value is a
    well-formed one. *)
Theorem X9_eval_keeps_store_well_formed fuel x env h :
  Wf.store_ok h →
  (env < length h)%nat →
  data_ok x = true →
  Lisgo.eval fuel x env h ≠ Panic NilDereference
  ∧ ∀ v h',
      Lisgo.eval fuel x env h = Ok (v, h') →
      Wf.store_ok h' ∧ Wf.val_ok (length h') v = true
      ∧ (length h ≤ length h')%nat.
Proof.
  intros Hok Henv Hx.
  pose proof (WfFacts.eval_safe fuel x env h Hok Henv Hx) as Hs.
  split.
  - intros Hnil. by rewrite Hnil in Hs.
  - intros v h' Hev. by rewrite Hev in Hs.
Qed.

(** An instance: a call in the initial environment. *)
Lemma X9_eval_keeps_store_well_formed_witness :
  Wf.store_ok Lisgo.globalStore
  ∧ (0 < length Lisgo.globalStore)%nat
  ∧ data_ok (VList [VList [VSym "lambda"; VList [VSym "x"]; VSym "x"]; VInt 1])
    = true
  ∧ Lisgo.eval 5
      (VList [VList [VSym "lambda"; VList [VSym "x"]; VSym "x"]; VInt 1])
      0%nat Lisgo.globalStore ≠ Panic NilDereference.
Proof.
  assert (0 < length Lisgo.globalStore)%nat as Hlen by (simpl; lia).
  split; [exact WfFacts.globalStore_ok|]. split; [exact Hlen|].
  split; [reflexivity|].
  exact (proj1 (X9_eval_keeps_store_well_formed 5
                  (VList [VList [VSym "lambda"; VList [VSym "x"]; VSym "x"];
                          VInt 1])
                  0%nat Lisgo.globalStore
                  WfFacts.globalStore_ok Hlen eq_refl)).
Defined.

(** X10: a session from the initial environment never follows a frame
    pointer out of the store, and the store it ends in is well formed,
    with the global frame in it; the values of its lines are well
    formed. *)
Theorem X10_sessions_stay_well_formed fuel lines :
  Lisgo.repl fuel lines Lisgo.globalStore ≠ Panic NilDereference
  ∧ ∀ vals h',
      Lisgo.repl fuel lines Lisgo.globalStore = Ok (vals, h') →
      Wf.store_ok h' ∧ (0 < length h')%nat
      ∧ Forall (λ v, Wf.val_ok (length h') v = true) vals.
Proof.
  assert (0 < length Lisgo.globalStore)%nat as Hlen by (simpl; lia).
  split.
  - by apply ReplFacts.repl_no_nil; [apply WfFacts.globalStore_ok|].
  - intros vals h' Hrepl.
    destruct (WfFacts.repl_safe fuel lines _ _ _ WfFacts.globalStore_ok Hlen Hrepl)
      as (Hok & Hle & Hvals).
    split_and!; [done|lia|done].
Qed.

(** X11: in a well-formed store a variable reference always yields a
    value (possibly [nil]) and leaves the store as it is, whatever the
    name; the frames from [env] outwards form a finite chain, and the
    number of the frame is fuel enough to walk it. *)
Theorem X11_variable_reference_never_fails fuel h env name :
  Wf.store_ok h →
  (env < length h)%nat →
  (env < fuel)%nat →
  (∃ ls, Scope.chain fuel h env = Some ls)
  ∧ ∃ v, Lisgo.eval (S fuel) (VSym name) env h = Ok (v, h)
         ∧ Wf.val_ok (length h) v = true.
Proof.
  intros Hok Henv Hfuel. split; [by apply WfFacts.chain_total|].
  destruct (WfFacts.Find_total h name fuel Hok env Henv Hfuel) as (e & HFind & He).
  destruct (lookup_lt_is_Some_2 h e He) as [fr Hfr].
  exists (map_get (Lisgo.inner fr) name). split.
  - rewrite UnboundFacts.eval_symbol, HFind. simpl.
    unfold Lisgo.deref. by rewrite Hfr.
  - by eapply WfFacts.store_ok_get.
Qed.

(** An instance: a name bound nowhere, in the initial environment. *)
Lemma X11_variable_reference_never_fails_witness :
  Wf.store_ok Lisgo.globalStore
  ∧ (0 < length Lisgo.globalStore)%nat
  ∧ (0 < 1)%nat
  ∧ (∃ ls, Scope.chain 1 Lisgo.globalStore 0%nat = Some ls)
  ∧ ∃ v, Lisgo.eval 2 (VSym "nothing") 0%nat Lisgo.globalStore
         = Ok (v, Lisgo.globalStore)
         ∧ Wf.val_ok (length Lisgo.globalStore) v = true.
Proof.
  assert (0 < length Lisgo.globalStore)%nat as Hlen by (simpl; lia).
  assert (0 < 1)%nat as Hfuel by lia.
  split; [exact WfFacts.globalStore_ok|]. split; [exact Hlen|].
  split; [exact Hfuel|].
  exact (X11_variable_reference_never_fails 1 Lisgo.globalStore 0%nat "nothing"
           WfFacts.globalStore_ok Hlen Hfuel).
Defined.

(** X10 at a session of three lines. *)
Lemma X10_sessions_stay_well_formed_witness :
  Lisgo.repl 6 ["(define f (lambda (x) (+ x 1)))"; "(f 2)"; "(zz)"]
    Lisgo.globalStore ≠ Panic NilDereference.
Proof.
  exact (proj1 (X10_sessions_stay_well_formed 6
                  ["(define f (lambda (x) (+ x 1)))"; "(f 2)"; "(zz)"])).
Defined.

(** ** The operands of the special forms *)

(** X12: a special form reads a fixed number of operands (one for
    [quote], three for [if], two for [define], [set!] and [lambda]): with
    fewer the index into the list panics before anything is evaluated,
    and operands beyond that number are ignored. *)
Theorem X12_special_forms_read_fixed_operands fuel str k l env h :
  operands str = Some k →
  ((length l < k)%nat →
     Lisgo.eval (S fuel) (VList (VSym str :: l)) env h = Panic IndexOutOfRange)
  ∧ ((k ≤ length l)%nat →
     Lisgo.eval (S fuel) (VList (VSym str :: l)) env h
     = Lisgo.eval (S fuel) (VList (VSym str :: take k l)) env h).
Proof.
  unfold operands. intros Hk.
  repeat case_decide; try discriminate; injection Hk as <-; subst str;
    (split; intros Hlen;
     [ destruct l as [|a [|b [|c l]]]; simpl in Hlen; try lia; reflexivity
     | destruct l as [|a [|b [|c l]]]; simpl in Hlen; try lia; reflexivity ]).
Qed.

(** Instances: an [if] without alternative, and a [quote] with two
    operands. *)
Lemma X12_special_forms_read_fixed_operands_witness :
  operands "if" = Some 3%nat
  ∧ (length [VSym "true"; VInt 1] < 3)%nat
  ∧ Lisgo.eval 3 (VList [VSym "if"; VSym "true"; VInt 1]) 0%nat Lisgo.globalStore
    = Panic IndexOutOfRange
  ∧ operands "quote" = Some 1%nat
  ∧ (1 ≤ length [VSym "a"; VSym "b"])%nat
  ∧ Lisgo.eval 3 (VList [VSym "quote"; VSym "a"; VSym "b"]) 0%nat
      Lisgo.globalStore
    = Lisgo.eval 3 (VList [VSym "quote"; VSym "a"]) 0%nat Lisgo.globalStore.
Proof.
  assert (length [VSym "true"; VInt 1] < 3)%nat as Hlt by (simpl; lia).
  assert (1 ≤ length [VSym "a"; VSym "b"])%nat as Hle by (simpl; lia).
  split; [reflexivity|]. split; [exact Hlt|]. split.
  { exact (proj1 (X12_special_forms_read_fixed_operands 2 "if" 3
                    [VSym "true"; VInt 1] 0%nat Lisgo.globalStore eq_refl) Hlt). }
  split; [reflexivity|]. split; [exact Hle|].
  exact (proj2 (X12_special_forms_read_fixed_operands 2 "quote" 1
                  [VSym "a"; VSym "b"] 0%nat Lisgo.globalStore eq_refl) Hle).
Defined.

(** ** Making a procedure *)

Lemma toStrings_loop_symbols names acc :
  Lisgo.toStrings_loop (VSym <$> names) acc = Ok (acc ++ names).
Proof.
  revert acc. induction names as [|n names IH]; intros acc; simpl.
  - by rewrite app_nil_r.
  - rewrite IH. by rewrite <- app_assoc.
Qed.

Lemma toStrings_loop_not_symbol l acc :
  Exists (λ x, isSymbol x = None) l →
  Lisgo.toStrings_loop l acc = Panic (PanicMsg "parms needs symbols").
Proof.
  intros Hex. revert acc. induction Hex as [x l Hx|x l Hex IH]; intros acc; simpl.
  - by rewrite Hx.
  - destruct (isSymbol x); [apply IH|done].
Qed.

(** X13: [(lambda parms body)] evaluates nothing and leaves the store as
    it is.  When [parms] is a list of symbols the value is the procedure
    with these names in their order, the body as it stands and the frame
    [eval] is running in; when some element of the list is no symbol it
    panics with "parms needs symbols", and when [parms] is no list, with
    "parms must be a list". *)
Theorem X13_lambda_makes_procedure fuel body env h :
  (∀ names,
      Lisgo.eval (S fuel) (VList [VSym "lambda"; VList (VSym <$> names); body]) env h
      = Ok (VProc names body env, h))
  ∧ (∀ ps, Exists (λ x, isSymbol x = None) ps →
      Lisgo.eval (S fuel) (VList [VSym "lambda"; VList ps; body]) env h
      = Panic (PanicMsg "parms needs symbols"))
  ∧ (∀ parms, isList parms = None →
      Lisgo.eval (S fuel) (VList [VSym "lambda"; parms; body]) env h
      = Panic (PanicMsg "parms must be a list")).
Proof.
  assert (∀ parms,
    Lisgo.eval (S fuel) (VList [VSym "lambda"; parms; body]) env h
    = (p ← Lisgo.newProcedure parms body env; Ok (p, h))) as Heq by reflexivity.
  split_and!.
  - intros names. rewrite Heq. unfold Lisgo.newProcedure, Lisgo.toStrings, isList.
    by rewrite toStrings_loop_symbols.
  - intros ps Hex. rewrite Heq. unfold Lisgo.newProcedure, Lisgo.toStrings, isList.
    by rewrite toStrings_loop_not_symbol.
  - intros parms Hnl. rewrite Heq. unfold Lisgo.newProcedure, Lisgo.toStrings.
    by rewrite Hnl.
Qed.

(** Instances: a parameter list with a number in it, and a symbol in the
    place of the list. *)
Lemma X13_lambda_makes_procedure_witness :
  Exists (λ x, isSymbol x = None) [VSym "a"; VInt 1]
  ∧ Lisgo.eval 1 (VList [VSym "lambda"; VList [VSym "a"; VInt 1]; VSym "a"])
      0%nat Lisgo.globalStore = Panic (PanicMsg "parms needs symbols")
  ∧ isList (VSym "a") = None
  ∧ Lisgo.eval 1 (VList [VSym "lambda"; VSym "a"; VSym "a"]) 0%nat
      Lisgo.globalStore = Panic (PanicMsg "parms must be a list").
Proof.
  assert (Exists (λ x, isSymbol x = None) [VSym "a"; VInt 1]) as Hex.
  { apply Exists_cons_tl. apply Exists_cons_hd. reflexivity. }
  destruct (X13_lambda_makes_procedure 0 (VSym "a") 0%nat Lisgo.globalStore)
    as (_ & Hsym & Hlist).
  split; [exact Hex|]. split; [exact (Hsym _ Hex)|].
  split; [reflexivity|]. exact (Hlist (VSym "a") eq_refl).
Defined.

(** ** The arguments of an application *)

Module ArgsFacts.
Import Lisgo.

Section Args.
Variable ev : value → nat → store → result (value * store).

Lemma makeArgs_loop_acc l :
  ∀ env acc h,
    makeArgs_loop ev l env acc h
    = '(args, h') ← makeArgs_loop ev l env [] h; Ok (acc ++ args, h').
Proof.
  induction l as [|x l IH]; intros env acc h; simpl.
  - by rewrite app_nil_r.
  - destruct (ev x env h) as [[v h1]| |]; simpl; [|done..].
    rewrite (IH env (acc ++ [v])), (IH env ([] ++ [v])).
    destruct (makeArgs_loop ev l env [] h1) as [[args h2]| |]; simpl; [|done..].
    by rewrite <- app_assoc.
Qed.

Lemma makeArgs_cons x l env h :
  makeArgs ev (x :: l) env h
  = '(v, h1) ← ev x env h;
    '(args, h2) ← makeArgs ev l env h1;
    Ok (v :: args, h2).
Proof.
  unfold makeArgs. simpl.
  destruct (ev x env h) as [[v h1]| |]; simpl; [|done..].
  by rewrite makeArgs_loop_acc.
Qed.

Lemma makeArgs_app l1 l2 env h :
  makeArgs ev (l1 ++ l2) env h
  = '(a1, h1) ← makeArgs ev l1 env h;
    '(a2, h2) ← makeArgs ev l2 env h1;
    Ok (a1 ++ a2, h2).
Proof.
  revert h. induction l1 as [|x l1 IH]; intros h.
  - simpl. unfold makeArgs. simpl.
    by destruct (makeArgs_loop ev l2 env [] h) as [[a2 h2]| |].
  - rewrite <- app_comm_cons, !makeArgs_cons.
    destruct (ev x env h) as [[v h1]| |]; simpl; [|done..].
    rewrite IH.
    destruct (makeArgs ev l1 env h1) as [[a1 h2]| |]; simpl; [|done..].
    by destruct (makeArgs ev l2 env h2) as [[a2 h3]| |].
Qed.

Lemma makeArgs_length l env h args h' :
  makeArgs ev l env h = Ok (args, h') → length args = length l.
Proof.
  revert h args. induction l as [|x l IH]; intros h args.
  - by intros [= <- <-].
  - rewrite makeArgs_cons. intros H. inv_bind H. injection H as <- <-.
    simpl. f_equal. by eapply IH.
Qed.
End Args.

End ArgsFacts.

(** X14: the operands of an application are evaluated from left to
    right, each in the store the one before it left, and the first that
    fails ends the evaluation with its failure; evaluating two runs of
    operands one after the other is evaluating their concatenation, and
    there are as many arguments as operands. *)
Theorem X14_arguments_left_to_right fuel env h :
  (∀ x l,
      Lisgo.makeArgs (Lisgo.eval fuel) (x :: l) env h
      = '(v, h1) ← Lisgo.eval fuel x env h;
        '(args, h2) ← Lisgo.makeArgs (Lisgo.eval fuel) l env h1;
        Ok (v :: args, h2))
  ∧ (∀ l1 l2,
      Lisgo.makeArgs (Lisgo.eval fuel) (l1 ++ l2) env h
      = '(a1, h1) ← Lisgo.makeArgs (Lisgo.eval fuel) l1 env h;
        '(a2, h2) ← Lisgo.makeArgs (Lisgo.eval fuel) l2 env h1;
        Ok (a1 ++ a2, h2))
  ∧ (∀ l args h',
      Lisgo.makeArgs (Lisgo.eval fuel) l env h = Ok (args, h') →
      length args = length l).
Proof.
  split_and!.
  - intros. apply ArgsFacts.makeArgs_cons.
  - intros. apply ArgsFacts.makeArgs_app.
  - intros l args h'. apply ArgsFacts.makeArgs_length.
Qed.

(** An instance: the second operand sees the definition made by the
    first. *)
Lemma X14_arguments_left_to_right_witness :
  Lisgo.makeArgs (Lisgo.eval 3)
    [VList [VSym "define"; VSym "a"; VInt 1]; VSym "a"] 0%nat Lisgo.globalStore
  = Ok ([VInt 1; VInt 1],
        <[0%nat := Lisgo.mkEnv (<["a" := VInt 1]>
                                  (<["+" := VPrim PrimAdd]>
                                     (<["true" := VBool true]>
                                        (<["false" := VBool false]> ∅)))) None]>
          Lisgo.globalStore)
  ∧ length [VInt 1; VInt 1]
    = length [VList [VSym "define"; VSym "a"; VInt 1]; VSym "a"].
Proof.
  assert (Lisgo.makeArgs (Lisgo.eval 3)
    [VList [VSym "define"; VSym "a"; VInt 1]; VSym "a"] 0%nat Lisgo.globalStore
  = Ok ([VInt 1; VInt 1],
        <[0%nat := Lisgo.mkEnv (<["a" := VInt 1]>
                                  (<["+" := VPrim PrimAdd]>
                                     (<["true" := VBool true]>
                                        (<["false" := VBool false]> ∅)))) None]>
          Lisgo.globalStore)) as Hargs by (vm_compute; reflexivity).
  split; [exact Hargs|].
  exact (proj2 (proj2 (X14_arguments_left_to_right 3 0%nat Lisgo.globalStore))
           _ _ _ Hargs).
Defined.

(** ** The calculator applies functions only *)

(** X15: in the calculator a list whose head is a symbol outside its
    [switch] ([quote], [if], [define]) and bound to no function panics
    with "not a procedure" before any operand is evaluated; the
    environment plays no further part.  [set!] and [lambda] are such
    symbols there. *)
Theorem X15_calc_applies_functions_only fuel str rest env :
  str ∉ ["quote"; "if"; "define"] →
  isPrim (map_get env str) = None →
  Calc.eval (S (S fuel)) (VList (VSym str :: rest)) env
  = Panic (PanicMsg "not a procedure").
Proof.
  intros Hstr Hnot.
  by apply (Calc_symbol_head_not_procedure (S fuel) str rest env
              (map_get env str) env).
Qed.

(** An instance: [(set! a 1)] in the calculator. *)
Lemma X15_calc_applies_functions_only_witness :
  ("set!" ∉ ["quote"; "if"; "define"])
  ∧ isPrim (map_get Calc.globalEnv "set!") = None
  ∧ Calc.eval 2 (VList [VSym "set!"; VSym "a"; VInt 1]) Calc.globalEnv
    = Panic (PanicMsg "not a procedure").
Proof.
  assert ("set!" ∉ ["quote"; "if"; "define"]) as Hstr.
  { intros H%list_elem_of_In. simpl in H.
    destruct H as [H|[H|[H|[]]]]; discriminate H. }
  split; [exact Hstr|]. split; [reflexivity|].
  exact (X15_calc_applies_functions_only 0 "set!" [VSym "a"; VInt 1]
           Calc.globalEnv Hstr eq_refl).
Defined.

(** ** The printer and the reader *)

Example schemestr_examples pt :
  Printer.schemestr pt (VList [VInt 1; VList [VInt (-20)]; VList []]) = "(1 (-20) ())"
  ∧ Printer.schemestr pt (VInt 0) = "0"
  ∧ Printer.schemestr pt (VInt int_min) = "-9223372036854775808"
  ∧ Printer.schemestr pt (VList [VSym "b"]) = "(%!d(string=b))".
Proof. split_and!; vm_compute; reflexivity. Qed.

Module PrinterFacts.
Import Lexer Fmt Printer.

Lemma digit_char_code d : (d < 10)%N → code (digit_char d) = (48 + d)%N.
Proof. intros Hd. unfold code, digit_char. apply N_ascii_embedding. lia. Qed.

Lemma digit_char_decimal d : (d < 10)%N → is_decimal (digit_char d) = true.
Proof.
  intros Hd. unfold is_decimal. rewrite (digit_char_code _ Hd).
  apply andb_true_iff. split; apply N.leb_le; lia.
Qed.

Lemma digit_char_val d : (d < 10)%N → digit_val (code (digit_char d)) = Some d.
Proof.
  intros Hd. unfold digit_val. rewrite (digit_char_code _ Hd).
  assert ((48 <=? 48 + d)%N && (48 + d <=? 57)%N = true) as ->.
  { apply andb_true_iff. split; apply N.leb_le; lia. }
  f_equal. lia.
Qed.

Lemma decimal_no_underscore c : is_decimal c = true → is_underscore c = false.
Proof.
  unfold is_decimal, is_underscore. intros [Ha Hb]%andb_prop.
  apply N.leb_le in Ha, Hb. apply N.eqb_neq. lia.
Qed.

Lemma all_decimal_app s1 s2 :
  all_decimal (s1 +:+ s2) = all_decimal s1 && all_decimal s2.
Proof.
  induction s1 as [|c s1 IH]; [done|].
  rewrite LexerFacts.append_cons. simpl. by rewrite IH, andb_assoc.
Qed.

Lemma all_decimal_no_underscore s : all_decimal s = true → has_underscore s = false.
Proof.
  induction s as [|c s IH]; [done|]. simpl. intros [Hc Hs]%andb_prop.
  by rewrite (decimal_no_underscore _ Hc), IH.
Qed.

(** Reading the digits [ds] appends the number [u] to what was read. *)
Definition reads (ds : string) (u : N) : Prop :=
  ∃ k, ∀ a rest,
    parse_digits 10 a (ds +:+ rest) = parse_digits 10 (a * 10 ^ k + u)%N rest.

Lemma reads_digit d : (d < 10)%N → reads (String (digit_char d) "") d.
Proof.
  intros Hd. exists 1%N. intros a rest. rewrite LexerFacts.append_cons. simpl.
  rewrite (decimal_no_underscore _ (digit_char_decimal _ Hd)).
  rewrite (digit_char_val _ Hd). simpl.
  assert ((10 <=? d)%N = false) as -> by (apply N.leb_gt; lia).
  by rewrite N.pow_1_r.
Qed.

Lemma reads_snoc ds u d :
  reads ds u → (d < 10)%N →
  reads (ds +:+ String (digit_char d) "") (u * 10 + d)%N.
Proof.
  intros [k Hk] Hd. exists (N.succ k). intros a rest.
  rewrite LexerFacts.append_assoc, Hk.
  destruct (reads_digit d Hd) as [k1 Hk1].
  rewrite LexerFacts.append_cons. simpl.
  rewrite (decimal_no_underscore _ (digit_char_decimal _ Hd)).
  rewrite (digit_char_val _ Hd). simpl.
  assert ((10 <=? d)%N = false) as -> by (apply N.leb_gt; lia).
  f_equal. rewrite N.pow_succ_r'. lia.
Qed.

(** The digits [fmt] writes for [u]: at least one, decimal, no leading
    zero for a positive number, and they read back as [u]. *)
Lemma fmt_digits_spec fuel :
  ∀ u buf, (u < 10 ^ N.of_nat (S fuel))%N →
    ∃ ds, fmt_digits (S fuel) u buf = ds +:+ buf
          ∧ all_decimal ds = true ∧ ds ≠ ""
          ∧ ((0 < u)%N → decimal_literal ds = true)
          ∧ reads ds u.
Proof.
  induction fuel as [|fuel IH]; intros u buf Hu.
  - assert (u < 10)%N as Hd by (simpl in Hu; lia).
    exists (String (digit_char u) ""). simpl.
    assert ((10 <=? u)%N = false) as -> by (apply N.leb_gt; lia).
    rewrite (digit_char_decimal _ Hd). split_and!; try done.
    + intros Hpos. unfold code. fold (code (digit_char u)).
      rewrite (digit_char_code _ Hd).
      apply andb_true_iff. split; [|done].
      apply negb_true_iff, N.eqb_neq. lia.
    + by apply reads_digit.
  - change (fmt_digits (S (S fuel)) u buf)
      with (if (10 <=? u)%N
            then fmt_digits (S fuel) (u / 10) (String (digit_char (u mod 10)) buf)
            else String (digit_char u) buf).
    destruct (10 <=? u)%N eqn:E.
    + apply N.leb_le in E.
      assert (u mod 10 < 10)%N as Hd by (apply N.mod_lt; lia).
      assert (u / 10 < 10 ^ N.of_nat (S fuel))%N as Hq.
      { apply N.Div0.div_lt_upper_bound.
        replace (N.of_nat (S (S fuel))) with (N.succ (N.of_nat (S fuel))) in Hu by lia.
        rewrite N.pow_succ_r' in Hu. lia. }
      destruct (IH (u / 10)%N (String (digit_char (u mod 10)) buf) Hq)
        as (ds & Hds & Hall & Hne & Hlit & Hrd).
      exists (ds +:+ String (digit_char (u mod 10)) "").
      rewrite Hds, LexerFacts.append_assoc. split; [done|].
      assert (0 < u / 10)%N as Hq0.
      { apply N.div_str_pos. lia. }
      split_and!.
      * rewrite all_decimal_app, Hall. simpl.
        by rewrite (digit_char_decimal _ Hd).
      * by destruct ds.
      * intros _. specialize (Hlit Hq0).
        destruct ds as [|c ds]; [done|].
        rewrite LexerFacts.append_cons. simpl in Hlit |- *.
        apply andb_prop in Hlit as [-> Hlit]. simpl.
        apply andb_prop in Hlit as [-> Hlit]. simpl.
        rewrite all_decimal_app, Hlit. simpl.
        by rewrite (digit_char_decimal _ Hd).
      * replace u with (u / 10 * 10 + u mod 10)%N at 2.
        { by apply reads_snoc. }
        rewrite (N.div_mod u 10) at 3 by lia. lia.
    + apply N.leb_gt in E.
      exists (String (digit_char u) ""). simpl.
      rewrite (digit_char_decimal _ E). split_and!; try done.
      * intros Hpos. unfold code. fold (code (digit_char u)).
        rewrite (digit_char_code _ E).
        apply andb_true_iff. split; [|done].
        apply negb_true_iff, N.eqb_neq. lia.
      * by apply reads_digit.
Qed.

Lemma ParseUint_decimal ds u :
  decimal_literal ds = true → reads ds u → (u < 2 ^ 64)%N →
  ParseUint ds = Some u.
Proof.
  intros Hlit [k Hk] Hu.
  destruct ds as [|c ds]; [done|].
  simpl in Hlit. apply andb_prop in Hlit as [Hnz Hall].
  apply negb_true_iff in Hnz.
  unfold ParseUint. rewrite Hnz.
  specialize (Hk 0%N ""). rewrite LexerFacts.append_nil_r in Hk.
  rewrite Hk. replace (0 * 10 ^ k + u)%N with u by lia.
  change ((if (2 ^ 64 <=? u)%N then None
           else if has_underscore (String c ds) && negb (underscoreOK (String c ds))
                then None else Some u) = Some u).
  assert ((2 ^ 64 <=? u)%N = false) as -> by (apply N.leb_gt; lia).
  assert (has_underscore (String c ds) = false) as ->.
  { by apply all_decimal_no_underscore. }
  done.
Qed.

Lemma digits_first ds :
  all_decimal ds = true → ds ≠ "" →
  ∃ c ds', ds = String c ds' ∧ is_decimal c = true.
Proof.
  destruct ds as [|c ds]; [done|]. simpl. intros [Hc _]%andb_prop _.
  by exists c, ds.
Qed.

Lemma ParseInt_minus ds u :
  ParseUint ds = Some u → (u <= 2 ^ 63)%N →
  ParseInt (String "-" ds) = Some (- Z.of_N u).
Proof.
  intros Hds Hu. unfold ParseInt.
  change (code "-" =? 43)%N with false. change (code "-" =? 45)%N with true.
  cbv iota beta. rewrite Hds.
  change ((if (2 ^ 63 <? u)%N then None else Some (- Z.of_N u)) = Some (- Z.of_N u)).
  assert ((2 ^ 63 <? u)%N = false) as -> by (apply N.ltb_ge; lia). done.
Qed.

Lemma ParseInt_digits c ds u :
  is_decimal c = true → ParseUint (String c ds) = Some u → (u < 2 ^ 63)%N →
  ParseInt (String c ds) = Some (Z.of_N u).
Proof.
  intros Hc Hds Hu. unfold ParseInt.
  unfold is_decimal in Hc. apply andb_prop in Hc as [Hc1 Hc2].
  apply N.leb_le in Hc1, Hc2.
  assert ((code c =? 43)%N = false) as -> by (apply N.eqb_neq; lia).
  assert ((code c =? 45)%N = false) as -> by (apply N.eqb_neq; lia).
  rewrite Hds.
  change ((if (2 ^ 63 <=? u)%N then None else Some (Z.of_N u)) = Some (Z.of_N u)).
  assert ((2 ^ 63 <=? u)%N = false) as -> by (apply N.leb_gt; lia). done.
Qed.

(** What [Sprintf] writes for an [int] is what [Sscan] reads back. *)
Lemma Sscan_Sprintf_d n : in_int_range n = true → Sscan (Sprintf_d n) = Some n.
Proof.
  unfold in_int_range, int_min, int_max, int_bits.
  intros [Hlo Hhi]%andb_prop. apply Z.leb_le in Hlo, Hhi.
  change (2 ^ (64 - 1)) with 9223372036854775808 in *.
  destruct (Z.lt_trichotomy n 0) as [Hn|[->|Hn]].
  - unfold Sprintf_d. assert ((n <? 0) = true) as -> by (apply Z.ltb_lt; lia).
    destruct (fmt_digits_spec 19 (Z.to_N (- n)) "") as (ds & Hds & Hall & Hne & Hlit & Hrd).
    { change (10 ^ N.of_nat 20)%N with 100000000000000000000%N. lia. }
    rewrite Hds, LexerFacts.append_nil_r.
    assert (decimal_literal ds = true) as Hl by (apply Hlit; lia).
    destruct ds as [|c ds]; [done|].
    pose proof Hl as Hl'. simpl in Hl'. apply andb_prop in Hl' as [Hnz Hall'].
    apply negb_true_iff in Hnz.
    simpl in Hall. apply andb_prop in Hall as [Hc Hrest].
    unfold Sscan, scanInt_token.
    assert (trim_head space_head 0 (String "-" (String c ds)) = String "-" (String c ds)) as ->.
    { apply FmtFacts.trim_head_0. simpl. by destruct ds. }
    change (is_sign "-") with true. cbv iota beta.
    unfold scanBasePrefix. rewrite Hnz.
    unfold scanNumber. unfold in_digits at 1. rewrite Hc, orb_true_r.
    rewrite <- (LexerFacts.append_nil_r (String c ds)) at 1.
    rewrite FmtFacts.accept_all_decimal; [| simpl; by rewrite Hc, Hrest | done].
    change (ParseInt (String "-" (String c ds)) = Some n).
    rewrite (ParseInt_minus _ (Z.to_N (- n))).
    + f_equal. lia.
    + apply (ParseUint_decimal _ _ Hl Hrd). lia.
    + lia.
  - vm_compute. reflexivity.
  - unfold Sprintf_d. assert ((n <? 0) = false) as -> by (apply Z.ltb_ge; lia).
    destruct (fmt_digits_spec 19 (Z.to_N n) "") as (ds & Hds & Hall & Hne & Hlit & Hrd).
    { change (10 ^ N.of_nat 20)%N with 100000000000000000000%N. lia. }
    rewrite Hds, LexerFacts.append_nil_r.
    assert (decimal_literal ds = true) as Hl by (apply Hlit; lia).
    unfold Sscan.
    rewrite <- (LexerFacts.append_nil_r ds) at 1.
    rewrite (FmtFacts.scanInt_token_decimal ds "" Hl I).
    change (ParseInt ds = Some n).
    destruct ds as [|c ds]; [done|].
    simpl in Hall. apply andb_prop in Hall as [Hc Hrest].
    rewrite (ParseInt_digits c ds (Z.to_N n)).
    + f_equal. lia.
    + done.
    + apply (ParseUint_decimal _ _ Hl Hrd). lia.
    + lia.
Qed.

End PrinterFacts.

Module WordsFacts.
Import Lexer LexerFacts Printer.

Lemma words_go_word w : ∀ cur s,
  has_char re_space w = false →
  words_go cur (w +:+ s) = words_go (String.rev w +:+ cur) s.
Proof.
  induction w as [|c w IH]; intros cur s; [done|].
  intros Hcw. simpl in Hcw. apply orb_false_iff in Hcw as [Hc Hw].
  rewrite append_cons. simpl. rewrite Hc, IH by done.
  by rewrite rev_cons, append_assoc.
Qed.

Lemma words_go_space s1 : ∀ cur s2,
  words_go cur (s1 +:+ String " " s2) = words_go cur s1 ++ words_go "" s2.
Proof.
  induction s1 as [|c s1 IH]; intros cur s2.
  - rewrite append_nil_l. simpl. by case_bool_decide.
  - rewrite append_cons. simpl. destruct (re_space c); [|apply IH].
    case_bool_decide; [apply IH|]. by rewrite IH.
Qed.

Lemma words_space s1 s2 : words (s1 +:+ String " " s2) = words s1 ++ words s2.
Proof. apply words_go_space. Qed.

Lemma words_word w : has_char re_space w = false → w ≠ "" → words w = [w].
Proof.
  intros Hw Hne. unfold words.
  rewrite <- (append_nil_r w) at 1. rewrite words_go_word by done.
  simpl. rewrite append_nil_r. case_bool_decide as E.
  - by apply rev_empty in E.
  - by rewrite rev_involutive.
Qed.

Lemma words_Join ss : words (Join ss " ") = concat (map words ss).
Proof.
  induction ss as [|s [|s' ss] IH]; [done| |].
  - simpl. by rewrite app_nil_r.
  - change (Join (s :: s' :: ss) " ") with (s +:+ String " " (Join (s' :: ss) " ")).
    by rewrite words_space, IH.
Qed.

Lemma last_char_cons s : ∀ c,
  last_char (String c s) = Some (default c (last_char s)).
Proof.
  induction s as [|a s IH]; intros c; [done|].
  change (last_char (String c (String a s))) with (last_char (String a s)).
  by rewrite IH.
Qed.

(** Where a text begins and ends with a byte that is no white space,
    [Split] gives its words. *)
Lemma split_go_words s : ∀ in_match cur,
  (in_match = true → cur = "") →
  (in_match = false →
     cur ≠ "" ∨ ∃ c, first_char s = Some c ∧ re_space c = false) →
  match last_char s with
  | Some c => re_space c = false
  | None => cur ≠ ""
  end →
  split_go in_match cur s = words_go cur s.
Proof.
  induction s as [|c s IH]; intros in_match cur Hin Hout Hlast.
  - simpl in *. by case_bool_decide.
  - assert (match last_char s with
            | Some c' => re_space c' = false
            | None => re_space c = false
            end) as Hlast'.
    { rewrite last_char_cons in Hlast. by destruct (last_char s). }
    simpl. destruct (re_space c) eqn:Hc.
    + assert (match last_char s with
              | Some c' => re_space c' = false
              | None => "" ≠ ""
              end) as Hl.
      { by destruct (last_char s). }
      destruct in_match.
      * rewrite (Hin eq_refl). simpl. by apply IH.
      * destruct (Hout eq_refl) as [Hne|(c' & [= <-] & Hc')]; [|congruence].
        case_bool_decide; [done|]. f_equal. by apply IH.
    + apply IH; [done|by left|]. by destruct (last_char s).
Qed.

Lemma Split_words s c1 c2 :
  first_char s = Some c1 → re_space c1 = false →
  last_char s = Some c2 → re_space c2 = false →
  Split s = words s.
Proof.
  intros H1 Hc1 H2 Hc2. destruct s as [|c s]; [done|].
  unfold Split, words. apply split_go_words; [done| |by rewrite H2].
  intros _. right. by exists c1.
Qed.

(** A byte that is no space and no part of a space of several bytes. *)
Definition simple (c : ascii) : bool := negb (ascii_space c) && (code c <? 128)%N.

Lemma simple_not_space c : simple c = true → re_space c = false.
Proof.
  intros [H _]%andb_prop. apply negb_true_iff in H.
  destruct (re_space c) eqn:E; [|done].
  by rewrite (re_space_ascii_space _ E) in H.
Qed.

Lemma space_head_simple c s : simple c = true → space_head (String c s) = 0%nat.
Proof.
  intros [H1 H2]%andb_prop. apply negb_true_iff in H1. apply N.ltb_lt in H2.
  simpl. rewrite H1.
  assert (∀ b, space2 (code c) b = false) as H2b.
  { intros b. unfold space2. apply andb_false_iff. left. apply N.eqb_neq. lia. }
  assert (∀ b d, space3 (code c) b d = false) as H3b.
  { intros b d. unfold space3.
    assert ((code c =? 225)%N = false) as -> by (apply N.eqb_neq; lia).
    assert ((code c =? 226)%N = false) as -> by (apply N.eqb_neq; lia).
    assert ((code c =? 227)%N = false) as -> by (apply N.eqb_neq; lia).
    done. }
  destruct s as [|b s]; [done|]. rewrite H2b.
  destruct s as [|d s]; [done|]. by rewrite H3b.
Qed.

Lemma space_last_simple c s : simple c = true → space_last (String c s) = 0%nat.
Proof.
  intros [H1 H2]%andb_prop. apply negb_true_iff in H1. apply N.ltb_lt in H2.
  simpl. rewrite H1.
  assert (∀ b, space2 b (code c) = false) as H2b.
  { intros b. unfold space2. apply andb_false_iff. right.
    apply orb_false_iff. split; apply N.eqb_neq; lia. }
  assert (∀ b d, space3 d b (code c) = false) as H3b.
  { intros b d. unfold space3.
    assert ((code c =? 128)%N = false) as -> by (apply N.eqb_neq; lia).
    assert ((code c =? 159)%N = false) as -> by (apply N.eqb_neq; lia).
    assert ((128 <=? code c)%N = false) as -> by (apply N.leb_gt; lia).
    assert ((code c =? 168)%N = false) as -> by (apply N.eqb_neq; lia).
    assert ((code c =? 169)%N = false) as -> by (apply N.eqb_neq; lia).
    assert ((code c =? 175)%N = false) as -> by (apply N.eqb_neq; lia).
    simpl. by rewrite !andb_false_r. }
  destruct s as [|b s]; [done|]. rewrite H2b.
  destruct s as [|d s]; [done|]. by rewrite H3b.
Qed.

Lemma first_char_rev s : first_char (String.rev s) = last_char s.
Proof. by rewrite <- last_char_rev, rev_involutive. Qed.

(** Trimming takes nothing from a text that begins with a simple byte,
    and stops at a simple byte from the right. *)
Lemma trim_left_simple s c :
  first_char s = Some c → simple c = true → trim_head space_head 0 s = s.
Proof.
  destruct s as [|c' s]; [done|]. intros [= ->] Hc.
  apply FmtFacts.trim_head_0. by apply space_head_simple.
Qed.

Lemma trim_right_simple s c :
  last_char s = Some c → simple c = true →
  String.rev (trim_head space_last 0 (String.rev s)) = s.
Proof.
  intros Hl Hc. rewrite FmtFacts.trim_head_0; [apply rev_involutive|].
  pose proof (first_char_rev s) as Hf. rewrite Hl in Hf.
  destruct (String.rev s) as [|c' r]; [done|]. injection Hf as ->.
  by apply space_last_simple.
Qed.

Lemma TrimSpace_simple s c1 c2 :
  first_char s = Some c1 → simple c1 = true →
  last_char s = Some c2 → simple c2 = true →
  TrimSpace s = s.
Proof.
  intros H1 Hc1 H2 Hc2. unfold TrimSpace.
  rewrite (trim_left_simple _ _ H1 Hc1). by apply (trim_right_simple _ c2).
Qed.

Lemma TrimSpace_blank_right s c :
  first_char s = Some c → simple c = true →
  TrimSpace (s +:+ " ") = TrimSpace s.
Proof.
  intros H1 Hc. unfold TrimSpace.
  rewrite (trim_left_simple (s +:+ " ") c), (trim_left_simple s c); try done.
  - by rewrite rev_append.
  - by destruct s.
Qed.

Lemma TrimSpace_blank_left s : TrimSpace (String " " s) = TrimSpace s.
Proof. done. Qed.

(** With one blank or none at each end of such a text, the tokens are the
    words. *)
Lemma Split_TrimSpace_words (pad : bool) m c1 c2 :
  first_char m = Some c1 → simple c1 = true →
  last_char m = Some c2 → simple c2 = true →
  let s := if pad then String " " (m +:+ " ") else m in
  Split (TrimSpace s) = words s.
Proof.
  intros H1 Hc1 H2 Hc2. destruct pad; simpl.
  - rewrite TrimSpace_blank_left, (TrimSpace_blank_right _ c1) by done.
    rewrite (TrimSpace_simple _ c1 c2) by done.
    rewrite (Split_words m c1 c2); try done; try by apply simple_not_space.
    change (String " " (m +:+ " ")) with ("" +:+ String " " (m +:+ String " " "")).
    by rewrite !words_space, app_nil_r.
  - rewrite (TrimSpace_simple _ c1 c2) by done.
    apply (Split_words m c1 c2); try done; by apply simple_not_space.
Qed.

End WordsFacts.

Module RoundTrip.
Import Lexer LexerFacts Fmt Printer PrinterFacts WordsFacts TokenFacts Reader.

(** Induction over the list structures of integers. *)
Lemma num_tree_ind (P : value → Prop) :
  (∀ n, in_int_range n = true → P (VInt n)) →
  (∀ l, forallb num_tree l = true → Forall P l → P (VList l)) →
  ∀ v, num_tree v = true → P v.
Proof.
  intros Hint Hlist. fix IH 1.
  intros [ |n|s|b|l|f|parms body env] Hv; try discriminate.
  - by apply Hint.
  - apply Hlist; [done|]. simpl in Hv.
    induction l as [|x l IHl]; constructor.
    + apply IH. simpl in Hv. by apply andb_prop in Hv as [? _].
    + apply IHl. simpl in Hv. by apply andb_prop in Hv as [_ ?].
Qed.

(** The bytes of a printed number. *)
Definition num_char (c : ascii) : bool := is_decimal c || (code c =? 45)%N.

Lemma num_char_simple c : num_char c = true → simple c = true.
Proof.
  unfold num_char, is_decimal, simple, ascii_space.
  rewrite orb_true_iff, !andb_true_iff, negb_true_iff, orb_false_iff,
    andb_false_iff, !N.leb_le, N.eqb_eq, N.eqb_neq, N.ltb_lt, !N.leb_gt.
  lia.
Qed.

Lemma num_char_not_paren c : num_char c = true → is_paren c = false.
Proof.
  unfold num_char, is_decimal, is_paren.
  rewrite orb_true_iff, !andb_true_iff, orb_false_iff,
    !N.leb_le, N.eqb_eq, !N.eqb_neq.
  lia.
Qed.

Definition numeric (s : string) : Prop :=
  s ≠ "" ∧ has_char (λ c, negb (num_char c)) s = false.

Lemma has_char_none p q s :
  has_char (λ c, negb (p c)) s = false →
  (∀ c, p c = true → q c = false) →
  has_char q s = false.
Proof.
  intros Hs Hpq. induction s as [|c s IH]; [done|]. simpl in *.
  apply orb_false_iff in Hs as [Hc Hs]. apply negb_false_iff in Hc.
  by rewrite (Hpq _ Hc), IH.
Qed.

Lemma has_char_first p s c :
  has_char (λ c, negb (p c)) s = false → first_char s = Some c → p c = true.
Proof.
  destruct s as [|c' s]; [done|]. simpl.
  intros [Hc _]%orb_false_iff [= <-]. by apply negb_false_iff.
Qed.

Lemma has_char_last p s : ∀ c,
  has_char (λ c, negb (p c)) s = false → last_char s = Some c → p c = true.
Proof.
  induction s as [|c' s IH]; intros c; [done|].
  intros [Hc Hs]%orb_false_iff. apply negb_false_iff in Hc.
  rewrite last_char_cons. intros [= <-].
  destruct (last_char s) as [c''|] eqn:E; [|done]. by apply IH.
Qed.

Lemma all_decimal_numeric ds :
  all_decimal ds = true → has_char (λ c, negb (num_char c)) ds = false.
Proof.
  induction ds as [|c ds IH]; [done|]. simpl.
  intros [Hc Hds]%andb_prop. unfold num_char at 1. by rewrite Hc, IH.
Qed.

Lemma Sprintf_d_numeric n : in_int_range n = true → numeric (Sprintf_d n).
Proof.
  unfold in_int_range, int_min, int_max, int_bits.
  intros [Hlo Hhi]%andb_prop. apply Z.leb_le in Hlo, Hhi.
  change (2 ^ (64 - 1)) with 9223372036854775808 in *.
  unfold Sprintf_d. destruct (n <? 0) eqn:E.
  - apply Z.ltb_lt in E.
    destruct (fmt_digits_spec 19 (Z.to_N (- n)) "") as (ds & -> & Hall & _).
    { change (10 ^ N.of_nat 20)%N with 100000000000000000000%N. lia. }
    rewrite append_nil_r. split; [done|]. simpl.
    by apply all_decimal_numeric.
  - apply Z.ltb_ge in E.
    destruct (fmt_digits_spec 19 (Z.to_N n) "") as (ds & -> & Hall & Hne & _).
    { change (10 ^ N.of_nat 20)%N with 100000000000000000000%N. lia. }
    rewrite append_nil_r. split; [done|].
    by apply all_decimal_numeric.
Qed.

Lemma last_char_Some s : s ≠ "" → ∃ c, last_char s = Some c.
Proof. destruct s as [|c s]; [done|]. rewrite last_char_cons. eauto. Qed.

Lemma numeric_ends w :
  numeric w →
  ∃ c1 c2, first_char w = Some c1 ∧ num_char c1 = true
           ∧ last_char w = Some c2 ∧ num_char c2 = true.
Proof.
  intros [Hne Hw].
  destruct (last_char_Some w Hne) as [c2 H2].
  destruct w as [|c1 w]; [done|]. exists c1, c2. split_and!; [done| |done|].
  - by apply (has_char_first num_char (String c1 w)).
  - by apply (has_char_last num_char (String c1 w)).
Qed.

Lemma numeric_not_paren w : numeric w → w ≠ "(" ∧ w ≠ ")".
Proof.
  intros (c1 & _ & H1 & Hc1 & _)%numeric_ends.
  split; intros ->; by injection H1 as <-.
Qed.

Lemma spaced_app a b : spaced (a +:+ b) = spaced a +:+ spaced b.
Proof. unfold spaced. by rewrite !Replace1_app. Qed.

Lemma spaced_plain w : has_char is_paren w = false → spaced w = w.
Proof.
  induction w as [|c w IH]; [done|]. simpl. intros [Hc Hw]%orb_false_iff.
  rewrite spaced_cons, IH by done.
  destruct (Ascii.eqb_spec c "(") as [->|_]; [done|].
  destruct (Ascii.eqb_spec c ")") as [->|_]; [done|]. done.
Qed.

Lemma spaced_Join ss : spaced (Join ss " ") = Join (map spaced ss) " ".
Proof.
  induction ss as [|s [|s' ss] IH]; [done|done|].
  change (Join (s :: s' :: ss) " ") with (s +:+ " " +:+ Join (s' :: ss) " ").
  rewrite !spaced_app, IH. done.
Qed.

Lemma spaced_numeric w : numeric w → spaced w = w.
Proof.
  intros [_ Hw]. apply spaced_plain.
  apply (has_char_none num_char); [done|]. apply num_char_not_paren.
Qed.

Lemma words_numeric w : numeric w → words w = [w].
Proof.
  intros [Hne Hw]. apply words_word; [|done].
  apply (has_char_none num_char); [done|].
  intros c Hc. by apply simple_not_space, num_char_simple.
Qed.

(** The printed form of a list, with the parentheses set apart. *)
Lemma spaced_list pt l :
  spaced (schemestr pt (VList l)) =
    String " " (("( " +:+ spaced (Join (map (schemestr pt) l) " ") +:+ " )") +:+ " ").
Proof.
  change (schemestr pt (VList l))
    with (String "(" (Join (map (schemestr pt) l) " " +:+ ")")).
  rewrite spaced_cons, spaced_app. simpl Ascii.eqb. cbv iota.
  change (spaced ")") with " ) ".
  rewrite !append_cons, append_nil_l. do 3 f_equal.
  by rewrite append_nil_l, append_assoc.
Qed.

Lemma words_parens X :
  words (String " " (("( " +:+ X +:+ " )") +:+ " ")) = "(" :: words X ++ [")"].
Proof.
  assert (String " " (("( " +:+ X +:+ " )") +:+ " ")
          = "" +:+ String " " ("(" +:+ String " " (X +:+ String " " (")" +:+ String " " ""))))
    as ->.
  { change (String " " (String "(" (String " " ((X +:+ " )") +:+ " ")))
            = String " " (String "(" (String " " (X +:+ " ) ")))).
    by rewrite append_assoc. }
  rewrite !words_space.
  change (words "(") with ["("]. change (words ")") with [")"].
  change (words "") with (@nil string). done.
Qed.

Lemma words_schemestr pt v :
  num_tree v = true → words (spaced (schemestr pt v)) = toks v.
Proof.
  revert v. apply num_tree_ind.
  - intros n Hn. pose proof (Sprintf_d_numeric n Hn) as Hw. simpl.
    by rewrite (spaced_numeric _ Hw), (words_numeric _ Hw).
  - intros l _ IH. rewrite spaced_list, words_parens, spaced_Join, words_Join.
    simpl. do 2 f_equal.
    induction IH as [|x l Hx _ IHl]; [done|]. simpl. by rewrite Hx, IHl.
Qed.

(** The tokens of a printed structure. *)
Lemma tokenize_schemestr pt v :
  num_tree v = true → tokenize (schemestr pt v) = toks v.
Proof.
  intros Hv. rewrite <- (words_schemestr pt v Hv).
  change (tokenize (schemestr pt v))
    with (Split (TrimSpace (spaced (schemestr pt v)))).
  destruct v as [ |n|s|b|l|f|parms body env]; try discriminate.
  - pose proof (Sprintf_d_numeric n Hv) as Hw.
    destruct (numeric_ends _ Hw) as (c1 & c2 & H1 & Hc1 & H2 & Hc2).
    simpl schemestr. unfold Sprintf_d_value. rewrite (spaced_numeric _ Hw).
    apply (Split_TrimSpace_words false _ c1 c2); try done;
      by apply num_char_simple.
  - rewrite spaced_list.
    apply (Split_TrimSpace_words true _ "(" ")"); try done.
    change ("( " +:+ spaced (Join (map (schemestr pt) l) " ") +:+ " )")
      with (String "(" (" " +:+ spaced (Join (map (schemestr pt) l) " ") +:+ " " +:+ ")")).
    rewrite <- !append_assoc, <- append_cons. apply last_char_snoc.
Qed.

Lemma toks_head v :
  num_tree v = true → ∃ t ts, toks v = t :: ts ∧ t ≠ ")".
Proof.
  destruct v as [ |n|s|b|l|f|parms body env]; try discriminate.
  - intros Hn. exists (Sprintf_d n), []. split; [done|].
    by apply numeric_not_paren, Sprintf_d_numeric.
  - intros _. by exists "(", (flat_map toks l ++ [")"]).
Qed.

(** The reader on the tokens of a printed structure. *)
Lemma read_toks v :
  num_tree v = true →
  ∃ fuel0, ∀ fuel rest, (fuel0 ≤ fuel)%nat →
    readFromTokens_fuel fuel (toks v ++ rest) = Ok (v, rest).
Proof.
  revert v. apply num_tree_ind.
  - intros n Hn. exists 1%nat. intros [|fuel] rest Hf; [lia|].
    pose proof (Sprintf_d_numeric n Hn) as Hw.
    destruct (numeric_not_paren _ Hw) as [Ho Hc].
    simpl. repeat case_decide; try done.
    unfold atom. by rewrite (Sscan_Sprintf_d n Hn).
  - intros l Hnum IH.
    assert (∃ fuel0, ∀ fuel acc rest, (fuel0 ≤ fuel)%nat →
              readList fuel acc (flat_map toks l ++ ")" :: rest)
              = Ok (VList (acc ++ l), rest)) as [f0 Hl].
    { revert Hnum. induction IH as [|x l [fx Hx] _ IHl]; intros Hnum.
      - exists 1%nat. intros [|fuel] acc rest Hf; [lia|].
        simpl. by rewrite app_nil_r.
      - simpl in Hnum. apply andb_prop in Hnum as [Hnx Hnl].
        destruct (IHl Hnl) as [fl Hfl]. exists (S (fx `max` fl)).
        intros [|fuel] acc rest Hf; [lia|].
        destruct (toks_head x Hnx) as (t & ts & Ht & Hne).
        change (flat_map toks (x :: l)) with (toks x ++ flat_map toks l).
        rewrite <- app_assoc.
        change (readList (S fuel) acc (toks x ++ flat_map toks l ++ ")" :: rest))
          with (t0 ← index (toks x ++ flat_map toks l ++ ")" :: rest) 0;
                if decide (t0 ≠ ")") then
                  '(s, tokens) ← readFromTokens_fuel fuel (toks x ++ flat_map toks l ++ ")" :: rest);
                  readList fuel (acc ++ [s]) tokens
                else
                  let '(_, tokens) := pop (toks x ++ flat_map toks l ++ ")" :: rest) in
                  Ok (VList acc, tokens)).
        rewrite Ht at 1. simpl index. simpl mbind at 1.
        destruct (decide (t ≠ ")")) as [_|Hn]; [|by destruct Hn].
        rewrite Hx by lia. simpl. rewrite Hfl by lia.
        by rewrite <- app_assoc. }
    exists (S f0). intros [|fuel] rest Hf; [lia|].
    simpl. rewrite <- app_assoc. simpl.
    by rewrite (Hl fuel [] rest) by lia.
Qed.

End RoundTrip.

(** X16: printing then reading is the identity on integers and lists
    of them: for a list structure whose leaves are integers in the range
    of [int], [parse (schemestr exp)] returns [exp], whatever [Sprintf]
    writes for functions and procedures. *)
Theorem X16_print_then_parse pt (exp : value) :
  num_tree exp = true →
  Reader.parse (Printer.schemestr pt exp) = Ok exp.
Proof.
  intros Hv. unfold Reader.parse.
  rewrite (RoundTrip.tokenize_schemestr pt exp Hv).
  destruct (RoundTrip.read_toks exp Hv) as [f0 Hf].
  specialize (Hf f0 [] (Nat.le_refl _)). rewrite app_nil_r in Hf.
  by rewrite (readFromTokens_fuel_enough _ _ _ Hf).
Qed.

Lemma X16_print_then_parse_witness :
  Printer.schemestr (λ _, "") (VList [VInt 1; VList [VInt (-20)]; VList []])
    = "(1 (-20) ())"
  ∧ Reader.parse "(1 (-20) ())" = Ok (VList [VInt 1; VList [VInt (-20)]; VList []]).
Proof.
  split; [reflexivity|].
  exact (X16_print_then_parse (λ _, "")
           (VList [VInt 1; VList [VInt (-20)]; VList []]) eq_refl).
Defined.

Module WrongVerbFacts.
Import Lexer LexerFacts Printer WordsFacts TokenFacts RoundTrip Reader.

Lemma tokenize_wrong_verb X :
  ∃ ts, tokenize ("%!d(" +:+ X +:+ ")") = "%!d" :: ts.
Proof.
  change (tokenize ("%!d(" +:+ X +:+ ")"))
    with (Split (TrimSpace (spaced ("%!d(" +:+ X +:+ ")")))).
  rewrite !spaced_app.
  change (spaced "%!d(") with "%!d ( ". change (spaced ")") with (" )" +:+ " ").
  rewrite <- !append_assoc.
  rewrite (TrimSpace_blank_right _ "%") by done.
  rewrite (TrimSpace_simple _ "%" ")"); try done.
  - rewrite append_assoc. eexists. reflexivity.
  - change (" )") with (" " +:+ ")"). rewrite <- append_assoc.
    apply last_char_snoc.
Qed.

Lemma parse_wrong_verb X : parse ("%!d(" +:+ X +:+ ")") = Ok (VSym "%!d").
Proof.
  unfold parse. destruct (tokenize_wrong_verb X) as [ts ->].
  by rewrite (readFromTokens_fuel_enough 1 _ (Ok (VSym "%!d", ts))).
Qed.

End WrongVerbFacts.

(** X17: what is no number does not read back: the empty value, a
    symbol and a boolean are printed as the report of a wrong verb,
    [%!d(...)], and reading that text gives the symbol [%!d], whatever
    the value was. *)
Theorem X17_wrong_verb_reads_as_symbol pt (exp : value) :
  wrong_verb exp = true →
  Reader.parse (Printer.schemestr pt exp) = Ok (VSym "%!d").
Proof.
  destruct exp as [ |n|s|b|l|f|parms body env]; try discriminate; intros _.
  - apply (WrongVerbFacts.parse_wrong_verb "<nil>").
  - apply (WrongVerbFacts.parse_wrong_verb ("string=" +:+ s)).
  - apply (WrongVerbFacts.parse_wrong_verb ("bool=" +:+ (if b then "true" else "false"))).
Qed.

Lemma X17_wrong_verb_reads_as_symbol_witness :
  Printer.schemestr (λ _, "") (VSym "b") = "%!d(string=b)"
  ∧ Reader.parse "%!d(string=b)" = Ok (VSym "%!d").
Proof.
  split; [reflexivity|].
  exact (X17_wrong_verb_reads_as_symbol (λ _, "") (VSym "b") eq_refl).
Defined.

(** ** The interpreter extends the calculator *)

Module ExtendsFacts.
Import Lisgo.

Lemma Find_flat fuel env str : Find (S fuel) (flat env) 0 str = Ok 0%nat.
Proof. simpl. by destruct (not_nil _). Qed.

Lemma calc_expr_index l i x :
  forallb calc_expr l = true → index l i = Ok x → calc_expr x = true.
Proof.
  intros Hl Hx%index_Ok. rewrite forallb_forall in Hl.
  apply Hl. apply list_elem_of_In. by eapply list_elem_of_lookup_2.
Qed.

Section Step.
Variable cev : value → Calc.env_t → result (value * Calc.env_t).
Variable lev : value → loc → store → result (value * store).
Hypothesis Hsim : ∀ x env v env',
  calc_expr x = true → cev x env = Ok (v, env') →
  lev x 0%nat (flat env) = Ok (v, flat env').

Lemma makeArgs_loop_sim l : ∀ args env r env',
  forallb calc_expr l = true →
  Calc.makeArgs_loop cev l args env = Ok (r, env') →
  makeArgs_loop lev l 0 args (flat env) = Ok (r, flat env').
Proof.
  induction l as [|x l IH]; intros args env r env' Hl Hr; simpl in Hl, Hr |- *.
  - by revert Hr; intros [= <- <-].
  - apply andb_prop in Hl as [Hx Hl]. inv_bind Hr.
    rewrite (Hsim _ _ _ _ Hx Ha). simpl. by apply IH.
Qed.

Lemma eval_body_sim find x env v env' :
  (∀ env str, find (flat env) 0%nat str = Ok 0%nat) →
  calc_expr x = true →
  Calc.eval_body cev x env = Ok (v, env') →
  eval_body lev find x 0 (flat env) = Ok (v, flat env').
Proof.
  intros Hfind Hx Hev.
  destruct x as [ |n|s|b|l|f|parms body penv]; simpl in Hev;
    try (revert Hev; intros [= <- <-]; done).
  - unfold eval_body. simpl. rewrite Hfind. simpl. by revert Hev; intros [= <- <-].
  - destruct l as [|[ |n|s|b|l'|f|parms body penv] l]; try discriminate.
    unfold eval_body. simpl isSymbol. simpl isList. cbv iota.
    rewrite decide_False by done.
    unfold Calc.eval_body in Hev. simpl isSymbol in Hev. simpl isList in Hev.
    cbv iota in Hev. rewrite decide_False in Hev by done.
    simpl in Hev. simpl lookup. simpl mbind.
    unfold Calc.switch in Hev. unfold special.
    revert Hev. destruct (decide (s = "quote")) as [Hq|Hq].
    { intros (q & -> & [= <- <-])%bind_Ok. done. }
    simpl in Hx. rewrite bool_decide_eq_false_2 in Hx by done. simpl in Hx.
    apply andb_prop in Hx as [[Hs1 Hs2]%andb_prop Hl].
    apply bool_decide_eq_true in Hs1, Hs2.
    assert (forallb calc_expr (VSym s :: l) = true) as Hall by done.
    destruct (decide (s = "if")) as [Hif|Hif].
    { intros (test & Ht & (conseq & Hc & (alt & Ha & ([r e1] & Hr & Hev)%bind_Ok)%bind_Ok)%bind_Ok)%bind_Ok.
      rewrite Ht, Hc, Ha. simpl.
      rewrite (Hsim _ _ _ _ (calc_expr_index _ _ _ Hall Ht) Hr). simpl.
      destruct r as [ | | |[|]| | |]; simpl in Hev |- *;
        first [ apply (Hsim _ _ _ _ (calc_expr_index _ _ _ Hall Hc) Hev)
              | apply (Hsim _ _ _ _ (calc_expr_index _ _ _ Hall Ha) Hev) ]. }
    destruct (decide (s = "define")) as [Hdef|Hdef].
    { intros (car & Hcar & (cdr & Hcdr & Hev)%bind_Ok)%bind_Ok.
      rewrite Hcar, Hcdr. simpl.
      destruct (isSymbol car) as [str|]; [|discriminate].
      apply bind_Ok in Hev as ([w e1] & Hw & [= <- <-]).
      rewrite (Hsim _ _ _ _ (calc_expr_index _ _ _ Hall Hcdr) Hw). simpl.
      done. }
    rewrite decide_False by done. rewrite decide_False by done.
    unfold apply.
    intros (l0 & [= <-] & ([car e1] & Hcar & Hev)%bind_Ok)%bind_Ok.
    simpl index. simpl mbind at 1.
    rewrite (Hsim (VSym s) _ _ _ eq_refl Hcar). simpl.
    destruct car as [ | | | | |proc| ]; try discriminate. simpl in Hev.
    apply bind_Ok in Hev as ([args e2] & Hargs & (r & Hr & [= <- <-])%bind_Ok).
    unfold makeArgs. unfold Calc.makeArgs in Hargs.
    rewrite (makeArgs_loop_sim _ _ _ _ _ Hl Hargs). simpl.
    by rewrite Hr.
Qed.
End Step.

Lemma eval_sim fuel : ∀ x env v env',
  calc_expr x = true → Calc.eval fuel x env = Ok (v, env') →
  eval (S fuel) x 0 (flat env) = Ok (v, flat env').
Proof.
  induction fuel as [|fuel IH]; intros x env v env' Hx Hev; [discriminate|].
  change (eval (S (S fuel)) x 0 (flat env))
    with (eval_body (eval (S fuel)) (Find (S fuel)) x 0 (flat env)).
  apply (eval_body_sim (Calc.eval fuel)); try done.
  intros env0 str. apply Find_flat.
Qed.

End ExtendsFacts.

(** X18: the interpreter extends the calculator.  An expression of the
    calculator (every evaluated list headed by a symbol other than [set!]
    and [lambda]) that the calculator evaluates to a value, the
    interpreter evaluates to the same value in a store of one frame that
    holds the calculator's map, and it leaves the map the calculator
    leaves. *)
Theorem X18_interpreter_extends_calculator fuel x env v env' :
  calc_expr x = true →
  Calc.eval fuel x env = Ok (v, env') →
  Lisgo.eval (S fuel) x Lisgo.globalEnv (flat env) = Ok (v, flat env').
Proof. apply ExtendsFacts.eval_sim. Qed.

Lemma X18_interpreter_extends_calculator_witness :
  Calc.eval 3 (VList [VSym "define"; VSym "a"; VList [VSym "+"; VInt 1; VInt 2]])
    Calc.globalEnv = Ok (VInt 3, <["a" := VInt 3]> Calc.globalEnv)
  ∧ Lisgo.eval 4 (VList [VSym "define"; VSym "a"; VList [VSym "+"; VInt 1; VInt 2]])
      Lisgo.globalEnv (flat Calc.globalEnv)
    = Ok (VInt 3, flat (<["a" := VInt 3]> Calc.globalEnv)).
Proof.
  assert (Calc.eval 3 (VList [VSym "define"; VSym "a"; VList [VSym "+"; VInt 1; VInt 2]])
            Calc.globalEnv = Ok (VInt 3, <["a" := VInt 3]> Calc.globalEnv)) as Hc.
  { reflexivity. }
  split; [exact Hc|].
  exact (X18_interpreter_extends_calculator 3
           (VList [VSym "define"; VSym "a"; VList [VSym "+"; VInt 1; VInt 2]])
           Calc.globalEnv (VInt 3) (<["a" := VInt 3]> Calc.globalEnv) eq_refl Hc).
Defined.

(** X19: a session of the calculator replays in the interpreter.  When
    every line parses to an expression of the calculator and the
    calculator's loop evaluates the lines to some values, the
    interpreter's loop, started on the one frame that holds the
    calculator's map, gives the same values and ends with the map the
    calculator ends with. *)
Theorem X19_calculator_session_replays fuel lines : ∀ env vals env',
  Forall (λ line, ∀ x, Reader.parse line = Ok x → calc_expr x = true) lines →
  Calc.repl fuel lines env = Ok (vals, env') →
  Lisgo.repl (S fuel) lines (flat env) = Ok (vals, flat env').
Proof.
  induction lines as [|line lines IH]; intros env vals env' Hlines.
  - by intros [= <- <-].
  - apply Forall_cons in Hlines as [Hline Hlines].
    change (Calc.repl fuel (line :: lines) env)
      with ('(val, env) ← Calc.run fuel line env;
            '(vals, env) ← Calc.repl fuel lines env;
            Ok (val :: vals, env)).
    change (Lisgo.repl (S fuel) (line :: lines) (flat env))
      with ('(val, h) ← Lisgo.run (S fuel) line (flat env);
            '(vals, h) ← Lisgo.repl (S fuel) lines h;
            Ok (val :: vals, h)).
    intros ([val e1] & Hrun & ([vs e2] & Hrest & [= <- <-])%bind_Ok)%bind_Ok.
    unfold Calc.run in Hrun. apply bind_Ok in Hrun as (x & Hx & Hev).
    unfold Lisgo.run. rewrite Hx.
    change (Ok x ≫= λ x0, Lisgo.eval (S fuel) x0 Lisgo.globalEnv (flat env))
      with (Lisgo.eval (S fuel) x 0 (flat env)).
    rewrite (ExtendsFacts.eval_sim fuel x env val e1 (Hline x Hx) Hev).
    change (Ok (val, flat e1) ≫= (λ '(val0, h),
              Lisgo.repl (S fuel) lines h ≫= λ '(vals0, h0), Ok (val0 :: vals0, h0)))
      with (Lisgo.repl (S fuel) lines (flat e1) ≫= λ '(vals0, h0), Ok (val :: vals0, h0)).
    by rewrite (IH e1 vs e2 Hlines Hrest).
Qed.

Lemma X19_calculator_session_replays_witness :
  Calc.repl 3 ["(define a (+ 1 2))"; "(if false a (+ a a))"] Calc.globalEnv
    = Ok ([VInt 3; VInt 6], <["a" := VInt 3]> Calc.globalEnv)
  ∧ Lisgo.repl 4 ["(define a (+ 1 2))"; "(if false a (+ a a))"] Lisgo.globalStore
    = Ok ([VInt 3; VInt 6], flat (<["a" := VInt 3]> Calc.globalEnv)).
Proof.
  assert (Calc.repl 3 ["(define a (+ 1 2))"; "(if false a (+ a a))"] Calc.globalEnv
          = Ok ([VInt 3; VInt 6], <["a" := VInt 3]> Calc.globalEnv)) as Hc.
  { vm_compute. reflexivity. }
  split; [exact Hc|].
  apply (X19_calculator_session_replays 3
           ["(define a (+ 1 2))"; "(if false a (+ a a))"]
           Calc.globalEnv [VInt 3; VInt 6] (<["a" := VInt 3]> Calc.globalEnv));
    [|exact Hc].
  repeat constructor; intros x Hx; vm_compute in Hx;
    revert Hx; intros [= <-]; reflexivity.
Defined.
